(** * A shallow embedding of robin_table.c (Robin Hood hashing with
      backward-shift deletion) and its verification.

    size_t and uint64_t values are integers [Z] with their wrap-around
    written out ([u64]); a key is the list of its [klen] bytes; a value
    ([void*]) is an address, [NULL] being 0.  An allocation that may fail
    takes a boolean saying whether it succeeded.  An operation that stops
    on a failed [RT_ASSERT], or whose [while (1)] loop never ends, returns
    [None]; loops carry a fuel of [bucket_count] iterations. *)

From Stdlib Require Import ZArith Lia List Permutation Bool.
From Stdlib Require Import Strings.Byte.
Import ListNotations.
Open Scope Z_scope.

(** ** Machine integers *)

Definition u64 (x : Z) : Z := x mod 2 ^ 64.

Definition NULL : Z := 0.

(** ** Constants *)

Definition RT_BUCKET_COUNT_MIN : Z := 32.
Definition RT_LOAD_FACTOR_PCT_MAX : Z := 75.
Definition RT_LOAD_FACTOR_PCT_MIN : Z := 25.

(** ** Data model *)

(** [robin_bucket_t]: an empty bucket is one whose [key] is [NULL]. *)
Record robin_bucket := mkBucket {
  key : option (list byte);
  val : Z;
  psl : Z;
  klen : Z;
  hash : Z
}.

(** A bucket after [calloc] or [memset(bucket, 0, ...)]. *)
Definition zero_bucket : robin_bucket := mkBucket None 0 0 0 0.

(** The type of [hash_func], a function of the key bytes (their number
    is [klen]) and the seed, returning a [uint64_t]. *)
Definition hash_fn := list byte -> Z -> Z.

(** [struct robin_table_t]. *)
Record robin_table := mkTable {
  buckets : list robin_bucket;
  count : Z;
  bucket_count : Z;
  init_buckets : Z;
  mask : Z;
  expand_at : Z;
  shrink_at : Z;
  seed : Z;
  hash_func : hash_fn
}.

(** [rt->buckets] and [rt->count] replaced, the other fields kept. *)
Definition rt_update (rt : robin_table) (bs : list robin_bucket) (c : Z)
  : robin_table :=
  mkTable bs c (bucket_count rt) (init_buckets rt) (mask rt) (expand_at rt)
    (shrink_at rt) (seed rt) (hash_func rt).

(** [rt->buckets + idx] read and written. *)
Definition bucket_at (bs : list robin_bucket) (idx : Z) : robin_bucket :=
  nth (Z.to_nat idx) bs zero_bucket.

Fixpoint list_set {A} (l : list A) (n : nat) (x : A) : list A :=
  match l, n with
  | [], _ => []
  | _ :: l', O => x :: l'
  | y :: l', S n' => y :: list_set l' n' x
  end.

Definition bucket_set (bs : list robin_bucket) (idx : Z) (b : robin_bucket)
  : list robin_bucket :=
  list_set bs (Z.to_nat idx) b.

(** [memcmp(a, b, klen) == 0] on two keys of [klen] bytes. *)
Fixpoint memcmp_eq (a b : list byte) : bool :=
  match a, b with
  | [], [] => true
  | x :: a', y :: b' => Byte.eqb x y && memcmp_eq a' b'
  | _, _ => false
  end.

(** [bucket->hash == hash && bucket->klen == klen &&
     memcmp(bucket->key, key, klen) == 0]; the [memcmp] is only reached
    when the lengths agree, so a [NULL] key compares zero bytes. *)
Definition bucket_matches (b : robin_bucket) (h : Z) (k : list byte) : bool :=
  (hash b =? h) && (klen b =? Z.of_nat (length k)) &&
  match key b with
  | Some k' => memcmp_eq k' k
  | None => true
  end.

Definition is_empty (b : robin_bucket) : bool :=
  match key b with None => true | Some _ => false end.

(** [rt->hash_func(key, klen, rt->seed)], a [uint64_t]. *)
Definition rt_hash (rt : robin_table) (k : list byte) : Z :=
  u64 (hash_func rt k (seed rt)).

(** ** Capacity policy *)

(** [robin_table_next_pow2]. *)
Definition robin_table_next_pow2 (n : Z) : Z :=
  let n := u64 (n - 1) in
  let n := Z.lor n (Z.shiftr n 1) in
  let n := Z.lor n (Z.shiftr n 2) in
  let n := Z.lor n (Z.shiftr n 4) in
  let n := Z.lor n (Z.shiftr n 8) in
  let n := Z.lor n (Z.shiftr n 16) in
  let n := Z.lor n (Z.shiftr n 32) in
  u64 (n + 1).

(** [robin_table_calc_bucket_count]. *)
Definition robin_table_calc_bucket_count (cnt : Z) : Z :=
  let bc := u64 (cnt * 100) / RT_LOAD_FACTOR_PCT_MAX in
  if bc <? RT_BUCKET_COUNT_MIN then RT_BUCKET_COUNT_MIN
  else robin_table_next_pow2 bc.

Definition expand_threshold (bc : Z) : Z := u64 (bc * RT_LOAD_FACTOR_PCT_MAX) / 100.
Definition shrink_threshold (bc : Z) : Z := u64 (bc * RT_LOAD_FACTOR_PCT_MIN) / 100.

(** [robin_table_create]; [hf = None] is a [NULL] [hash_func], replaced by
    the default strategy [rapidhash]; [malloc_ok] and [calloc_ok] tell
    whether the two allocations succeed. *)
Definition robin_table_create (rapidhash : hash_fn) (cnt : Z)
    (hf : option hash_fn) (sd : Z) (malloc_ok calloc_ok : bool)
  : option robin_table :=
  if negb malloc_ok then None else
  let bc := robin_table_calc_bucket_count cnt in
  if negb calloc_ok then None else
  Some (mkTable (repeat zero_bucket (Z.to_nat bc)) 0 bc bc (u64 (bc - 1))
          (expand_threshold bc) (shrink_threshold bc) sd
          (match hf with Some f => f | None => rapidhash end)).

(** ** Insertion without resizing: [robin_table_put0]

    [h], [k] and [v] are the [hash], [key] and [val] of the call; [entry]
    is the bucket being carried. *)
Fixpoint put0_loop (fuel : nat) (rt : robin_table) (h : Z) (k : list byte)
    (v : Z) (idx : Z) (entry : robin_bucket) : option (robin_table * Z) :=
  match fuel with
  | O => None
  | S fuel' =>
      let bucket := bucket_at (buckets rt) idx in
      if is_empty bucket then
        (* *bucket = entry; ++rt->count; return val; *)
        Some (rt_update rt (bucket_set (buckets rt) idx entry) (u64 (count rt + 1)), v)
      else if bucket_matches bucket h k then
        Some (rt, val bucket)
      else
        let '(rt, entry) :=
          if psl bucket <? psl entry
          then (rt_update rt (bucket_set (buckets rt) idx entry) (count rt), bucket)
          else (rt, entry) in
        put0_loop fuel' rt h k v (Z.land (idx + 1) (mask rt))
          (mkBucket (key entry) (val entry) (u64 (psl entry + 1))
             (klen entry) (hash entry))
  end.

Definition robin_table_put0 (rt : robin_table) (k : list byte) (v : Z)
  : option (robin_table * Z) :=
  let h := rt_hash rt k in
  let idx := Z.land h (mask rt) in
  let entry := mkBucket (Some k) v 0 (Z.of_nat (length k)) h in
  put0_loop (Z.to_nat (bucket_count rt)) rt h k v idx entry.

(** ** Resizing: [robin_table_resize]

    The [bool] is the C result; [false] leaves the table untouched. *)
Fixpoint resize_loop (rt : robin_table) (old : list robin_bucket)
  : option robin_table :=
  match old with
  | [] => Some rt
  | b :: old' =>
      match key b with
      | Some k =>
          match robin_table_put0 rt k (val b) with
          | Some (rt', _) => resize_loop rt' old'
          | None => None
          end
      | None => resize_loop rt old'
      end
  end.

Definition robin_table_resize (rt : robin_table) (bc : Z) (alloc_ok : bool)
  : option (robin_table * bool) :=
  if negb (Z.land bc (u64 (bc - 1)) =? 0) then None
  else if negb (count rt <? bc) then None
  else if negb alloc_ok then Some (rt, false)
  else
    let rt0 := mkTable (repeat zero_bucket (Z.to_nat bc)) 0 bc (init_buckets rt)
                 (u64 (bc - 1)) (expand_threshold bc) (shrink_threshold bc)
                 (seed rt) (hash_func rt) in
    match resize_loop rt0 (buckets rt) with
    | Some rt' => Some (rt', true)
    | None => None
    end.

(** ** [robin_table_put] *)
Definition robin_table_put (rt : robin_table) (k : list byte) (v : Z)
    (alloc_ok : bool) : option (robin_table * Z) :=
  if (length k =? 0)%nat then None else
  if expand_at rt <=? count rt then
    match robin_table_resize rt (u64 (Z.shiftl (bucket_count rt) 1)) alloc_ok with
    | None => None
    | Some (rt', false) => Some (rt', NULL)
    | Some (rt', true) => robin_table_put0 rt' k v
    end
  else robin_table_put0 rt k v.

(** ** Lookup: [robin_table_get_bucket] and [robin_table_get]

    The bucket found is returned as its index. *)
Fixpoint get_bucket_loop (fuel : nat) (rt : robin_table) (h : Z)
    (k : list byte) (idx p : Z) : option (option Z) :=
  match fuel with
  | O => None
  | S fuel' =>
      let bucket := bucket_at (buckets rt) idx in
      if bucket_matches bucket h k then Some (Some idx)
      else if is_empty bucket || (psl bucket <? p) then Some None
      else get_bucket_loop fuel' rt h k (Z.land (idx + 1) (mask rt)) (u64 (p + 1))
  end.

Definition robin_table_get_bucket (rt : robin_table) (k : list byte)
  : option (option Z) :=
  let h := rt_hash rt k in
  get_bucket_loop (Z.to_nat (bucket_count rt)) rt h k (Z.land h (mask rt)) 0.

Definition robin_table_get (rt : robin_table) (k : list byte) : option Z :=
  if (length k =? 0)%nat then None else
  match robin_table_get_bucket rt k with
  | Some (Some i) => Some (val (bucket_at (buckets rt) i))
  | Some None => Some NULL
  | None => None
  end.

(** ** Deletion: [robin_table_del]

    At the head of each iteration of the backward shift, [bucket] is
    [rt->buckets + idx]. *)
Fixpoint del_shift_loop (fuel : nat) (rt : robin_table) (idx : Z)
  : option robin_table :=
  match fuel with
  | O => None
  | S fuel' =>
      let nidx := Z.land (idx + 1) (mask rt) in
      let next := bucket_at (buckets rt) nidx in
      if is_empty next || (psl next =? 0) then
        (* memset(bucket, 0, ...); --rt->count; *)
        Some (rt_update rt (bucket_set (buckets rt) idx zero_bucket) (u64 (count rt - 1)))
      else
        (* --next_bucket->psl; *bucket = *next_bucket; bucket = next_bucket; *)
        let bs := bucket_set (buckets rt) nidx
                    (mkBucket (key next) (val next) (u64 (psl next - 1))
                       (klen next) (hash next)) in
        let bs := bucket_set bs idx (bucket_at bs nidx) in
        del_shift_loop fuel' (rt_update rt bs (count rt)) nidx
  end.

Definition robin_table_del (rt : robin_table) (k : list byte) (alloc_ok : bool)
  : option (robin_table * Z) :=
  if (length k =? 0)%nat then None else
  match robin_table_get_bucket rt k with
  | None => None
  | Some None => Some (rt, NULL)
  | Some (Some i) =>
      let v := val (bucket_at (buckets rt) i) in
      match del_shift_loop (Z.to_nat (bucket_count rt)) rt i with
      | None => None
      | Some rt1 =>
          if (init_buckets rt1 <? bucket_count rt1) && (count rt1 <=? shrink_at rt1)
          then
            (* a failed shrink is ignored *)
            match robin_table_resize rt1 (Z.shiftr (bucket_count rt1) 1) alloc_ok with
            | Some (rt2, _) => Some (rt2, v)
            | None => None
            end
          else Some (rt1, v)
      end
  end.

(** ** [robin_table_clear] *)
Definition robin_table_clear (rt : robin_table) (update_buckets alloc_ok : bool)
  : robin_table * bool :=
  if update_buckets then
    if negb alloc_ok then (rt, false)
    else
      let bc := init_buckets rt in
      (mkTable (repeat zero_bucket (Z.to_nat bc)) 0 bc bc (u64 (bc - 1))
         (expand_threshold bc) (shrink_threshold bc) (seed rt) (hash_func rt), true)
  else
    (mkTable (repeat zero_bucket (Z.to_nat (bucket_count rt))) 0 (bucket_count rt)
       (init_buckets rt) (mask rt) (expand_at rt) (shrink_at rt) (seed rt)
       (hash_func rt), true).

(** ** The public operations that change the table, and reachable states *)

Inductive rt_op :=
  | OpPut (k : list byte) (v : Z) (alloc_ok : bool)
  | OpGet (k : list byte)
  | OpDel (k : list byte) (alloc_ok : bool)
  | OpClear (update_buckets alloc_ok : bool).

Inductive rt_result := RVal (v : Z) | RBool (b : bool).

Definition rt_step (rt : robin_table) (op : rt_op) : option (robin_table * rt_result) :=
  match op with
  | OpPut k v ok =>
      match robin_table_put rt k v ok with
      | Some (rt', r) => Some (rt', RVal r) | None => None end
  | OpGet k =>
      match robin_table_get rt k with
      | Some r => Some (rt, RVal r) | None => None end
  | OpDel k ok =>
      match robin_table_del rt k ok with
      | Some (rt', r) => Some (rt', RVal r) | None => None end
  | OpClear u ok =>
      let '(rt', b) := robin_table_clear rt u ok in Some (rt', RBool b)
  end.

Fixpoint rt_run (rt : robin_table) (ops : list rt_op) : option robin_table :=
  match ops with
  | [] => Some rt
  | op :: ops' =>
      match rt_step rt op with
      | Some (rt', _) => rt_run rt' ops'
      | None => None
      end
  end.

Inductive reachable : robin_table -> Prop :=
  | reach_create rapidhash cnt hf sd rt :
      robin_table_create rapidhash cnt hf sd true true = Some rt -> reachable rt
  | reach_step rt op rt' r :
      reachable rt -> rt_step rt op = Some (rt', r) -> reachable rt'.

(** A small hash strategy for concrete runs: the sum of the bytes. *)
Definition sum_hash : hash_fn :=
  fun k s => fold_left (fun acc b => acc + Z.of_N (Byte.to_N b)) k s.

(** Another strategy: a polynomial hash of the bytes, base 31. *)
Definition poly_hash : hash_fn :=
  fun k s => fold_left (fun acc b => acc * 31 + Z.of_N (Byte.to_N b)) k s.

(** * Views used by the proofs *)

Definition len (bs : list robin_bucket) : Z := Z.of_nat (length bs).

(** The bucket array read circularly: position [i] is index [i mod len]. *)
Definition slot (bs : list robin_bucket) (i : Z) : robin_bucket :=
  bucket_at bs (i mod len bs).

(** The (key, value) pairs stored, in array order. *)
Definition entry_of (b : robin_bucket) : list (list byte * Z) :=
  match key b with Some k => [(k, val b)] | None => [] end.

Fixpoint entries (bs : list robin_bucket) : list (list byte * Z) :=
  match bs with
  | [] => []
  | b :: bs' => entry_of b ++ entries bs'
  end.

Definition keys (bs : list robin_bucket) : list (list byte) := map fst (entries bs).

Fixpoint assoc (k : list byte) (l : list (list byte * Z)) : option Z :=
  match l with
  | [] => None
  | (k', v) :: l' =>
      if list_eq_dec Byte.byte_eq_dec k k' then Some v else assoc k l'
  end.

(** The value stored for [k] in the table, if [k] is stored. *)
Definition stored (rt : robin_table) (k : list byte) : option Z :=
  assoc k (entries (buckets rt)).

(** ** The invariant of a bucket array

    [H] is the table's hash of a key.  An empty bucket is all zeroes; an
    occupied one caches the hash and length of its key and records its
    displacement from the ideal index; a displaced bucket follows an
    occupied bucket that is displaced at least one less (Robin Hood
    order); keys are distinct.  Positions are read circularly. *)
Record arr_wf (bs : list robin_bucket) (H : list byte -> Z) : Prop := {
  wf_empty : forall i, key (slot bs i) = None -> slot bs i = zero_bucket;
  wf_entry : forall i k, key (slot bs i) = Some k ->
    hash (slot bs i) = H k /\ klen (slot bs i) = Z.of_nat (length k) /\
    (0 < length k)%nat /\ psl (slot bs i) = (i - H k) mod len bs;
  wf_rh : forall i, is_empty (slot bs i) = false -> 0 < psl (slot bs i) ->
    is_empty (slot bs (i - 1)) = false /\ psl (slot bs i) - 1 <= psl (slot bs (i - 1));
  wf_nodup : NoDup (keys bs)
}.

(** The same, except that the Robin Hood order may fail at position [x]:
    the state of the array during the backward shift of a deletion. *)
Record arr_wf_but (bs : list robin_bucket) (H : list byte -> Z) (x : Z) : Prop := {
  wb_empty : forall i, key (slot bs i) = None -> slot bs i = zero_bucket;
  wb_entry : forall i k, key (slot bs i) = Some k ->
    hash (slot bs i) = H k /\ klen (slot bs i) = Z.of_nat (length k) /\
    (0 < length k)%nat /\ psl (slot bs i) = (i - H k) mod len bs;
  wb_rh : forall i, i mod len bs <> x mod len bs ->
    is_empty (slot bs i) = false -> 0 < psl (slot bs i) ->
    is_empty (slot bs (i - 1)) = false /\ psl (slot bs i) - 1 <= psl (slot bs (i - 1));
  wb_nodup : NoDup (keys bs)
}.

(** During the backward shift, [b] is the vacated position: the bucket
    after it, once moved back, still follows a bucket displaced enough. *)
Definition hole_ok (c : list robin_bucket) (b : Z) : Prop :=
  is_empty (slot c (b + 1)) = false -> 2 <= psl (slot c (b + 1)) ->
  is_empty (slot c (b - 1)) = false /\ psl (slot c (b + 1)) - 2 <= psl (slot c (b - 1)).

(** [rt->mask] for a power-of-two [bucket_count] [N]. *)
Definition geom (rt : robin_table) (N : Z) : Prop :=
  mask rt = N - 1 /\ exists e, 1 <= e <= 63 /\ N = 2 ^ e.

(** The invariant of a table between two public operations. *)
Record table_inv (rt : robin_table) : Prop := {
  ti_len : len (buckets rt) = bucket_count rt;
  ti_pow2 : exists e, 5 <= e <= 63 /\ bucket_count rt = 2 ^ e;
  ti_init : exists e, 5 <= e /\ init_buckets rt = 2 ^ e /\ init_buckets rt <= bucket_count rt;
  ti_mask : mask rt = bucket_count rt - 1;
  ti_expand : expand_at rt = expand_threshold (bucket_count rt);
  ti_shrink : shrink_at rt = shrink_threshold (bucket_count rt);
  ti_wf : arr_wf (buckets rt) (rt_hash rt);
  ti_count : count rt = Z.of_nat (length (entries (buckets rt)));
  ti_room : count rt < bucket_count rt
}.

(** ** Readings of the specification's sentences, to compare with the code *)

(** A copy of a bucket with its [psl] decremented, as the backward shift
    moves it ([--next_bucket->psl; *bucket = *next_bucket]). *)
Definition psl_dec (b : robin_bucket) : robin_bucket :=
  mkBucket (key b) (val b) (u64 (psl b - 1)) (klen b) (hash b).

(** The backward shift as the specification words it: walking from the
    vacated index [idx], the bucket after it is moved back with its [psl]
    decremented until an empty or undisplaced bucket is met; then the
    originally freed index [freed] is zeroed and the count decremented. *)
Fixpoint del_shift_claimed (fuel : nat) (rt : robin_table) (freed idx : Z)
  : option robin_table :=
  match fuel with
  | O => None
  | S fuel' =>
      let nidx := Z.land (idx + 1) (mask rt) in
      let next := bucket_at (buckets rt) nidx in
      if is_empty next || (psl next =? 0) then
        Some (rt_update rt (bucket_set (buckets rt) freed zero_bucket) (u64 (count rt - 1)))
      else
        let bs := bucket_set (buckets rt) nidx (psl_dec next) in
        let bs := bucket_set bs idx (bucket_at bs nidx) in
        del_shift_claimed fuel' (rt_update rt bs (count rt)) freed nidx
  end.

(** The specification's [target_capacity(n)]: [raw = ceil(n * 100 / 75)];
    [32] below [32], else the least power of two at least [raw]. *)
Definition target_capacity (n : Z) : Z :=
  let raw := (n * 100 + (RT_LOAD_FACTOR_PCT_MAX - 1)) / RT_LOAD_FACTOR_PCT_MAX in
  if raw <? RT_BUCKET_COUNT_MIN then RT_BUCKET_COUNT_MIN else 2 ^ Z.log2_up raw.

(** What a caller observes of a run: the result of each operation and the
    entry count after it; a run stops at an operation that does not return. *)
Fixpoint rt_trace (rt : robin_table) (ops : list rt_op) : list (option (rt_result * Z)) :=
  match ops with
  | [] => []
  | op :: ops' =>
      match rt_step rt op with
      | Some (rt', r) => Some (r, count rt') :: rt_trace rt' ops'
      | None => [None]
      end
  end.

(** An operation that neither names [k] nor clears the table (a lookup of
    [k] is allowed). *)
Definition op_other (k : list byte) (op : rt_op) : Prop :=
  match op with
  | OpPut k' _ _ => k' <> k
  | OpGet _ => True
  | OpDel k' _ => k' <> k
  | OpClear _ _ => False
  end.

(** ** Concrete tables for the examples *)

(** The table [robin_table_create(0, NULL, 0)] builds with [sum_hash] as
    the default strategy. *)
Definition ex_table0 : robin_table :=
  mkTable (repeat zero_bucket 32) 0 32 32 31 24 8 0 sum_hash.

(** The table a run ends in (the start table if the run fails). *)
Definition ex_after (rt : robin_table) (ops : list rt_op) : robin_table :=
  match rt_run rt ops with Some t => t | None => rt end.

(** The one-byte key [i]. *)
Definition ex_key (i : nat) : list byte :=
  match Byte.of_nat i with Some b => [b] | None => [] end.

(** [n] insertions of the keys [1 .. n] with value [100 + i]. *)
Definition ex_puts (n : nat) : list rt_op :=
  map (fun i => OpPut (ex_key i) (100 + Z.of_nat i) true) (seq 1 n).

(** [n] deletions of the keys [1 .. n]. *)
Definition ex_dels (n : nat) : list rt_op :=
  map (fun i => OpDel (ex_key i) true) (seq 1 n).

(** Two keys of the same hash under [sum_hash]: [[1]] in its ideal bucket
    1 and [[0; 1]] displaced to bucket 2. *)
Definition ex_collide : robin_table :=
  ex_after ex_table0 [OpPut [x01] 7 true; OpPut [x00; x01] 8 true].

(** The table [robin_table_create(0, poly_hash, 5)] builds. *)
Definition ex_table_poly : robin_table :=
  mkTable (repeat zero_bucket 32) 0 32 32 31 24 8 5 poly_hash.

(** A run mixing insertions (with one growth), lookups and deletions. *)
Definition ex_mixed : list rt_op :=
  ex_puts 30 ++ [OpGet (ex_key 3); OpGet [x00; x01]; OpPut (ex_key 3) 9 true] ++
  ex_dels 12 ++ [OpGet (ex_key 20); OpGet (ex_key 5); OpDel (ex_key 5) true].

(** Twenty one-byte keys, then three keys whose byte sums collide with
    them: some entries end up displaced three buckets. *)
Definition ex_crowded_ops : list rt_op :=
  ex_puts 20 ++ [OpPut [x00; x01] 1 true; OpPut [x00; x00; x01] 1 true; OpPut [x01; x00] 1 true].

Definition ex_crowded : robin_table := ex_after ex_table0 ex_crowded_ops.

(** ** Views of the public results *)

(** The value [robin_table_put] answers for [k]: the stored one, else [v]. *)
Definition put_answer (rt : robin_table) (k : list byte) (v : Z) : Z :=
  match stored rt k with Some v1 => v1 | None => v end.

(** The entry count after [robin_table_put] stores [k]. *)
Definition put_count (rt : robin_table) (k : list byte) : Z :=
  match stored rt k with Some _ => count rt | None => count rt + 1 end.

(** The bucket count after a deletion of a stored key. *)
Definition del_bucket_count (rt : robin_table) (ok : bool) : Z :=
  if (init_buckets rt <? bucket_count rt) && (count rt - 1 <=? shrink_at rt) && ok
  then bucket_count rt / 2 else bucket_count rt.

(** Two well-formed tables a caller cannot tell apart: same entry count,
    bucket counts and stored pairs, whatever their strategies, seeds and
    slot layouts. *)
Definition same_view (a b : robin_table) : Prop :=
  table_inv a /\ table_inv b /\ count a = count b /\ bucket_count a = bucket_count b /\
  init_buckets a = init_buckets b /\ forall k, stored a k = stored b k.

(** The bits of [x] above [p] are clear, and the [j] bits from [p] down
    are set: the state of [robin_table_next_pow2] after each [|=]. *)
Definition smeared (p x j : Z) : Prop :=
  (forall i, 0 <= i -> p < i -> Z.testbit x i = false) /\
  (forall i, 0 <= i -> p - j < i <= p -> Z.testbit x i = true).

(** * The rest of the interface *)

(** [robin_table_count]. *)
Definition robin_table_count (rt : robin_table) : Z := count rt.

(** ** Iteration

    [robin_table_iter_impl_t] without its table pointer: the public
    [iter.key] and [iter.val], and [idx].  The table the iterator points to
    is passed to [robin_table_iter_next] as it is at the time of the call. *)
Record rt_iter := mkIter {
  it_key : option (list byte);
  it_val : Z;
  it_idx : Z
}.

(** [robin_table_iter_create]; [malloc_ok] tells whether the allocation
    succeeds.  [idx = -1] is [SIZE_MAX]. *)
Definition robin_table_iter_create (malloc_ok : bool) : option rt_iter :=
  if malloc_ok then Some (mkIter None NULL (u64 (-1))) else None.

(** The loop [while (++iter_impl->idx < rt->bucket_count)]. *)
Fixpoint iter_next_loop (fuel : nat) (rt : robin_table) (it : rt_iter)
  : option (rt_iter * bool) :=
  match fuel with
  | O => None
  | S fuel' =>
      let idx := u64 (it_idx it + 1) in
      if idx <? bucket_count rt then
        let bucket := bucket_at (buckets rt) idx in
        match key bucket with
        | Some k => Some (mkIter (Some k) (val bucket) idx, true)
        | None => iter_next_loop fuel' rt (mkIter (it_key it) (it_val it) idx)
        end
      else
        (* the iterator cleared by memset *)
        Some (mkIter None NULL idx, false)
  end.

(** [robin_table_iter_next]: [bucket_count + 1] increments of [idx] reach
    the end from [SIZE_MAX] or from any index below it. *)
Definition robin_table_iter_next (rt : robin_table) (it : rt_iter) : option (rt_iter * bool) :=
  iter_next_loop (S (Z.to_nat (bucket_count rt))) rt it.

(** A caller's loop [while (robin_table_iter_next(iter)) { ... }] that
    records [(iter->key, iter->val)] at each entry, with the iterator it
    ends with. *)
Fixpoint iter_collect (fuel : nat) (rt : robin_table) (it : rt_iter)
  : option (list (option (list byte) * Z) * rt_iter) :=
  match fuel with
  | O => None
  | S fuel' =>
      match robin_table_iter_next rt it with
      | Some (it', true) =>
          match iter_collect fuel' rt it' with
          | Some (l, itf) => Some ((it_key it', it_val it') :: l, itf)
          | None => None
          end
      | Some (it', false) => Some ([], it')
      | None => None
      end
  end.

(** ** Statistics: [robin_table_psl_max] *)

(** The loop over [i < rt->bucket_count]. *)
Fixpoint psl_max_loop (n : nat) (bs : list robin_bucket) (i max_psl : Z) : Z :=
  match n with
  | O => max_psl
  | S n' =>
      let bucket := bucket_at bs i in
      psl_max_loop n' bs (i + 1)
        (if negb (is_empty bucket) && (max_psl <? psl bucket) then psl bucket else max_psl)
  end.

(** [None] when [RT_ASSERT(rt->count != 0)] fails. *)
Definition robin_table_psl_max (rt : robin_table) : option Z :=
  if count rt =? 0 then None
  else Some (psl_max_loop (Z.to_nat (bucket_count rt)) (buckets rt) 0 0).

(** ** The hash strategies' helpers *)

(** [rapid_mul128] where [__uint128_t] exists: the low and high halves of
    the 128-bit product. *)
Definition rapid_mul128_int128 (A B : Z) : Z * Z :=
  let r := A * B in (u64 r, u64 (Z.shiftr r 64)).

(** [rapid_mul128] without [__uint128_t]: four 32-bit products and the
    carries of the two additions into [low]. *)
Definition rapid_mul128_portable (A B : Z) : Z * Z :=
  let a_high := Z.shiftr A 32 in
  let b_high := Z.shiftr B 32 in
  let a_low := A mod 2 ^ 32 in
  let b_low := B mod 2 ^ 32 in
  let result_high := u64 (a_high * b_high) in
  let result_m0 := u64 (a_high * b_low) in
  let result_m1 := u64 (b_high * a_low) in
  let result_low := u64 (a_low * b_low) in
  let high := u64 (u64 (result_high + Z.shiftr result_m0 32) + Z.shiftr result_m1 32) in
  let t := u64 (result_low + u64 (Z.shiftl result_m0 32)) in
  let high := u64 (high + (if t <? result_low then 1 else 0)) in
  let low := u64 (t + u64 (Z.shiftl result_m1 32)) in
  let high := u64 (high + (if low <? t then 1 else 0)) in
  (low, high).

(** [XXH_rotl64]. *)
Definition XXH_rotl64 (value amt : Z) : Z :=
  Z.lor (u64 (Z.shiftl value (amt mod 64))) (Z.shiftr value (64 - amt mod 64)).

(** The load bound of a table, while [bucket_count * 75] fits in [size_t]. *)
Definition load_ok (rt : robin_table) : Prop :=
  bucket_count rt <= 2 ^ 57 -> count rt <= expand_at rt.

(** * Lemmas on lists, positions and the entries view *)

Lemma list_set_length {A} (l : list A) n x : length (list_set l n x) = length l.
Proof. revert n; induction l; intros [|n]; simpl; auto. Qed.

Lemma nth_list_set_same {A} (l : list A) n x d :
  (n < length l)%nat -> nth n (list_set l n x) d = x.
Proof.
  revert n; induction l; intros [|n] H; simpl in *; try lia; auto.
  apply IHl; lia.
Qed.

Lemma nth_list_set_other {A} (l : list A) n m x d :
  n <> m -> nth m (list_set l n x) d = nth m l d.
Proof.
  revert n m; induction l; intros [|n] [|m] H; simpl; auto; try lia.
Qed.

Lemma bucket_set_len bs i b : len (bucket_set bs i b) = len bs.
Proof. unfold len, bucket_set. now rewrite list_set_length. Qed.

Lemma slot_mod bs i : slot bs (i mod len bs) = slot bs i.
Proof. unfold slot. now rewrite Zmod_mod. Qed.

Lemma slot_eq bs i j : i mod len bs = j mod len bs -> slot bs i = slot bs j.
Proof. unfold slot. now intros ->. Qed.

Lemma slot_in_range bs i : 0 <= i < len bs -> slot bs i = bucket_at bs i.
Proof. intros H. unfold slot. now rewrite Z.mod_small. Qed.

Lemma slot_set bs idx x j :
  0 <= idx < len bs ->
  slot (bucket_set bs idx x) j = if Z.eq_dec (j mod len bs) idx then x else slot bs j.
Proof.
  intros H. unfold slot. rewrite bucket_set_len. unfold bucket_at, bucket_set.
  assert (0 <= j mod len bs < len bs) by (apply Z.mod_pos_bound; lia).
  destruct (Z.eq_dec (j mod len bs) idx) as [E|E].
  - rewrite E. apply nth_list_set_same. unfold len in H. lia.
  - apply nth_list_set_other. lia.
Qed.

Lemma mod_shift_ne N i s : 0 < N -> s mod N <> 0 -> (i + s) mod N <> i mod N.
Proof.
  intros HN Hs E. apply Hs.
  replace s with ((i + s) - i) by lia.
  rewrite Zminus_mod, E, Z.sub_diag. reflexivity.
Qed.

Lemma mod_small_ne N s : 0 < s < N -> s mod N <> 0.
Proof. intros H. rewrite Z.mod_small; lia. Qed.

Lemma mod_neg_ne N s : 0 < s < N -> (- s) mod N <> 0.
Proof.
  intros H. rewrite Z.mod_opp_l_nz; rewrite ?Z.mod_small; lia.
Qed.

Lemma land_mask x e : 0 <= e -> Z.land x (2 ^ e - 1) = x mod 2 ^ e.
Proof.
  intros He. rewrite <- Z.land_ones by lia. f_equal.
  rewrite Z.ones_equiv. lia.
Qed.

Lemma entries_app l1 l2 : entries (l1 ++ l2) = entries l1 ++ entries l2.
Proof. induction l1; simpl; auto. rewrite IHl1. apply app_assoc. Qed.

Lemma entries_set bs n x :
  (n < length bs)%nat ->
  Permutation (entry_of (nth n bs zero_bucket) ++ entries (list_set bs n x))
              (entry_of x ++ entries bs).
Proof.
  revert n; induction bs as [|b bs IH]; intros [|n] H; simpl in *; try lia.
  - apply Permutation_app_swap_app.
  - rewrite Permutation_app_swap_app.
    rewrite (Permutation_app_swap_app (entry_of x)).
    apply Permutation_app_head. apply IH. lia.
Qed.

Lemma entries_repeat_zero n : entries (repeat zero_bucket n) = [].
Proof. induction n; simpl; auto. Qed.

Lemma in_entries bs k v :
  In (k, v) (entries bs) <->
  exists n, (n < length bs)%nat /\ key (nth n bs zero_bucket) = Some k /\
            val (nth n bs zero_bucket) = v.
Proof.
  induction bs as [|b bs IH]; simpl.
  - split; [tauto|]. intros (n & H & _). lia.
  - rewrite in_app_iff, IH. unfold entry_of. split.
    + intros [H|(n & Hn & Hk & Hv)].
      * destruct (key b) eqn:E; simpl in H; [|tauto].
        destruct H as [H|[]]. inversion H; subst. exists O. simpl. auto with arith.
      * exists (S n). simpl. repeat split; auto; lia.
    + intros ([|n] & Hn & Hk & Hv); simpl in *.
      * left. rewrite Hk. simpl. left. now subst.
      * right. exists n. repeat split; auto; lia.
Qed.

Lemma nodup_unique bs n m k :
  NoDup (keys bs) -> (n < length bs)%nat -> (m < length bs)%nat ->
  key (nth n bs zero_bucket) = Some k -> key (nth m bs zero_bucket) = Some k ->
  n = m.
Proof.
  unfold keys. revert n m; induction bs as [|b bs IH]; intros n m ND Hn Hm Hkn Hkm;
    simpl in *; [lia|].
  rewrite map_app in ND. unfold entry_of in ND.
  destruct n as [|n], m as [|m]; auto.
  - rewrite Hkn in ND. simpl in ND. inversion ND as [|? ? Hni]; subst.
    exfalso. apply Hni. apply in_map_iff. exists (k, val (nth m bs zero_bucket)).
    split; auto. apply in_entries. exists m. repeat split; auto; lia.
  - rewrite Hkm in ND. simpl in ND. inversion ND as [|? ? Hni]; subst.
    exfalso. apply Hni. apply in_map_iff. exists (k, val (nth n bs zero_bucket)).
    split; auto. apply in_entries. exists n. repeat split; auto; lia.
  - f_equal. apply IH; auto; try lia.
    destruct (key b); simpl in ND; auto. now inversion ND.
Qed.

Lemma assoc_in k l : NoDup (map fst l) -> forall v, In (k, v) l -> assoc k l = Some v.
Proof.
  induction l as [|[k' v'] l IH]; simpl; intros ND v H; [tauto|].
  inversion ND as [|? ? Hni ND']; subst.
  destruct (list_eq_dec Byte.byte_eq_dec k k') as [->|Hne].
  - destruct H as [H|H]; [congruence|].
    exfalso. apply Hni. apply in_map_iff. now exists (k', v).
  - destruct H as [H|H]; [congruence|]. auto.
Qed.

Lemma assoc_none k l : (forall v, ~ In (k, v) l) -> assoc k l = None.
Proof.
  induction l as [|[k' v'] l IH]; simpl; intros H; auto.
  destruct (list_eq_dec Byte.byte_eq_dec k k') as [->|Hne].
  - exfalso. apply (H v'). now left.
  - apply IH. intros v Hv. apply (H v). now right.
Qed.

Lemma assoc_some k l v : assoc k l = Some v -> In (k, v) l.
Proof.
  induction l as [|[k' v'] l IH]; simpl; intros H; [discriminate|].
  destruct (list_eq_dec Byte.byte_eq_dec k k') as [->|Hne].
  - inversion H; subst. now left.
  - right. auto.
Qed.

Lemma assoc_perm k l l' :
  NoDup (map fst l) -> Permutation l l' -> assoc k l = assoc k l'.
Proof.
  intros ND P.
  assert (ND' : NoDup (map fst l')).
  { eapply Permutation_NoDup; [apply Permutation_map; exact P|exact ND]. }
  destruct (assoc k l) as [v|] eqn:E.
  - symmetry. apply assoc_in; auto. eapply Permutation_in; eauto. now apply assoc_some.
  - destruct (assoc k l') as [v|] eqn:E'; auto.
    apply assoc_some in E'. apply (Permutation_in _ (Permutation_sym P)) in E'.
    rewrite (assoc_in _ _ ND _ E') in E. discriminate.
Qed.

Lemma memcmp_eq_spec a b : memcmp_eq a b = true <-> a = b.
Proof.
  revert b; induction a as [|x a IH]; intros [|y b]; simpl; split; intros H;
    try discriminate; auto.
  - apply andb_prop in H as [H1 H2]. apply Byte.byte_dec_bl in H1.
    apply IH in H2. now subst.
  - inversion H; subst. rewrite Byte.byte_dec_lb by auto. simpl. now apply IH.
Qed.

Lemma entries_length_lt bs :
  (length (entries bs) < length bs)%nat ->
  exists n, (n < length bs)%nat /\ key (nth n bs zero_bucket) = None.
Proof.
  induction bs as [|b bs IH]; simpl; intros H; [lia|].
  unfold entry_of in H. destruct (key b) eqn:E.
  - simpl in H. destruct IH as (n & Hn & Hk); [lia|]. exists (S n). simpl. split; auto; lia.
  - exists O. simpl. split; auto; lia.
Qed.

Lemma len_pos_mod bs i : 0 < len bs -> 0 <= i mod len bs < len bs.
Proof. intros H. apply Z.mod_pos_bound. lia. Qed.

Lemma slot_key_in bs i k :
  0 < len bs -> key (slot bs i) = Some k -> In (k, val (slot bs i)) (entries bs).
Proof.
  intros HN Hk. apply in_entries. exists (Z.to_nat (i mod len bs)).
  pose proof (len_pos_mod bs i HN). unfold slot, bucket_at in *. unfold len in *.
  repeat split; auto; lia.
Qed.

Lemma in_entries_slot bs k v :
  In (k, v) (entries bs) ->
  exists i, 0 <= i < len bs /\ key (slot bs i) = Some k /\ val (slot bs i) = v.
Proof.
  intros H. apply in_entries in H as (n & Hn & Hk & Hv).
  exists (Z.of_nat n). unfold len. rewrite slot_in_range by (unfold len; lia).
  unfold bucket_at. rewrite Nat2Z.id. repeat split; auto; lia.
Qed.

Section WF.
Variable H : list byte -> Z.

Lemma wf_psl_range bs i k :
  arr_wf bs H -> 0 < len bs -> key (slot bs i) = Some k ->
  0 <= psl (slot bs i) < len bs.
Proof.
  intros W HN Hk. destruct (wf_entry _ _ W i k Hk) as (_ & _ & _ & ->).
  apply Z.mod_pos_bound. lia.
Qed.

Lemma wf_matches bs i k :
  arr_wf bs H -> (0 < length k)%nat ->
  bucket_matches (slot bs i) (H k) k = true <-> key (slot bs i) = Some k.
Proof.
  intros W Hk. unfold bucket_matches. destruct (key (slot bs i)) as [k'|] eqn:E.
  - destruct (wf_entry _ _ W i k' E) as (Hh & Hl & _ & _).
    rewrite Hh, Hl. split.
    + intros M. apply andb_prop in M as [_ M]. apply memcmp_eq_spec in M. now subst.
    + intros M. inversion M; subst. rewrite !Z.eqb_refl. simpl.
      now apply memcmp_eq_spec.
  - rewrite (wf_empty _ _ W i E). split; [|discriminate].
    intros M. apply andb_prop in M as [M _]. apply andb_prop in M as [_ M].
    apply Z.eqb_eq in M. simpl in M. lia.
Qed.

Lemma wf_unique bs i j k :
  arr_wf bs H -> 0 < len bs ->
  key (slot bs i) = Some k -> key (slot bs j) = Some k -> i mod len bs = j mod len bs.
Proof.
  intros W HN Hi Hj.
  pose proof (len_pos_mod bs i HN). pose proof (len_pos_mod bs j HN).
  unfold slot, bucket_at in Hi, Hj.
  assert (E : Z.to_nat (i mod len bs) = Z.to_nat (j mod len bs)).
  { eapply nodup_unique; eauto using wf_nodup; unfold len in *; lia. }
  lia.
Qed.

(** Along the probe path of an occupied bucket every bucket is occupied
    and displaced at least as far as the probe distance. *)
Lemma wf_rh_path bs i :
  arr_wf bs H -> is_empty (slot bs i) = false ->
  forall e, 0 <= e <= psl (slot bs i) ->
  is_empty (slot bs (i - e)) = false /\ psl (slot bs i) - e <= psl (slot bs (i - e)).
Proof.
  intros W Hocc e He. destruct He as [He0 He1].
  pattern e; apply (natlike_ind (fun e => e <= psl (slot bs i) ->
    is_empty (slot bs (i - e)) = false /\ psl (slot bs i) - e <= psl (slot bs (i - e))));
    auto.
  - intros _. rewrite Z.sub_0_r. split; auto; lia.
  - intros x Hx IH Hle. destruct IH as [IH1 IH2]; [lia|].
    destruct (wf_rh _ _ W (i - x) IH1) as [R1 R2]; [lia|].
    replace (i - Z.succ x) with (i - x - 1) by lia. split; auto; lia.
Qed.
End WF.

Lemma mod_path N h j p d :
  0 < N -> p = (j - h) mod N -> (h + d) mod N = (j - (p - d)) mod N.
Proof.
  intros HN ->. rewrite (Z.mod_eq (j - h)) by lia.
  replace (j - (j - h - N * ((j - h) / N) - d)) with (h + d + ((j - h) / N) * N) by lia.
  now rewrite Z_mod_plus_full.
Qed.

Lemma u64_small x : 0 <= x < 2 ^ 64 -> u64 x = x.
Proof. intros. unfold u64. now apply Z.mod_small. Qed.

Lemma rt_hash_range rt k : 0 <= rt_hash rt k < 2 ^ 64.
Proof. unfold rt_hash, u64. apply Z.mod_pos_bound. lia. Qed.

Lemma geom_land rt N x : geom rt N -> Z.land x (mask rt) = x mod N.
Proof.
  intros (Hm & e & He & ->). rewrite Hm. apply land_mask. lia.
Qed.

Lemma geom_bounds rt N : geom rt N -> 2 <= N <= 2 ^ 63.
Proof.
  intros (_ & e & He & ->). split.
  - change 2 with (2 ^ 1). apply Z.pow_le_mono_r; lia.
  - apply Z.pow_le_mono_r; lia.
Qed.

Lemma geom_update rt N bs c : geom rt N -> geom (rt_update rt bs c) N.
Proof. auto. Qed.

Lemma next_idx rt N x :
  geom rt N -> 0 <= x -> Z.land (x mod N + 1) (mask rt) = (x + 1) mod N.
Proof.
  intros G Hx. rewrite (geom_land _ _ _ G). pose proof (geom_bounds _ _ G).
  now rewrite Z.add_mod_idemp_l by lia.
Qed.

Lemma bucket_at_mod bs x : 0 < len bs -> bucket_at bs (x mod len bs) = slot bs x.
Proof. reflexivity. Qed.

Section Lookup.
Variable rt : robin_table.
Variable N : Z.
Local Abbreviation bs := (buckets rt).
Local Abbreviation H := (rt_hash rt).
Hypothesis G : geom rt N.
Hypothesis HL : len bs = N.
Hypothesis W : arr_wf bs H.

Lemma get_loop_found k j :
  (0 < length k)%nat -> key (slot bs j) = Some k ->
  forall fuel d, 0 <= d <= psl (slot bs j) -> (Z.to_nat (psl (slot bs j) - d) < fuel)%nat ->
  get_bucket_loop fuel rt (H k) k ((H k + d) mod N) d = Some (Some (j mod N)).
Proof.
  intros Hk Hj. pose proof (geom_bounds _ _ G) as HB.
  destruct (wf_entry _ _ W j k Hj) as (_ & _ & _ & Hp).
  rewrite HL in Hp. set (p := psl (slot bs j)) in *.
  assert (Hpr : 0 <= p < N) by (rewrite Hp; apply Z.mod_pos_bound; lia).
  induction fuel as [|fuel IH]; intros d Hd Hf; [lia|].
  simpl.
  assert (Eb : bucket_at bs ((H k + d) mod N) = slot bs (j - (p - d))).
  { unfold slot. rewrite HL. f_equal. apply mod_path; [lia|exact Hp]. }
  rewrite Eb.
  destruct (Z.eq_dec d p) as [->|Hne].
  - replace (j - (p - p)) with j by lia.
    rewrite (proj2 (wf_matches _ _ _ _ W Hk) Hj).
    f_equal. f_equal. rewrite (mod_path N (H k) j p p) by (lia || exact Hp).
    f_equal. lia.
  - destruct (wf_rh_path _ bs j W) with (e := p - d) as [Ho Hge].
    + unfold is_empty. now rewrite Hj.
    + fold p. lia.
    + fold p in Hge.
      destruct (bucket_matches (slot bs (j - (p - d))) (H k) k) eqn:M.
      { exfalso. apply (wf_matches _ _ _ _ W Hk) in M.
        pose proof (wf_unique _ _ _ _ _ W ltac:(lia) M Hj) as U.
        rewrite HL in U.
        assert (Hne2 : (j + - (p - d)) mod N <> j mod N)
          by (apply mod_shift_ne; [lia|apply mod_neg_ne; lia]).
        apply Hne2. replace (j + - (p - d)) with (j - (p - d)) by lia. exact U. }
      rewrite Ho. simpl.
      replace (psl (slot bs (j - (p - d))) <? d) with false
        by (symmetry; apply Z.ltb_ge; lia).
      pose proof (rt_hash_range rt k) as Hr.
      rewrite (next_idx _ _ _ G) by lia.
      rewrite u64_small by lia.
      replace (H k + d + 1) with (H k + (d + 1)) by lia.
      apply IH; lia.
Qed.

Lemma probe_slot k x : bucket_at bs ((H k + x) mod N) = slot bs (H k + x).
Proof. unfold slot. now rewrite HL. Qed.

(** The buckets met before reaching a stored key. *)
Lemma probe_before k j d :
  (0 < length k)%nat -> key (slot bs j) = Some k -> 0 <= d < psl (slot bs j) ->
  is_empty (slot bs (H k + d)) = false /\
  bucket_matches (slot bs (H k + d)) (H k) k = false /\
  d <= psl (slot bs (H k + d)).
Proof.
  intros Hk Hj Hd. pose proof (geom_bounds _ _ G) as HB.
  destruct (wf_entry _ _ W j k Hj) as (_ & _ & _ & Hp). rewrite HL in Hp.
  set (p := psl (slot bs j)) in *.
  assert (Hpr : 0 <= p < N) by (rewrite Hp; apply Z.mod_pos_bound; lia).
  rewrite (slot_eq bs (H k + d) (j - (p - d))) by (rewrite HL; apply mod_path; [lia|exact Hp]).
  destruct (wf_rh_path _ bs j W) with (e := p - d) as [Ho Hge].
  - unfold is_empty. now rewrite Hj.
  - fold p. lia.
  - fold p in Hge. repeat split; auto; try lia.
    destruct (bucket_matches (slot bs (j - (p - d))) (H k) k) eqn:M; auto.
    exfalso. apply (wf_matches _ _ _ _ W Hk) in M.
    pose proof (wf_unique _ _ _ _ _ W ltac:(lia) M Hj) as U. rewrite HL in U.
    assert (Hne2 : (j + - (p - d)) mod N <> j mod N)
      by (apply mod_shift_ne; [lia|apply mod_neg_ne; lia]).
    apply Hne2. replace (j + - (p - d)) with (j - (p - d)) by lia. exact U.
Qed.

Lemma probe_at k j :
  key (slot bs j) = Some k -> slot bs (H k + psl (slot bs j)) = slot bs j.
Proof.
  intros Hj. pose proof (geom_bounds _ _ G) as HB.
  destruct (wf_entry _ _ W j k Hj) as (_ & _ & _ & Hp). rewrite HL in Hp.
  apply slot_eq. rewrite HL.
  rewrite (mod_path N (H k) j (psl (slot bs j)) (psl (slot bs j))) by (lia || exact Hp).
  f_equal. lia.
Qed.

Lemma get_loop_absent k :
  (0 < length k)%nat -> (forall i, key (slot bs i) <> Some k) ->
  forall fuel d t, 0 <= d -> d + Z.of_nat fuel <= N -> (t < fuel)%nat ->
  is_empty (slot bs (H k + d + Z.of_nat t)) = true ->
  get_bucket_loop fuel rt (H k) k ((H k + d) mod N) d = Some None.
Proof.
  intros Hk Hn. pose proof (geom_bounds _ _ G) as HB.
  pose proof (rt_hash_range rt k) as Hr.
  induction fuel as [|fuel IH]; intros d t Hd Hf Ht He; [lia|].
  simpl. rewrite probe_slot.
  destruct (bucket_matches (slot bs (H k + d)) (H k) k) eqn:M.
  { apply (wf_matches _ _ _ _ W Hk) in M. exfalso. now apply (Hn (H k + d)). }
  destruct (is_empty (slot bs (H k + d))) eqn:E; simpl; auto.
  destruct (psl (slot bs (H k + d)) <? d); auto.
  destruct t as [|t].
  { simpl in He. rewrite Z.add_0_r in He. congruence. }
  rewrite (next_idx _ _ _ G) by lia. rewrite u64_small by lia.
  replace (H k + d + 1) with (H k + (d + 1)) by lia.
  apply (IH (d + 1) t); try lia.
  rewrite <- He. do 2 f_equal. lia.
Qed.

Lemma put0_loop_found k v j :
  (0 < length k)%nat -> key (slot bs j) = Some k ->
  forall fuel d, 0 <= d <= psl (slot bs j) ->
  (Z.to_nat (psl (slot bs j) - d) < fuel)%nat ->
  put0_loop fuel rt (H k) k v ((H k + d) mod N)
    (mkBucket (Some k) v d (Z.of_nat (length k)) (H k)) = Some (rt, val (slot bs j)).
Proof.
  intros Hk Hj. pose proof (geom_bounds _ _ G) as HB.
  pose proof (rt_hash_range rt k) as Hr.
  assert (Hpr : 0 <= psl (slot bs j) < N) by (rewrite <- HL; eapply wf_psl_range; eauto; lia).
  induction fuel as [|fuel IH]; intros d Hd Hf; [lia|].
  simpl. rewrite probe_slot.
  destruct (Z.eq_dec d (psl (slot bs j))) as [Ed|Hne].
  - rewrite Ed, probe_at by auto.
    assert (Ho : is_empty (slot bs j) = false) by (unfold is_empty; now rewrite Hj).
    rewrite Ho, (proj2 (wf_matches _ _ _ _ W Hk) Hj). reflexivity.
  - destruct (probe_before k j d) as (Ho & M & Hge); auto; try lia.
    rewrite Ho, M.
    replace (psl (slot bs (H k + d)) <? d) with false by (symmetry; apply Z.ltb_ge; lia).
    simpl. rewrite (next_idx _ _ _ G) by lia. rewrite u64_small by lia.
    replace (H k + d + 1) with (H k + (d + 1)) by lia.
    apply IH; lia.
Qed.
End Lookup.

Lemma slot_set_here bs idx x :
  0 <= idx < len bs -> slot (bucket_set bs idx x) idx = x.
Proof.
  intros Hi. rewrite slot_set by auto. rewrite Z.mod_small by lia.
  destruct (Z.eq_dec idx idx); congruence.
Qed.

Lemma slot_set_far bs idx x s :
  0 <= idx < len bs -> s mod len bs <> 0 ->
  slot (bucket_set bs idx x) (idx + s) = slot bs (idx + s).
Proof.
  intros Hi Hs. rewrite slot_set by auto.
  destruct (Z.eq_dec ((idx + s) mod len bs) idx) as [E|E]; auto.
  exfalso. apply (mod_shift_ne (len bs) idx s); auto; try lia.
  rewrite E. symmetry. apply Z.mod_small. lia.
Qed.

Lemma slot_next bs idx t :
  0 < len bs -> slot bs ((idx + 1) mod len bs + t) = slot bs (idx + (1 + t)).
Proof.
  intros HN. apply slot_eq. rewrite Z.add_mod_idemp_l by lia. f_equal. lia.
Qed.

Lemma psl_next N idx h p :
  0 < N -> 0 <= p -> p + 1 < N -> p = (idx - h) mod N ->
  p + 1 = ((idx + 1) mod N - h) mod N.
Proof.
  intros HN Hp Hp1 E. rewrite Zminus_mod_idemp_l.
  replace (idx + 1 - h) with ((idx - h) + 1) by lia.
  rewrite Zplus_mod, <- E. rewrite (Z.mod_small 1) by lia.
  rewrite Z.mod_small; lia.
Qed.

Lemma nodup_cons_keys (ke : list byte) (ve : Z) (l : list (list byte * Z)) :
  NoDup (map fst l) -> ~ In ke (map fst l) -> NoDup (map fst ((ke, ve) :: l)).
Proof. intros. simpl. now constructor. Qed.

(** Placing a bucket that fits at [idx] (its displacement is its distance
    from its ideal index, it follows a bucket displaced at least one less,
    and it replaces an empty or a less displaced bucket). *)
Lemma wf_place H bs idx e ke :
  arr_wf bs H -> 2 <= len bs -> 0 <= idx < len bs ->
  key e = Some ke -> hash e = H ke -> klen e = Z.of_nat (length ke) ->
  (0 < length ke)%nat -> psl e = (idx - H ke) mod len bs ->
  (0 < psl e -> is_empty (slot bs (idx - 1)) = false /\ psl e - 1 <= psl (slot bs (idx - 1))) ->
  ~ In ke (keys bs) ->
  (is_empty (slot bs idx) = true \/ psl (slot bs idx) < psl e) ->
  arr_wf (bucket_set bs idx e) H /\
  Permutation (entry_of (slot bs idx) ++ entries (bucket_set bs idx e)) ((ke, val e) :: entries bs).
Proof.
  intros W HN Hi Hke Hh Hkl Hlen Hpe Vd Hni Hsp.
  assert (P : Permutation (entry_of (slot bs idx) ++ entries (bucket_set bs idx e))
                          ((ke, val e) :: entries bs)).
  { rewrite slot_in_range by auto. unfold bucket_at, bucket_set.
    replace ((ke, val e) :: entries bs) with (entry_of e ++ entries bs)
      by (unfold entry_of; now rewrite Hke).
    apply entries_set. unfold len in Hi. lia. }
  split; auto.
  assert (HL' : len (bucket_set bs idx e) = (len bs)) by apply bucket_set_len.
  constructor.
  - intros j. rewrite slot_set by auto.
    destruct (Z.eq_dec (j mod (len bs)) idx); [intros Hk; congruence|]. apply (wf_empty _ _ W).
  - intros j k. rewrite HL', slot_set by auto.
    destruct (Z.eq_dec (j mod (len bs)) idx) as [E|E].
    + intros Hk. rewrite Hke in Hk. injection Hk as Hk. subst k.
      repeat split; auto. rewrite Hpe, <- E. now rewrite Zminus_mod_idemp_l.
    + intros Hk. destruct (wf_entry _ _ W j k Hk) as (? & ? & ? & ?). auto.
  - intros j. rewrite !slot_set by auto.
    assert (Hpred : (j - 1) mod (len bs) = idx -> j mod (len bs) <> idx).
    { intros E1 E2. pose proof (mod_shift_ne (len bs) j (-1) ltac:(lia)
        (mod_neg_ne (len bs) 1 ltac:(lia))) as X.
      apply X. rewrite E2, <- E1. try (f_equal; lia). }
    destruct (Z.eq_dec (j mod (len bs)) idx) as [E|E].
    + destruct (Z.eq_dec ((j - 1) mod (len bs)) idx) as [E1|E1]; [exfalso; now apply Hpred|].
      intros _ Hp. rewrite (slot_eq bs (j - 1) (idx - 1)).
      * apply Vd. auto.
      * rewrite <- E. now rewrite Zminus_mod_idemp_l.
    + destruct (Z.eq_dec ((j - 1) mod (len bs)) idx) as [E1|E1].
      * intros Ho Hp. unfold is_empty at 1. rewrite Hke. split; auto.
        destruct (wf_rh _ _ W j Ho Hp) as [R1 R2].
        rewrite (slot_eq bs (j - 1) idx) in R1, R2
          by (rewrite E1; symmetry; now apply Z.mod_small).
        destruct Hsp as [Hsp|Hsp]; [congruence|lia].
      * apply (wf_rh _ _ W).
  - assert (ND : NoDup (map fst (entry_of (slot bs idx) ++ entries (bucket_set bs idx e)))).
    { eapply Permutation_NoDup; [apply Permutation_map; symmetry; exact P|].
      apply nodup_cons_keys; auto. apply (wf_nodup _ _ W). }
    unfold keys. rewrite map_app in ND. now apply NoDup_app_remove_l in ND.
Qed.

Lemma empty_entry b : is_empty b = true -> entry_of b = [].
Proof. unfold is_empty, entry_of. destruct (key b); congruence. Qed.

Lemma occupied_entry b : is_empty b = false -> exists kb, key b = Some kb /\ entry_of b = [(kb, val b)].
Proof. unfold is_empty, entry_of. destruct (key b); [eauto|congruence]. Qed.

Lemma mask_update rt bs c : mask (rt_update rt bs c) = mask rt.
Proof. reflexivity. Qed.

Section Insert.
Variable rt : robin_table.
Variable N : Z.
Hypothesis G : geom rt N.
Local Abbreviation H := (rt_hash rt).

(** The insertion loop of [robin_table_put0], started with a bucket [e]
    that fits at [idx], in front of a run of [g] occupied non-matching
    buckets followed by an empty one, places [e] and the buckets it
    displaces and adds exactly one entry. *)
Lemma put0_loop_insert h k v : forall g fuel bs cnt idx e ke,
  len bs = N -> arr_wf bs H -> 0 <= idx < N ->
  key e = Some ke -> hash e = H ke -> klen e = Z.of_nat (length ke) ->
  (0 < length ke)%nat -> psl e = (idx - H ke) mod N ->
  (0 < psl e -> is_empty (slot bs (idx - 1)) = false /\ psl e - 1 <= psl (slot bs (idx - 1))) ->
  ~ In ke (keys bs) ->
  (forall t, 0 <= t < Z.of_nat g -> is_empty (slot bs (idx + t)) = false) ->
  is_empty (slot bs (idx + Z.of_nat g)) = true ->
  psl e + Z.of_nat g < N ->
  (forall t, 0 <= t < Z.of_nat g -> bucket_matches (slot bs (idx + t)) h k = false) ->
  (g < fuel)%nat ->
  exists bs', put0_loop fuel (rt_update rt bs cnt) h k v idx e
              = Some (rt_update rt bs' (u64 (cnt + 1)), v) /\
    len bs' = N /\ arr_wf bs' H /\ Permutation (entries bs') ((ke, val e) :: entries bs).
Proof.
  pose proof (geom_bounds _ _ G) as GB.
  induction g as [|g IH];
    intros fuel bs cnt idx e ke HL W Hi Hke Hh Hkl Hlen Hpe Vd Hni Hocc Hemp Hroom Hnm Hf;
    (destruct fuel as [|fuel]; [lia|]); cbn [put0_loop];
    change (buckets (rt_update rt bs cnt)) with bs;
    rewrite <- (slot_in_range bs idx) by lia.
  - rewrite Z.add_0_r in Hemp. rewrite Hemp.
    exists (bucket_set bs idx e). split; [reflexivity|].
    destruct (wf_place H bs idx e ke) as [W' P]; try rewrite HL; auto; try lia.
    rewrite empty_entry in P by auto. simpl in P.
    split; [rewrite bucket_set_len; auto|]. auto.
  - assert (Ho : is_empty (slot bs idx) = false)
      by (rewrite <- (Z.add_0_r idx); apply Hocc; lia).
    assert (Hm : bucket_matches (slot bs idx) h k = false)
      by (rewrite <- (Z.add_0_r idx); apply Hnm; lia).
    rewrite Ho, Hm.
    destruct (occupied_entry _ Ho) as (kr & Hkr & Er).
    destruct (wf_entry _ _ W idx kr Hkr) as (Hhr & Hklr & Hlenr & Hpr).
    rewrite HL in Hpr.
    assert (Hpe0 : 0 <= psl e) by (rewrite Hpe; apply Z.mod_pos_bound; lia).
    assert (Hpr0 : 0 <= psl (slot bs idx)) by (rewrite Hpr; apply Z.mod_pos_bound; lia).
    assert (Hsh : forall bs0 t, len bs0 = N -> 0 <= t ->
               slot bs0 ((idx + 1) mod N + t) = slot bs0 (idx + (1 + t))).
    { intros bs0 t E0 _. rewrite <- E0. apply slot_next. lia. }
    destruct (psl (slot bs idx) <? psl e) eqn:Lt.
    + apply Z.ltb_lt in Lt. cbv beta iota. rewrite !mask_update.
      rewrite (geom_land rt N) by auto.
      destruct (wf_place H bs idx e ke) as [W1 P1]; try rewrite HL; auto; try lia.
      rewrite Er in P1. simpl in P1.
      set (bs1 := bucket_set bs idx e) in *.
      assert (HL1 : len bs1 = N) by (unfold bs1; rewrite bucket_set_len; auto).
      assert (Far : forall s, 0 < s < N -> slot bs1 (idx + s) = slot bs (idx + s)).
      { intros s Hs. unfold bs1. apply slot_set_far; rewrite HL; [lia|].
        apply mod_small_ne. lia. }
      assert (Hnd1 : NoDup (kr :: keys bs1)).
      { change (kr :: keys bs1) with (map fst ((kr, val (slot bs idx)) :: entries bs1)).
        eapply Permutation_NoDup; [apply Permutation_map; symmetry; exact P1|].
        apply nodup_cons_keys; auto. apply (wf_nodup _ _ W). }
      apply NoDup_cons_iff in Hnd1 as [Hni1 _].
      edestruct (IH fuel bs1 cnt ((idx + 1) mod N)
        (mkBucket (key (slot bs idx)) (val (slot bs idx)) (u64 (psl (slot bs idx) + 1))
           (klen (slot bs idx)) (hash (slot bs idx))) kr)
        as (bs' & E' & HL' & W' & P'); simpl; auto.
      * apply Z.mod_pos_bound. lia.
      * rewrite u64_small by lia. apply psl_next; lia.
      * rewrite u64_small by lia. intros _.
        rewrite (slot_eq bs1 _ idx) by (rewrite HL1, Zminus_mod_idemp_l;
          f_equal; lia).
        unfold bs1. rewrite slot_set_here by (rewrite HL; lia).
        unfold is_empty. rewrite Hke. split; [reflexivity|lia].
      * intros t Ht. rewrite Hsh by (auto; lia). rewrite Far by lia.
        apply Hocc. lia.
      * rewrite Hsh by (auto; lia). rewrite Far by lia.
        replace (idx + (1 + Z.of_nat g)) with (idx + Z.of_nat (S g)) by lia.
        exact Hemp.
      * rewrite u64_small by lia. lia.
      * intros t Ht. rewrite Hsh by (auto; lia). rewrite Far by lia.
        apply Hnm. lia.
      * lia.
      * exists bs'. split; [exact E'|]. split; [auto|]. split; [auto|].
        rewrite P'. exact P1.
    + apply Z.ltb_ge in Lt. cbv beta iota. rewrite !mask_update.
      rewrite (geom_land rt N) by auto.
      edestruct (IH fuel bs cnt ((idx + 1) mod N)
        (mkBucket (key e) (val e) (u64 (psl e + 1)) (klen e) (hash e)) ke)
        as (bs' & E' & HL' & W' & P'); simpl; auto.
      * apply Z.mod_pos_bound. lia.
      * rewrite u64_small by lia. apply psl_next; lia.
      * rewrite u64_small by lia. intros _.
        rewrite (slot_eq bs _ idx) by (rewrite HL, Zminus_mod_idemp_l;
          f_equal; lia).
        split; [auto|lia].
      * intros t Ht. rewrite Hsh by (auto; lia). apply Hocc. lia.
      * rewrite Hsh by (auto; lia).
        replace (idx + (1 + Z.of_nat g)) with (idx + Z.of_nat (S g)) by lia.
        exact Hemp.
      * rewrite u64_small by lia. lia.
      * intros t Ht. rewrite Hsh by (auto; lia). apply Hnm. lia.
      * lia.
      * exists bs'. split; [exact E'|]. auto.
Qed.
End Insert.

(** * Whole-array operations on a well-formed table *)

Lemma least_true (P : nat -> bool) d :
  P d = true -> exists g, (g <= d)%nat /\ P g = true /\ forall t, (t < g)%nat -> P t = false.
Proof.
  intros Hd.
  assert (Q : forall n, (forall t, (t < n)%nat -> P t = false) \/
              exists g, (g < n)%nat /\ P g = true /\ forall t, (t < g)%nat -> P t = false).
  { induction n as [|n [IH|IH]].
    - left. intros. lia.
    - destruct (P n) eqn:E.
      + right. exists n. split; [lia|auto].
      + left. intros t Ht. destruct (Nat.eq_dec t n); [subst; auto|apply IH; lia].
    - right. destruct IH as (g & ? & ? & ?). exists g. split; [lia|auto]. }
  destruct (Q (S d)) as [L|(g & ? & ? & ?)].
  - rewrite L in Hd by lia. discriminate.
  - exists g. split; [lia|auto].
Qed.

(** From any position, the first empty bucket is less than a full turn away. *)
Lemma first_empty bs i j :
  0 < len bs -> is_empty (slot bs j) = true ->
  exists g, Z.of_nat g < len bs /\
    (forall t, 0 <= t < Z.of_nat g -> is_empty (slot bs (i + t)) = false) /\
    is_empty (slot bs (i + Z.of_nat g)) = true.
Proof.
  intros HN Hj.
  set (d := Z.to_nat ((j - i) mod len bs)).
  assert (Hd : 0 <= (j - i) mod len bs < len bs) by (apply Z.mod_pos_bound; lia).
  destruct (least_true (fun n => is_empty (slot bs (i + Z.of_nat n))) d) as (g & Hg & Pg & Lt).
  - cbv beta. rewrite (slot_eq bs _ j); auto.
    unfold d. rewrite Z2Nat.id by lia. rewrite Zplus_mod_idemp_r. f_equal. lia.
  - exists g. split; [unfold d in Hg; lia|]. split; auto.
    intros t Ht. rewrite <- (Z2Nat.id t) by lia. apply Lt. lia.
Qed.

Lemma empty_exists bs :
  (length (entries bs) < length bs)%nat -> exists j, is_empty (slot bs j) = true.
Proof.
  intros Hl. destruct (entries_length_lt bs Hl) as (n & Hn & Hk).
  exists (Z.of_nat n). rewrite slot_in_range by (unfold len; lia).
  unfold bucket_at, is_empty. rewrite Nat2Z.id, Hk. reflexivity.
Qed.

Lemma stored_some bs k v : assoc k (entries bs) = Some v ->
  exists j, 0 <= j < len bs /\ key (slot bs j) = Some k /\ val (slot bs j) = v.
Proof. intros E. apply in_entries_slot. now apply assoc_some. Qed.

Lemma stored_none H bs k : arr_wf bs H -> 0 < len bs ->
  assoc k (entries bs) = None -> forall i, key (slot bs i) <> Some k.
Proof.
  intros W HN E i Hk. apply slot_key_in in Hk; auto.
  rewrite (assoc_in k _ (wf_nodup _ _ W) _ Hk) in E. discriminate.
Qed.

Lemma stored_slot H bs k j : arr_wf bs H -> 0 < len bs ->
  key (slot bs j) = Some k -> assoc k (entries bs) = Some (val (slot bs j)).
Proof. intros W HN Hk. apply assoc_in; [apply (wf_nodup _ _ W)|]. now apply slot_key_in. Qed.

Lemma rt_update_id rt : rt_update rt (buckets rt) (count rt) = rt.
Proof. destruct rt; reflexivity. Qed.

Section ArrOps.
Variable rt : robin_table.
Variable N : Z.
Hypothesis G : geom rt N.
Hypothesis HBC : bucket_count rt = N.
Hypothesis HL : len (buckets rt) = N.
Hypothesis W : arr_wf (buckets rt) (rt_hash rt).
Hypothesis Hroom : (length (entries (buckets rt)) < length (buckets rt))%nat.
Local Abbreviation bs := (buckets rt).
Local Abbreviation H := (rt_hash rt).

Lemma arr_N_pos : 0 < N.
Proof. pose proof (geom_bounds _ _ G) as GB. lia. Qed.

Lemma put0_present k v v1 :
  (0 < length k)%nat -> assoc k (entries bs) = Some v1 ->
  robin_table_put0 rt k v = Some (rt, v1).
Proof.
  intros Hk E. pose proof arr_N_pos as HNp.
  destruct (stored_some bs k v1 E) as (j & Hj & Hkj & Hv).
  unfold robin_table_put0. rewrite HBC, (geom_land rt N) by auto.
  pose proof (wf_psl_range H bs j k W ltac:(lia) Hkj) as Hps.
  rewrite <- (Z.add_0_r (H k)) at 2. rewrite <- Hv.
  apply (put0_loop_found rt N G HL W k v j Hk Hkj); lia.
Qed.

Lemma put0_absent k v :
  (0 < length k)%nat -> assoc k (entries bs) = None ->
  exists bs', robin_table_put0 rt k v = Some (rt_update rt bs' (u64 (count rt + 1)), v) /\
    len bs' = N /\ arr_wf bs' H /\ Permutation (entries bs') ((k, v) :: entries bs).
Proof.
  intros Hk E. pose proof arr_N_pos as HNp. pose proof (geom_bounds _ _ G) as GB.
  pose proof (rt_hash_range rt k) as Hr.
  pose proof (stored_none H bs k W ltac:(lia) E) as Hno.
  destruct (empty_exists bs Hroom) as [j Hj].
  destruct (first_empty bs (H k mod N) j ltac:(lia) Hj) as (g & Hg & Hocc & Hemp).
  rewrite HL in Hg.
  unfold robin_table_put0. rewrite HBC, (geom_land rt N) by auto.
  assert (X : exists bs', put0_loop (Z.to_nat N) (rt_update rt bs (count rt)) (H k) k v
                (H k mod N) (mkBucket (Some k) v 0 (Z.of_nat (length k)) (H k))
              = Some (rt_update rt bs' (u64 (count rt + 1)), v) /\
            len bs' = N /\ arr_wf bs' H /\
            Permutation (entries bs') ((k, val (mkBucket (Some k) v 0 (Z.of_nat (length k)) (H k)))
                                       :: entries bs)).
  2:{ rewrite rt_update_id in X. exact X. }
  assert (Hi : 0 <= H k mod N < N) by (apply Z.mod_pos_bound; lia).
  assert (Hp : 0 = (H k mod N - H k) mod N)
    by (rewrite Zminus_mod_idemp_l, Z.sub_diag; symmetry; apply Z.mod_0_l; lia).
  assert (Hni : ~ In k (keys bs)).
  { intros Hin. apply in_map_iff in Hin as ([k' v'] & Ek & Hin). simpl in Ek. subst k'.
    destruct (in_entries_slot bs k v' Hin) as (i & _ & Hki & _). exact (Hno i Hki). }
  assert (Hnm : forall t, 0 <= t < Z.of_nat g ->
            bucket_matches (slot bs (H k mod N + t)) (H k) k = false).
  { intros t Ht. destruct (bucket_matches (slot bs (H k mod N + t)) (H k) k) eqn:M; auto.
    apply (wf_matches H bs _ k W Hk) in M. exfalso. exact (Hno _ M). }
  apply (put0_loop_insert rt N G (H k) k v g); cbn [psl key hash klen]; auto; try lia.
Qed.

Lemma get_bucket_present k j :
  (0 < length k)%nat -> key (slot bs j) = Some k ->
  robin_table_get_bucket rt k = Some (Some (j mod N)).
Proof.
  intros Hk Hkj. pose proof arr_N_pos as HNp.
  pose proof (wf_psl_range H bs j k W ltac:(lia) Hkj) as Hps.
  unfold robin_table_get_bucket. rewrite HBC, (geom_land rt N) by auto.
  rewrite <- (Z.add_0_r (H k)) at 2.
  apply (get_loop_found rt N G HL W k j Hk Hkj); lia.
Qed.

Lemma get_bucket_absent k :
  (0 < length k)%nat -> assoc k (entries bs) = None ->
  robin_table_get_bucket rt k = Some None.
Proof.
  intros Hk E. pose proof arr_N_pos as HNp.
  pose proof (stored_none H bs k W ltac:(lia) E) as Hno.
  destruct (empty_exists bs Hroom) as [j Hj].
  destruct (first_empty bs (H k) j ltac:(lia) Hj) as (g & Hg & _ & Hemp).
  rewrite HL in Hg.
  unfold robin_table_get_bucket. rewrite HBC, (geom_land rt N) by auto.
  rewrite <- (Z.add_0_r (H k)) at 2.
  apply (get_loop_absent rt N G HL W k Hk Hno _ 0 g); try lia.
  rewrite Z.add_0_r. exact Hemp.
Qed.

Lemma get_stored k :
  (0 < length k)%nat ->
  robin_table_get rt k = Some (match stored rt k with Some v => v | None => NULL end).
Proof.
  intros Hk. pose proof arr_N_pos as HNp. unfold robin_table_get, stored.
  destruct (length k =? 0)%nat eqn:E0; [apply Nat.eqb_eq in E0; lia|].
  destruct (assoc k (entries bs)) as [v|] eqn:E.
  - destruct (stored_some bs k v E) as (j & Hj & Hkj & Hv).
    rewrite (get_bucket_present k j Hk Hkj). rewrite <- HL, bucket_at_mod by lia.
    now rewrite Hv.
  - now rewrite (get_bucket_absent k Hk E).
Qed.
End ArrOps.

(** * Resizing *)

Lemma wf_zero H n : arr_wf (repeat zero_bucket n) H.
Proof.
  assert (Z0 : forall i, slot (repeat zero_bucket n) i = zero_bucket)
    by (intros i; unfold slot, bucket_at; apply nth_repeat).
  constructor; intros; rewrite ?Z0 in *; simpl in *; try discriminate; auto.
  unfold keys. rewrite entries_repeat_zero. constructor.
Qed.

Lemma len_repeat n : 0 <= n -> len (repeat zero_bucket (Z.to_nat n)) = n.
Proof. intros. unfold len. rewrite repeat_length. lia. Qed.

Lemma pow2_land e : 0 <= e < 64 -> Z.land (2 ^ e) (u64 (2 ^ e - 1)) = 0.
Proof.
  intros He. assert (0 < 2 ^ e) by (apply Z.pow_pos_nonneg; lia).
  assert (2 ^ e <= 2 ^ 64) by (apply Z.pow_le_mono_r; lia).
  rewrite u64_small by lia. rewrite land_mask by lia. apply Z.mod_same. lia.
Qed.

Section ResizeLoop.
Variable t0 : robin_table.
Variable N : Z.
Hypothesis G : geom t0 N.
Hypothesis HBC : bucket_count t0 = N.
Local Abbreviation H := (rt_hash t0).

(** Reinserting the entries of [rest], none stored yet, into an array with
    room for them. *)
Lemma resize_loop_spec : forall rest bs,
  len bs = N -> arr_wf bs H ->
  (length (entries bs) + length (entries rest) < Z.to_nat N)%nat ->
  NoDup (map fst (entries bs ++ entries rest)) ->
  (forall k v, In (k, v) (entries rest) -> (0 < length k)%nat) ->
  exists bs', resize_loop (rt_update t0 bs (Z.of_nat (length (entries bs)))) rest
      = Some (rt_update t0 bs' (Z.of_nat (length (entries bs')))) /\
    len bs' = N /\ arr_wf bs' H /\ Permutation (entries bs') (entries bs ++ entries rest).
Proof.
  pose proof (geom_bounds _ _ G) as GB.
  induction rest as [|b rest IH]; intros bs HL W Hroom ND Hpos.
  - exists bs. simpl. rewrite app_nil_r. auto.
  - simpl resize_loop. simpl entries in *.
    destruct (key b) as [k|] eqn:Hkb.
    + unfold entry_of in *. rewrite Hkb in *. simpl in Hroom.
      assert (Hk : (0 < length k)%nat) by (apply (Hpos k (val b)); now left).
      assert (Hst : assoc k (entries bs) = None).
      assert (ND' : NoDup (map fst ((k, val b) :: entries bs ++ entries rest))).
      { eapply Permutation_NoDup; [|exact ND]. apply Permutation_map.
        symmetry. apply Permutation_middle. }
      { apply assoc_none. intros v' Hin. simpl in ND'. apply NoDup_cons_iff in ND' as [Hn _].
        apply Hn. apply in_map_iff. exists (k, v'). split; auto. apply in_or_app. now left. }
      assert (Hr : (length (entries bs) < length bs)%nat) by (unfold len in HL; lia).
      destruct (put0_absent (rt_update t0 bs (Z.of_nat (length (entries bs)))) N
                  ltac:(apply geom_update; auto) HBC HL W Hr k (val b) Hk Hst)
        as (bs1 & E1 & HL1 & W1 & P1).
      set (t := rt_update t0 bs (Z.of_nat (length (entries bs)))) in *.
      rewrite E1.
      replace (u64 (count t + 1)) with (Z.of_nat (length (entries bs1))).
      2:{ rewrite (Permutation_length P1). simpl. unfold t. cbn [count rt_update].
          rewrite u64_small; lia. }
      change (rt_update t bs1 (Z.of_nat (length (entries bs1))))
        with (rt_update t0 bs1 (Z.of_nat (length (entries bs1)))).
      destruct (IH bs1 HL1 W1) as (bs' & E' & HL' & W' & P').
      * rewrite (Permutation_length P1). simpl. lia.
      * eapply Permutation_NoDup; [|exact ND].
        rewrite !map_app. apply Permutation_map with (f := fst) in P1.
        simpl in P1. rewrite P1. simpl. symmetry. apply Permutation_middle.
      * intros k' v' Hin. apply (Hpos k' v'). now right.
      * exists bs'. split; [exact E'|]. split; [auto|]. split; [auto|].
        rewrite P', P1. simpl. apply Permutation_middle.
    + unfold entry_of in *. rewrite Hkb in *. simpl in *. apply IH; auto.
Qed.
End ResizeLoop.

Lemma wf_keys_pos H bs k v : arr_wf bs H -> In (k, v) (entries bs) -> (0 < length k)%nat.
Proof.
  intros W Hin. destruct (in_entries_slot bs k v Hin) as (i & _ & Hk & _).
  now destruct (wf_entry _ _ W i k Hk) as (_ & _ & ? & _).
Qed.

Lemma pow2_bounds e : 0 <= e <= 63 -> 1 <= 2 ^ e <= 2 ^ 63.
Proof.
  intros He. split.
  - change 1 with (2 ^ 0). apply Z.pow_le_mono_r; lia.
  - apply Z.pow_le_mono_r; lia.
Qed.

(** [robin_table_resize] to a power of two with room for the entries,
    when the allocation succeeds. *)
Lemma resize_spec rt bc e :
  arr_wf (buckets rt) (rt_hash rt) ->
  count rt = Z.of_nat (length (entries (buckets rt))) ->
  1 <= e <= 63 -> bc = 2 ^ e -> count rt < bc ->
  exists bs', robin_table_resize rt bc true =
      Some (mkTable bs' (count rt) bc (init_buckets rt) (bc - 1) (expand_threshold bc)
              (shrink_threshold bc) (seed rt) (hash_func rt), true) /\
    len bs' = bc /\ arr_wf bs' (rt_hash rt) /\ Permutation (entries bs') (entries (buckets rt)).
Proof.
  intros W Hc He Hbc Hlt. pose proof (pow2_bounds e ltac:(lia)) as Pb.
  unfold robin_table_resize. subst bc. rewrite pow2_land by lia.
  replace (count rt <? 2 ^ e) with true by (symmetry; apply Z.ltb_lt; lia).
  cbn [negb Z.eqb]. set (bc := 2 ^ e) in *.
  set (t0 := mkTable (repeat zero_bucket (Z.to_nat bc)) 0 bc (init_buckets rt) (u64 (bc - 1))
               (expand_threshold bc) (shrink_threshold bc) (seed rt) (hash_func rt)).
  assert (G : geom t0 bc).
  { split; [unfold t0; simpl; apply u64_small; lia|]. exists e. split; auto. }
  assert (Hbc0 : 0 <= bc) by lia.
  destruct (resize_loop_spec t0 bc G eq_refl (buckets rt) (repeat zero_bucket (Z.to_nat bc)))
    as (bs' & E' & HL' & W' & P').
  - apply len_repeat. lia.
  - apply wf_zero.
  - rewrite entries_repeat_zero. simpl. lia.
  - rewrite entries_repeat_zero. simpl. apply (wf_nodup _ _ W).
  - intros k v Hin. eapply wf_keys_pos; eauto.
  - rewrite entries_repeat_zero in E', P'. simpl in P'.
    change (rt_update t0 (repeat zero_bucket (Z.to_nat bc)) (Z.of_nat (length []))) with t0 in E'.
    rewrite E'. exists bs'. split; [|auto].
    rewrite (Permutation_length P'), <- Hc. unfold t0, rt_update. simpl.
    rewrite u64_small by lia. reflexivity.
Qed.

Lemma resize_fail rt bc e :
  1 <= e <= 63 -> bc = 2 ^ e -> count rt < bc -> robin_table_resize rt bc false = Some (rt, false).
Proof.
  intros He Hbc Hlt. unfold robin_table_resize. subst bc. rewrite pow2_land by lia.
  replace (count rt <? 2 ^ e) with true by (symmetry; apply Z.ltb_lt; lia).
  reflexivity.
Qed.

Lemma resize_zero rt ok : 0 <= count rt -> robin_table_resize rt 0 ok = None.
Proof.
  intros Hc. unfold robin_table_resize. simpl.
  replace (count rt <? 0) with false by (symmetry; apply Z.ltb_ge; lia). reflexivity.
Qed.

(** * Deletion *)

Lemma slot_ext bs1 bs2 :
  len bs1 = len bs2 -> (forall i, slot bs1 i = slot bs2 i) -> bs1 = bs2.
Proof.
  intros HL E. unfold len in HL. apply nth_ext with (d := zero_bucket) (d' := zero_bucket); [lia|].
  intros n Hn. specialize (E (Z.of_nat n)).
  rewrite !slot_in_range in E by (unfold len; lia).
  unfold bucket_at in E. now rewrite Nat2Z.id in E.
Qed.

Lemma wf_of_but bs H x : arr_wf_but bs H x ->
  (is_empty (slot bs x) = false -> 0 < psl (slot bs x) ->
   is_empty (slot bs (x - 1)) = false /\ psl (slot bs x) - 1 <= psl (slot bs (x - 1))) ->
  arr_wf bs H.
Proof.
  intros [E1 E2 E3 E4] R. constructor; auto.
  intros i. destruct (Z.eq_dec (i mod len bs) (x mod len bs)) as [E|E].
  - rewrite (slot_eq bs i x E). rewrite (slot_eq bs (i - 1) (x - 1)); auto.
    now rewrite Zminus_mod, E, <- Zminus_mod.
  - auto.
Qed.

Lemma mod_pred N a x : a mod N = x mod N -> (a - 1) mod N = (x - 1) mod N.
Proof. intros E. now rewrite Zminus_mod, E, <- Zminus_mod. Qed.

Lemma mod_succ N a x : a mod N = x mod N -> (a + 1) mod N = (x + 1) mod N.
Proof. intros E. now rewrite Zplus_mod, E, <- Zplus_mod. Qed.

Lemma mod_off_ne N x d : 0 < d < N -> (x + d) mod N <> x mod N.
Proof. intros Hd. apply mod_shift_ne; [lia|]. apply mod_small_ne. lia. Qed.

Lemma psl_prev N x h p :
  0 < N -> p = (x + 1 - h) mod N -> p <> 0 -> p - 1 = (x - h) mod N.
Proof.
  intros HN E Hp. assert (0 <= p < N) by (rewrite E; apply Z.mod_pos_bound; lia).
  replace (x - h) with ((x + 1 - h) + (-1)) by lia.
  rewrite Zplus_mod, <- E. rewrite (Z.mod_opp_l_nz 1) by (rewrite ?Z.mod_small; lia).
  rewrite (Z.mod_small 1) by lia.
  replace (p + (N - 1)) with ((p - 1) + 1 * N) by lia.
  rewrite Z_mod_plus_full. rewrite Z.mod_small; lia.
Qed.

Lemma bucket_at_set_same bs idx x :
  0 <= idx < len bs -> bucket_at (bucket_set bs idx x) idx = x.
Proof.
  intros Hi. unfold bucket_at, bucket_set. apply nth_list_set_same. unfold len in Hi. lia.
Qed.

Lemma entries_bucket_set bs idx x :
  0 <= idx < len bs ->
  Permutation (entry_of (slot bs idx) ++ entries (bucket_set bs idx x)) (entry_of x ++ entries bs).
Proof. intros Hi. rewrite slot_in_range by auto. apply entries_set. unfold len in Hi. lia. Qed.

Section Delete.
Variable rt : robin_table.
Variable N : Z.
Hypothesis G : geom rt N.
Hypothesis HN3 : 3 <= N.
Local Abbreviation H := (rt_hash rt).

Lemma del_stop c b :
  len c = N -> 0 <= b < N ->
  arr_wf_but (bucket_set c b zero_bucket) H (b + 1) ->
  (is_empty (slot c (b + 1)) || (psl (slot c (b + 1)) =? 0)) = true ->
  arr_wf (bucket_set c b zero_bucket) H.
Proof.
  intros HL Hb Wb Ec. apply (wf_of_but _ _ (b + 1) Wb).
  rewrite slot_set, HL by lia.
  destruct (Z.eq_dec ((b + 1) mod N) b) as [E|E].
  - exfalso. apply (mod_off_ne N b 1); [lia|]. rewrite E. symmetry. apply Z.mod_small. lia.
  - intros Ho Hp. apply orb_true_iff in Ec as [Ec|Ec]; [congruence|].
    apply Z.eqb_eq in Ec. lia.
Qed.
(** One step of the backward shift moves the bucket after the hole back
    into it, with its displacement decreased; the hole moves one on. *)
Lemma del_step c b n' :
  len c = N -> 0 <= b < N ->
  arr_wf_but (bucket_set c b zero_bucket) H (b + 1) -> hole_ok c b ->
  is_empty (slot c (b + 1)) = false -> psl (slot c (b + 1)) <> 0 ->
  n' = mkBucket (key (slot c (b + 1))) (val (slot c (b + 1))) (u64 (psl (slot c (b + 1)) - 1))
         (klen (slot c (b + 1))) (hash (slot c (b + 1))) ->
  let nb := (b + 1) mod N in
  let c' := bucket_set (bucket_set c nb n') b n' in
  len c' = N /\
  arr_wf_but (bucket_set c' nb zero_bucket) H (nb + 1) /\ hole_ok c' nb /\
  Permutation (entries (bucket_set c' nb zero_bucket)) (entries (bucket_set c b zero_bucket)) /\
  (forall s, 2 <= s < N -> slot c' (b + s) = slot c (b + s)).
Proof.
  intros HL Hb Wb HC Ho Hp En' nb c'.
  assert (Enb : nb = (b + 1) mod N) by reflexivity. clearbody nb.
  pose proof (geom_bounds _ _ G) as GB.
  unfold hole_ok in HC.
  set (n := slot c (b + 1)) in *.
  set (L := bucket_set c b zero_bucket) in *.
  assert (Hnb : 0 <= nb < N) by (rewrite Enb; apply Z.mod_pos_bound; lia).
  assert (Ebm : b mod N = b) by (apply Z.mod_small; lia).
  assert (Enbm : nb mod N = nb) by (apply Z.mod_small; lia).
  assert (Nb : nb <> b) by (rewrite Enb; rewrite <- Ebm at 2; apply mod_off_ne; lia).
  assert (HL1 : len (bucket_set c nb n') = N) by (rewrite bucket_set_len; auto).
  assert (HLc' : len c' = N) by (unfold c'; rewrite !bucket_set_len; auto).
  assert (HLL : len L = N) by (unfold L; rewrite bucket_set_len; auto).
  assert (SL : forall j, slot L j = if Z.eq_dec (j mod N) b then zero_bucket else slot c j)
    by (intros j; unfold L; rewrite slot_set, HL by lia; reflexivity).
  assert (Sc' : forall j, slot c' j =
      if Z.eq_dec (j mod N) b then n' else if Z.eq_dec (j mod N) nb then n' else slot c j).
  { intros j. unfold c'. rewrite slot_set, HL1 by lia. destruct (Z.eq_dec (j mod N) b); auto.
    rewrite slot_set, HL by lia. reflexivity. }
  set (L' := bucket_set c' nb zero_bucket).
  assert (HLL' : len L' = N) by (unfold L'; rewrite bucket_set_len; auto).
  assert (SL' : forall j, slot L' j = if Z.eq_dec (j mod N) nb then zero_bucket else slot c' j)
    by (intros j; unfold L'; rewrite slot_set, HLc' by lia; reflexivity).
  assert (SLn : slot L (b + 1) = n)
    by (rewrite SL; destruct (Z.eq_dec ((b + 1) mod N) b); [congruence|reflexivity]).
  destruct (occupied_entry n Ho) as (kn & Hkn & En).
  destruct (wb_entry _ _ _ Wb (b + 1) kn) as (Hh & Hkl & Hlen & Hps); [rewrite SLn; auto|].
  rewrite SLn in Hh, Hkl, Hps. rewrite HLL in Hps.
  assert (Hpr : 0 <= psl n < N) by (rewrite Hps; apply Z.mod_pos_bound; lia).
  assert (Hpn' : psl n' = psl n - 1) by (rewrite En'; simpl; apply u64_small; lia).
  assert (Kn' : key n' = Some kn) by (rewrite En'; exact Hkn).
  assert (Fb2 : (b + 2) mod N <> b) by (rewrite <- Ebm at 2; apply mod_off_ne; lia).
  assert (Fb2' : (b + 2) mod N <> nb)
    by (rewrite Enb; replace (b + 2) with (b + 1 + 1) by lia; apply mod_off_ne; lia).
  assert (Fm1 : (b - 1) mod N <> nb)
    by (rewrite Enb; replace (b + 1) with (b - 1 + 2) by lia; intros E; symmetry in E;
        revert E; apply mod_off_ne; lia).
  assert (Fm1' : (b - 1) mod N <> b)
    by (rewrite <- Ebm at 2; replace b with (b - 1 + 1) at 2 by lia; intros E; symmetry in E;
        revert E; apply mod_off_ne; lia).
  (* the array after the step, read from the array before it *)
  assert (EL' : L' = bucket_set (bucket_set L b n') nb zero_bucket).
  { apply slot_ext.
    - rewrite HLL', !bucket_set_len. auto.
    - intros j. rewrite SL'. rewrite slot_set by (rewrite bucket_set_len, HLL; lia).
      rewrite bucket_set_len, HLL.
      destruct (Z.eq_dec (j mod N) nb); auto.
      rewrite slot_set, HLL by lia. rewrite Sc', SL.
      destruct (Z.eq_dec (j mod N) b); auto. destruct (Z.eq_dec (j mod N) nb); congruence. }
  assert (P : Permutation (entries L') (entries L)).
  { rewrite EL'.
    assert (SLb : slot L b = zero_bucket)
      by (rewrite SL, Ebm; destruct (Z.eq_dec b b); congruence).
    assert (S1nb : slot (bucket_set L b n') nb = n).
    { rewrite slot_set, HLL, Enbm by lia. destruct (Z.eq_dec nb b); [congruence|].
      rewrite <- SLn. apply slot_eq. rewrite HLL, Enb. apply Z.mod_mod. lia. }
    assert (Vn' : val n' = val n) by (now rewrite En').
    pose proof (entries_bucket_set L b n' ltac:(lia)) as P1.
    pose proof (entries_bucket_set (bucket_set L b n') nb zero_bucket
                  ltac:(rewrite bucket_set_len; lia)) as P2.
    rewrite SLb in P1. rewrite S1nb in P2.
    unfold entry_of in P1, P2.
    rewrite Kn' in P1. rewrite Hkn in P2. simpl in P1, P2. rewrite Vn' in P1.
    apply Permutation_cons_inv with (a := (kn, val n)).
    eapply perm_trans; [exact P2|exact P1]. }
  split; [auto|]. split; [|split; [|split]].
  - constructor.
    + intros j. rewrite SL', Sc'.
      destruct (Z.eq_dec (j mod N) nb); auto.
      destruct (Z.eq_dec (j mod N) b); [rewrite Kn'; discriminate|].
      intros Hk. pose proof (wb_empty _ _ _ Wb j) as X. rewrite SL in X.
      destruct (Z.eq_dec (j mod N) b); [congruence|auto].
    + intros j k. rewrite HLL', SL', Sc'.
      destruct (Z.eq_dec (j mod N) nb); [discriminate|].
      destruct (Z.eq_dec (j mod N) b) as [e|e].
      * rewrite Kn'. intros Ek. injection Ek as <-.
        assert (Hh' : hash n' = hash n) by now rewrite En'.
        assert (Hk' : klen n' = klen n) by now rewrite En'.
        rewrite Hh', Hk'. repeat split; auto.
        rewrite Hpn', <- Zminus_mod_idemp_l, e. apply psl_prev; auto; lia.
      * intros Hk. pose proof (wb_entry _ _ _ Wb j k) as X. rewrite HLL, SL in X.
        destruct (Z.eq_dec (j mod N) b); [congruence|auto].
    + intros j Hj. rewrite HLL' in Hj. rewrite !SL', !Sc'.
      destruct (Z.eq_dec (j mod N) nb); [discriminate|].
      destruct (Z.eq_dec (j mod N) b) as [e|e].
      * assert (Ej1 : (j - 1) mod N = (b - 1) mod N) by (apply mod_pred; rewrite e; auto).
        rewrite Ej1. destruct (Z.eq_dec ((b - 1) mod N) nb); [congruence|].
        destruct (Z.eq_dec ((b - 1) mod N) b); [congruence|].
        rewrite (slot_eq c (j - 1) (b - 1)) by (rewrite HL; auto).
        rewrite Hpn'. intros _ Hp'. destruct (HC Ho ltac:(lia)) as [R1 R2]. split; [auto|lia].
      * assert (Nj1 : (j - 1) mod N <> nb).
        { intros E. apply Hj. replace j with (j - 1 + 1) at 1 by lia.
          apply mod_succ. rewrite E. auto. }
        assert (Nj2 : (j - 1) mod N <> b).
        { intros E. apply n0. rewrite Enb. replace j with (j - 1 + 1) at 1 by lia.
          apply mod_succ. rewrite E. auto. }
        destruct (Z.eq_dec ((j - 1) mod N) b); [congruence|].
        destruct (Z.eq_dec ((j - 1) mod N) nb); [congruence|].
        pose proof (wb_rh _ _ _ Wb j) as X. rewrite HLL, !SL in X.
        destruct (Z.eq_dec (j mod N) b); [congruence|].
        destruct (Z.eq_dec ((j - 1) mod N) b); [congruence|]. apply X.
        rewrite <- Enb. exact n0.
    + unfold keys. eapply Permutation_NoDup; [apply Permutation_map; symmetry; exact P|].
      apply (wb_nodup _ _ _ Wb).
  - unfold hole_ok. rewrite !Sc'.
    assert (E1 : (nb + 1) mod N = (b + 2) mod N).
    { rewrite Enb. rewrite Z.add_mod_idemp_l by lia. f_equal. lia. }
    assert (E2 : (nb - 1) mod N = b).
    { rewrite Enb. rewrite Zminus_mod_idemp_l. rewrite <- Ebm at 2. f_equal. lia. }
    rewrite E1, E2. destruct (Z.eq_dec b b) as [_|]; [|congruence].
    destruct (Z.eq_dec ((b + 2) mod N) b); [congruence|].
    destruct (Z.eq_dec ((b + 2) mod N) nb); [congruence|].
    rewrite (slot_eq c (nb + 1) (b + 2)) by (rewrite HL; auto).
    intros Ho2 Hp2. split; [unfold is_empty; now rewrite Kn'|].
    pose proof (wb_rh _ _ _ Wb (b + 2)) as X. rewrite HLL, !SL in X.
    replace (b + 2 - 1) with (b + 1) in X by lia.
    destruct (Z.eq_dec ((b + 2) mod N) b); [congruence|].
    destruct (Z.eq_dec ((b + 1) mod N) b); [congruence|].
    assert (Nb12 : (b + 2) mod N <> (b + 1) mod N) by (rewrite <- Enb; exact Fb2').
    destruct (X Nb12 Ho2 ltac:(lia)) as [_ X2].
    change (slot c (b + 1)) with n in X2. rewrite Hpn'. lia.
  - auto.
  - intros s0 Hs. rewrite Sc'.
    destruct (Z.eq_dec ((b + s0) mod N) b) as [E|E].
    + exfalso. revert E. rewrite <- Ebm at 2. apply mod_off_ne. lia.
    + destruct (Z.eq_dec ((b + s0) mod N) nb) as [E'|E']; auto.
      exfalso. revert E'. rewrite Enb. replace (b + s0) with (b + 1 + (s0 - 1)) by lia.
      apply mod_off_ne. lia.
Qed.
(** The backward shift from the hole [b], with an empty bucket [m + 1]
    positions after it, ends with a well-formed array holding the
    entries of the array with the hole emptied. *)
Lemma del_shift_spec : forall m fuel c cnt b,
  len c = N -> 0 <= b < N ->
  arr_wf_but (bucket_set c b zero_bucket) H (b + 1) -> hole_ok c b ->
  Z.of_nat m + 2 <= N -> is_empty (slot c (b + 1 + Z.of_nat m)) = true -> (m < fuel)%nat ->
  exists bs', del_shift_loop fuel (rt_update rt c cnt) b = Some (rt_update rt bs' (u64 (cnt - 1))) /\
    len bs' = N /\ arr_wf bs' H /\ Permutation (entries bs') (entries (bucket_set c b zero_bucket)).
Proof.
  pose proof (geom_bounds _ _ G) as GB.
  induction m as [|m IH]; intros fuel c cnt b HL Hb Wb HC Hm He Hf;
    (destruct fuel as [|fuel]; [lia|]); cbn [del_shift_loop];
    change (buckets (rt_update rt c cnt)) with c; rewrite mask_update, (geom_land rt N) by auto;
    (assert (Ebn : bucket_at c ((b + 1) mod N) = slot c (b + 1))
       by (rewrite <- HL; apply bucket_at_mod; lia)); rewrite Ebn;
    destruct (is_empty (slot c (b + 1)) || (psl (slot c (b + 1)) =? 0)) eqn:Ec;
    try (exists (bucket_set c b zero_bucket); split; [reflexivity|];
         split; [rewrite bucket_set_len; auto|]; split; [|reflexivity];
         apply (del_stop c b); auto).
  - rewrite Z.add_0_r in He. rewrite He in Ec. discriminate.
  - apply orb_false_iff in Ec as [Ho Hp]. apply Z.eqb_neq in Hp.
    set (n' := mkBucket (key (slot c (b + 1))) (val (slot c (b + 1)))
                 (u64 (psl (slot c (b + 1)) - 1)) (klen (slot c (b + 1))) (hash (slot c (b + 1)))).
    assert (Hnb : 0 <= (b + 1) mod N < N) by (apply Z.mod_pos_bound; lia).
    rewrite bucket_at_set_same by (rewrite HL; lia).
    destruct (del_step c b n' HL Hb Wb HC Ho Hp eq_refl) as (HL' & Wb' & HC' & P & Fr).
    set (c' := bucket_set (bucket_set c ((b + 1) mod N) n') b n') in *.
    destruct (IH fuel c' cnt ((b + 1) mod N) HL' Hnb Wb' HC') as (bs' & E' & HL'' & W' & P').
    + lia.
    + rewrite (slot_eq c' _ (b + (2 + Z.of_nat m))).
      * rewrite Fr by lia.
        replace (b + (2 + Z.of_nat m)) with (b + 1 + Z.of_nat (S m)) by lia. exact He.
      * rewrite HL', <- Z.add_assoc, Z.add_mod_idemp_l by lia. f_equal. lia.
    + lia.
    + exists bs'. split; [exact E'|]. split; [auto|]. split; [auto|].
      rewrite P'. exact P.
Qed.
End Delete.

(** Deleting the bucket of a stored key: the array after the backward shift
    holds the other entries. *)
Lemma del_found rt N k j :
  geom rt N -> 3 <= N -> len (buckets rt) = N -> arr_wf (buckets rt) (rt_hash rt) ->
  (length (entries (buckets rt)) < length (buckets rt))%nat ->
  key (slot (buckets rt) j) = Some k ->
  exists bs', del_shift_loop (Z.to_nat N) rt (j mod N) = Some (rt_update rt bs' (u64 (count rt - 1))) /\
    len bs' = N /\ arr_wf bs' (rt_hash rt) /\
    Permutation ((k, val (slot (buckets rt) j)) :: entries bs') (entries (buckets rt)).
Proof.
  intros G HN3 HL W Hroom Hk.
  pose proof (geom_bounds _ _ G) as GB.
  set (c := buckets rt) in *. set (b := j mod N).
  assert (Hb : 0 <= b < N) by (apply Z.mod_pos_bound; lia).
  assert (Ebm : b mod N = b) by (apply Z.mod_small; lia).
  assert (Scb : slot c b = slot c j) by (apply slot_eq; rewrite HL; apply Z.mod_mod; lia).
  set (L := bucket_set c b zero_bucket).
  assert (HLL : len L = N) by (unfold L; rewrite bucket_set_len; auto).
  assert (SL : forall i, slot L i = if Z.eq_dec (i mod N) b then zero_bucket else slot c i)
    by (intros i; unfold L; rewrite slot_set, HL by lia; reflexivity).
  assert (P : Permutation ((k, val (slot c j)) :: entries L) (entries c)).
  { pose proof (entries_bucket_set c b zero_bucket ltac:(lia)) as P.
    fold L in P. rewrite Scb in P. unfold entry_of at 1 in P. rewrite Hk in P. exact P. }
  assert (Wb : arr_wf_but L (rt_hash rt) (b + 1)).
  { constructor.
    - intros i. rewrite SL. destruct (Z.eq_dec (i mod N) b); auto. apply (wf_empty _ _ W).
    - intros i k'. rewrite SL, HLL. destruct (Z.eq_dec (i mod N) b); [discriminate|].
      rewrite <- HL. apply (wf_entry _ _ W).
    - intros i Hi. rewrite HLL in Hi. rewrite !SL.
      destruct (Z.eq_dec (i mod N) b); [discriminate|].
      destruct (Z.eq_dec ((i - 1) mod N) b) as [E|E].
      + exfalso. apply Hi. replace i with (i - 1 + 1) at 1 by lia. apply mod_succ.
        now rewrite E, Ebm.
      + apply (wf_rh _ _ W).
    - unfold keys. pose proof (wf_nodup _ _ W) as ND. unfold keys in ND.
      eapply Permutation_NoDup in ND; [|apply Permutation_map; symmetry; exact P].
      simpl in ND. now apply NoDup_cons_iff in ND as [_ ND]. }
  assert (HC : hole_ok c b).
  { intros Ho Hp.
    destruct (wf_rh _ _ W (b + 1) Ho ltac:(lia)) as [R1 R2].
    replace (b + 1 - 1) with b in R1, R2 by lia.
    destruct (wf_rh _ _ W b R1 ltac:(lia)) as [R3 R4]. split; [auto|lia]. }
  destruct (empty_exists c Hroom) as [jj Hjj].
  destruct (first_empty c (b + 1) jj ltac:(lia) Hjj) as (g & Hg & _ & Hemp).
  rewrite HL in Hg.
  assert (Hg2 : Z.of_nat g + 2 <= N).
  { destruct (Z.eq_dec (Z.of_nat g) (N - 1)) as [E|E]; [|lia].
    rewrite E in Hemp. rewrite (slot_eq c _ b) in Hemp.
    - rewrite Scb in Hemp. unfold is_empty in Hemp. rewrite Hk in Hemp. discriminate.
    - rewrite HL, Ebm. replace (b + 1 + (N - 1)) with (b + 1 * N) by lia.
      rewrite Z_mod_plus_full. auto. }
  assert (X : exists bs', del_shift_loop (Z.to_nat N) (rt_update rt c (count rt)) b
                = Some (rt_update rt bs' (u64 (count rt - 1))) /\
              len bs' = N /\ arr_wf bs' (rt_hash rt) /\ Permutation (entries bs') (entries L)).
  { apply (del_shift_spec rt N G HN3 g); auto. lia. }
  unfold c in X. rewrite rt_update_id in X.
  destruct X as (bs' & E' & HL' & W' & P').
  exists bs'. split; [exact E'|]. split; [auto|]. split; [auto|].
  rewrite P'. exact P.
Qed.

(** * The table invariant *)

Lemma expand_lt e : 5 <= e <= 63 -> 0 <= expand_threshold (2 ^ e) < 2 ^ e.
Proof.
  intros He.
  assert (L : forallb (fun i => (0 <=? expand_threshold (2 ^ Z.of_nat i))
                                && (expand_threshold (2 ^ Z.of_nat i) <? 2 ^ Z.of_nat i))
                (seq 5 59) = true) by (vm_compute; reflexivity).
  rewrite forallb_forall in L. specialize (L (Z.to_nat e)).
  rewrite Z2Nat.id in L by lia. rewrite andb_true_iff, Z.leb_le, Z.ltb_lt in L.
  apply L, in_seq. lia.
Qed.

Lemma shrink_lt e : 5 <= e <= 63 -> 0 <= shrink_threshold (2 ^ e) /\ 2 * shrink_threshold (2 ^ e) < 2 ^ e.
Proof.
  intros He.
  assert (L : forallb (fun i => (0 <=? shrink_threshold (2 ^ Z.of_nat i))
                                && (2 * shrink_threshold (2 ^ Z.of_nat i) <? 2 ^ Z.of_nat i))
                (seq 5 59) = true) by (vm_compute; reflexivity).
  rewrite forallb_forall in L. specialize (L (Z.to_nat e)).
  rewrite Z2Nat.id in L by lia. rewrite andb_true_iff, Z.leb_le, Z.ltb_lt in L.
  apply L, in_seq. lia.
Qed.

Section Inv.
Variable rt : robin_table.
Hypothesis T : table_inv rt.

Lemma ti_geom : geom rt (bucket_count rt).
Proof.
  split; [apply (ti_mask _ T)|]. destruct (ti_pow2 _ T) as (e & He & E).
  exists e. split; [lia|auto].
Qed.

Lemma ti_bounds : 32 <= bucket_count rt <= 2 ^ 63.
Proof.
  destruct (ti_pow2 _ T) as (e & He & ->). split.
  - change 32 with (2 ^ 5). apply Z.pow_le_mono_r; lia.
  - apply Z.pow_le_mono_r; lia.
Qed.

Lemma ti_room_nat : (length (entries (buckets rt)) < length (buckets rt))%nat.
Proof.
  pose proof (ti_room _ T). pose proof (ti_count _ T). pose proof (ti_len _ T).
  unfold len in *. lia.
Qed.

Lemma ti_count_nonneg : 0 <= count rt.
Proof. rewrite (ti_count _ T). lia. Qed.

Lemma ti_nodup : NoDup (map fst (entries (buckets rt))).
Proof. apply (wf_nodup _ _ (ti_wf _ T)). Qed.

(** The array of a well-formed table replaced by another one holding
    [c] entries, with room left. *)
Lemma ti_update bs c :
  len bs = bucket_count rt -> arr_wf bs (rt_hash rt) ->
  c = Z.of_nat (length (entries bs)) -> c < bucket_count rt ->
  table_inv (rt_update rt bs c).
Proof.
  intros HL W Hc Hr. destruct T. constructor; simpl; auto.
Qed.
End Inv.

(** A freshly built table of [bc] buckets, as [robin_table_create],
    [robin_table_resize] and [robin_table_clear] make it. *)
Lemma ti_fresh bs c bc ib sd hf :
  (exists e, 5 <= e <= 63 /\ bc = 2 ^ e) ->
  (exists e, 5 <= e /\ ib = 2 ^ e /\ ib <= bc) ->
  len bs = bc ->
  arr_wf bs (fun k => u64 (hf k sd)) ->
  c = Z.of_nat (length (entries bs)) -> c < bc ->
  table_inv (mkTable bs c bc ib (u64 (bc - 1)) (expand_threshold bc) (shrink_threshold bc) sd hf).
Proof.
  intros (e & He & Hbc) Hib HL W Hc Hr.
  assert (1 <= bc <= 2 ^ 63) by (subst; apply pow2_bounds; lia).
  constructor; simpl; eauto.
  apply u64_small. lia.
Qed.

(** * The public operations on a well-formed table *)

Lemma assoc_cons_perm k' k v l l' :
  NoDup (map fst l') -> Permutation l' ((k, v) :: l) ->
  assoc k' l' = if list_eq_dec Byte.byte_eq_dec k' k then Some v else assoc k' l.
Proof. intros ND P. rewrite (assoc_perm k' _ _ ND P). reflexivity. Qed.

Lemma assoc_perm_eq k' l l' :
  NoDup (map fst l') -> Permutation l' l -> assoc k' l' = assoc k' l.
Proof. intros ND P. apply (assoc_perm k' _ _ ND P). Qed.

Lemma put0_ti rt k v :
  table_inv rt -> (0 < length k)%nat ->
  (stored rt k = None -> count rt + 1 < bucket_count rt) ->
  exists rt', robin_table_put0 rt k v = Some (rt', put_answer rt k v) /\
    table_inv rt' /\ bucket_count rt' = bucket_count rt /\ count rt' = put_count rt k /\
    init_buckets rt' = init_buckets rt /\ seed rt' = seed rt /\ hash_func rt' = hash_func rt /\
    forall k', stored rt' k' =
      if list_eq_dec Byte.byte_eq_dec k' k then Some (put_answer rt k v) else stored rt k'.
Proof.
  intros T Hk Hroom. unfold put_answer, put_count.
  pose proof (ti_geom rt T) as G. pose proof (ti_bounds rt T) as GB.
  pose proof (ti_len _ T) as HL. pose proof (ti_wf _ T) as W.
  pose proof (ti_room_nat rt T) as HR.
  destruct (stored rt k) as [v1|] eqn:E.
  - exists rt. split; [apply (put0_present rt _ G eq_refl HL W HR k v v1 Hk E)|].
    do 6 (split; auto). intros k'.
    destruct (list_eq_dec Byte.byte_eq_dec k' k); [subst; auto|auto].
  - specialize (Hroom eq_refl).
    destruct (put0_absent rt _ G eq_refl HL W HR k v Hk E) as (bs' & P & HL' & W' & Pm).
    pose proof (ti_count _ T) as HC.
    assert (Hc : Z.of_nat (length (entries bs')) = count rt + 1).
    { rewrite (Permutation_length Pm). simpl length. lia. }
    rewrite u64_small in P by lia.
    exists (rt_update rt bs' (count rt + 1)). split; [exact P|].
    split; [apply ti_update; auto; lia|].
    do 5 (split; [reflexivity|]). intros k'.
    apply assoc_cons_perm; auto. apply (wf_nodup _ _ W').
Qed.

(** [robin_table_resize] of a well-formed table to a power of two that
    holds its entries. *)
Lemma resize_ti rt bc e :
  table_inv rt -> 5 <= e <= 63 -> bc = 2 ^ e -> init_buckets rt <= bc -> count rt < bc ->
  exists rt1, robin_table_resize rt bc true = Some (rt1, true) /\
    table_inv rt1 /\ bucket_count rt1 = bc /\ count rt1 = count rt /\
    init_buckets rt1 = init_buckets rt /\ seed rt1 = seed rt /\ hash_func rt1 = hash_func rt /\
    forall k, stored rt1 k = stored rt k.
Proof.
  intros T He Hbc Hib Hc.
  destruct (resize_spec rt bc e (ti_wf _ T) (ti_count _ T) ltac:(lia) Hbc Hc)
    as (bs' & R & HL' & W' & P).
  eexists. split; [exact R|].
  assert (B : 1 <= bc <= 2 ^ 63) by (subst; apply pow2_bounds; lia).
  split.
  - replace (bc - 1) with (u64 (bc - 1)) by (apply u64_small; lia).
    destruct (ti_init _ T) as (ei & Hei & Ei & _).
    apply ti_fresh; eauto.
    + rewrite (Permutation_length P). apply (ti_count _ T).
  - simpl. do 5 (split; [reflexivity|]). intros k. unfold stored. simpl.
    apply assoc_perm_eq; auto. apply (wf_nodup _ _ W').
Qed.

Lemma pow2_succ e : 0 <= e -> 2 ^ (e + 1) = 2 * 2 ^ e.
Proof. intros. rewrite Z.pow_add_r by lia. lia. Qed.

Lemma grow_size rt :
  table_inv rt -> bucket_count rt < 2 ^ 63 ->
  exists e, 5 <= e <= 62 /\ bucket_count rt = 2 ^ e /\
    u64 (Z.shiftl (bucket_count rt) 1) = 2 ^ (e + 1).
Proof.
  intros T Hlt. destruct (ti_pow2 _ T) as (e & He & E).
  assert (e <> 63) by (intros ->; lia).
  exists e. split; [lia|]. split; [auto|].
  rewrite Z.shiftl_mul_pow2 by lia. rewrite E.
  assert (2 ^ (e + 1) <= 2 ^ 63) by (apply Z.pow_le_mono_r; lia).
  rewrite <- Z.pow_add_r by lia. apply u64_small.
  pose proof (pow2_bounds (e + 1) ltac:(lia)). lia.
Qed.

Lemma grow_top rt :
  table_inv rt -> bucket_count rt = 2 ^ 63 -> u64 (Z.shiftl (bucket_count rt) 1) = 0.
Proof. intros T ->. reflexivity. Qed.

(** [robin_table_put] on a well-formed table: the growth fails at the
    largest size, the growth's allocation fails, or the pair is stored. *)
Lemma put_spec rt k v ok :
  table_inv rt -> (0 < length k)%nat ->
  (expand_at rt <= count rt /\ bucket_count rt = 2 ^ 63 /\ robin_table_put rt k v ok = None) \/
  (expand_at rt <= count rt /\ bucket_count rt < 2 ^ 63 /\ ok = false /\
     robin_table_put rt k v ok = Some (rt, NULL)) \/
  ((expand_at rt <= count rt -> bucket_count rt < 2 ^ 63 /\ ok = true) /\
   exists rt', robin_table_put rt k v ok = Some (rt', put_answer rt k v) /\
     table_inv rt' /\
     bucket_count rt' = (if expand_at rt <=? count rt then 2 * bucket_count rt else bucket_count rt) /\
     count rt' = put_count rt k /\
     init_buckets rt' = init_buckets rt /\ seed rt' = seed rt /\ hash_func rt' = hash_func rt /\
     forall k', stored rt' k' =
       if list_eq_dec Byte.byte_eq_dec k' k then Some (put_answer rt k v) else stored rt k').
Proof.
  intros T Hk. pose proof (ti_bounds rt T) as GB. pose proof (ti_room _ T) as HR.
  pose proof (ti_count_nonneg rt T) as Hc0.
  unfold robin_table_put.
  destruct (length k =? 0)%nat eqn:E0; [apply Nat.eqb_eq in E0; lia|].
  destruct (expand_at rt <=? count rt) eqn:X.
  - apply Z.leb_le in X.
    destruct (Z.eq_dec (bucket_count rt) (2 ^ 63)) as [Etop|Nt].
    + left. rewrite (grow_top rt T Etop), resize_zero by lia. auto.
    + assert (Hlt : bucket_count rt < 2 ^ 63) by lia.
      destruct (grow_size rt T Hlt) as (e & He & EN & E2). rewrite E2.
      assert (Hd : 2 ^ (e + 1) = 2 * bucket_count rt) by (rewrite EN; apply pow2_succ; lia).
      destruct ok.
      * right; right. split; [auto|].
        destruct (ti_init _ T) as (ei & _ & _ & Hib).
        destruct (resize_ti rt (2 ^ (e + 1)) (e + 1) T ltac:(lia) eq_refl ltac:(lia) ltac:(lia))
          as (rt1 & R & T1 & B1 & C1 & I1 & S1 & F1 & St1).
        rewrite R.
        destruct (put0_ti rt1 k v T1 Hk ltac:(lia))
          as (rt' & P & T' & B' & C' & I' & S' & F' & St').
        assert (A : put_answer rt1 k v = put_answer rt k v) by (unfold put_answer; now rewrite St1).
        exists rt'. rewrite A in P, St'. split; [exact P|]. split; [exact T'|].
        split; [lia|]. split.
        { rewrite C'. unfold put_count. now rewrite St1, C1. }
        split; [congruence|]. split; [congruence|]. split; [congruence|].
        intros k'. rewrite St'. now rewrite St1.
      * right; left. rewrite (resize_fail rt (2 ^ (e + 1)) (e + 1)) by lia. auto.
  - apply Z.leb_gt in X. right; right. split; [lia|].
    destruct (ti_pow2 _ T) as (e & He & EN).
    pose proof (expand_lt e He) as Ex. rewrite <- EN, <- (ti_expand _ T) in Ex.
    destruct (put0_ti rt k v T Hk ltac:(lia))
      as (rt' & P & T' & B' & C' & I' & S' & F' & St').
    exists rt'. auto 10.
Qed.

Lemma pow2_lt_le a b : 0 <= a -> 0 <= b -> 2 ^ a < 2 ^ b -> a <= b - 1.
Proof.
  intros Ha Hb Hlt. destruct (Z_lt_le_dec a b); [lia|].
  assert (2 ^ b <= 2 ^ a) by (apply Z.pow_le_mono_r; lia). lia.
Qed.

(** [robin_table_del] on a well-formed table. *)
Lemma del_spec rt k ok :
  table_inv rt -> (0 < length k)%nat ->
  (stored rt k = None /\ robin_table_del rt k ok = Some (rt, NULL)) \/
  (exists v1 rt', stored rt k = Some v1 /\ robin_table_del rt k ok = Some (rt', v1) /\
     table_inv rt' /\ count rt' = count rt - 1 /\ bucket_count rt' = del_bucket_count rt ok /\
     init_buckets rt' = init_buckets rt /\ seed rt' = seed rt /\ hash_func rt' = hash_func rt /\
     forall k', stored rt' k' =
       if list_eq_dec Byte.byte_eq_dec k' k then None else stored rt k').
Proof.
  intros T Hk. pose proof (ti_geom rt T) as G. pose proof (ti_bounds rt T) as GB.
  pose proof (ti_len _ T) as HL. pose proof (ti_wf _ T) as W.
  pose proof (ti_room_nat rt T) as HR. pose proof (ti_count _ T) as HC.
  unfold robin_table_del.
  destruct (length k =? 0)%nat eqn:E0; [apply Nat.eqb_eq in E0; lia|].
  destruct (stored rt k) as [v1|] eqn:E.
  2:{ left. split; auto. now rewrite (get_bucket_absent rt _ G eq_refl HL W HR k Hk E). }
  right. exists v1. unfold stored in E.
  destruct (stored_some _ k v1 E) as (j & Hj & Hkj & Hv).
  rewrite (get_bucket_present rt _ G eq_refl HL W HR k j Hk Hkj).
  assert (Hval : val (bucket_at (buckets rt) (j mod bucket_count rt)) = v1)
    by (rewrite <- HL; exact Hv).
  rewrite Hval.
  destruct (del_found rt (bucket_count rt) k j G ltac:(lia) HL W HR Hkj)
    as (bs' & D & HL' & W' & P).
  rewrite D. rewrite Hv in P.
  pose proof (Permutation_length P) as PL. simpl in PL.
  pose proof (ti_room _ T) as Hroom.
  rewrite u64_small by lia.
  assert (T1 : table_inv (rt_update rt bs' (count rt - 1)))
    by (apply ti_update; auto; lia).
  assert (St : forall k', stored (rt_update rt bs' (count rt - 1)) k' =
             if list_eq_dec Byte.byte_eq_dec k' k then None else stored rt k').
  { intros k'. unfold stored; simpl.
    pose proof (assoc_cons_perm k' k v1 (entries bs') (entries (buckets rt))
                  (wf_nodup _ _ W) (Permutation_sym P)) as A.
    rewrite A. destruct (list_eq_dec Byte.byte_eq_dec k' k) as [->|]; auto.
    apply assoc_none. intros v' Hin.
    pose proof (Permutation_NoDup (Permutation_map fst (Permutation_sym P)) (wf_nodup _ _ W)) as ND.
    simpl in ND. apply NoDup_cons_iff in ND as [ND _]. apply ND.
    apply in_map_iff. exists (k, v'). auto. }
  unfold del_bucket_count. simpl.
  destruct ((init_buckets rt <? bucket_count rt) && (count rt - 1 <=? shrink_at rt)) eqn:Cd.
  - apply andb_true_iff in Cd as [Ci Cs]. apply Z.ltb_lt in Ci. apply Z.leb_le in Cs.
    destruct (ti_pow2 _ T) as (e & He & EN). destruct (ti_init _ T) as (ei & Hei & Ei & _).
    assert (Hle : ei <= e - 1) by (apply pow2_lt_le; lia).
    pose proof (shrink_lt e ltac:(lia)) as Sh. rewrite <- EN, <- (ti_shrink _ T) in Sh.
    assert (Hh : Z.shiftr (bucket_count rt) 1 = 2 ^ (e - 1)).
    { rewrite Z.shiftr_div_pow2 by lia. rewrite EN.
      replace e with (e - 1 + 1) at 1 by lia. rewrite pow2_succ by lia.
      rewrite Z.mul_comm. apply Z.div_mul. lia. }
    assert (Hh2 : bucket_count rt / 2 = 2 ^ (e - 1)) by (rewrite <- Hh, Z.shiftr_div_pow2; auto; lia).
    assert (Hei2 : 2 ^ ei <= 2 ^ (e - 1)) by (apply Z.pow_le_mono_r; lia).
    assert (Hd : bucket_count rt = 2 * 2 ^ (e - 1))
      by (rewrite EN; replace e with (e - 1 + 1) at 1 by lia; apply pow2_succ; lia).
    simpl. rewrite Hh. destruct ok.
    + destruct (resize_ti _ (2 ^ (e - 1)) (e - 1) T1 ltac:(lia) eq_refl ltac:(simpl; lia) ltac:(simpl; lia))
        as (rt2 & R & T2 & B2 & C2 & I2 & S2 & F2 & St2).
      rewrite R. exists rt2. do 3 (split; auto). split; [simpl in C2; lia|].
      split; [simpl; lia|]. simpl in I2, S2, F2. do 3 (split; auto).
      intros k'. rewrite St2. apply St.
    + rewrite (resize_fail _ (2 ^ (e - 1)) (e - 1)) by (simpl; lia).
      exists (rt_update rt bs' (count rt - 1)). split; [reflexivity|]. split; [reflexivity|].
      split; [exact T1|]. simpl. auto 10.
  - exists (rt_update rt bs' (count rt - 1)). split; [reflexivity|]. split; [reflexivity|].
    split; [exact T1|]. simpl. auto 10.
Qed.

(** [robin_table_get] on a well-formed table. *)
Lemma get_ti rt k :
  table_inv rt -> (0 < length k)%nat ->
  robin_table_get rt k = Some (match stored rt k with Some v => v | None => NULL end).
Proof.
  intros T Hk.
  exact (get_stored rt _ (ti_geom rt T) eq_refl (ti_len _ T) (ti_wf _ T) (ti_room_nat rt T) k Hk).
Qed.

(** ** Capacity: [robin_table_next_pow2] smears the top bit down *)

Section Smear.
Variable p : Z.

Lemma smear_step x j k :
  1 <= k <= j -> smeared p x j -> smeared p (Z.lor x (Z.shiftr x k)) (j + k).
Proof.
  intros Hk [Ha Hb]. split.
  - intros i Hi0 Hi. rewrite Z.lor_spec, Z.shiftr_spec by lia.
    rewrite !Ha by lia. reflexivity.
  - intros i Hi0 Hi. rewrite Z.lor_spec, Z.shiftr_spec by lia.
    destruct (Z_lt_le_dec (p - j) i).
    + rewrite Hb by lia. reflexivity.
    + rewrite (Hb (i + k)) by lia. apply orb_true_r.
Qed.

Lemma smeared_full x j : 0 <= p -> p + 1 <= j -> smeared p x j -> x = Z.ones (p + 1).
Proof.
  intros Hp Hj [Ha Hb]. apply Z.bits_inj'. intros i Hi.
  rewrite Z.testbit_ones_nonneg by lia.
  destruct (Z_lt_le_dec p i).
  - rewrite Ha by lia. symmetry. apply Z.ltb_ge. lia.
  - rewrite Hb by lia. symmetry. apply Z.ltb_lt. lia.
Qed.
End Smear.

Lemma next_pow2_spec n :
  2 <= n <= 2 ^ 63 -> robin_table_next_pow2 n = 2 ^ (Z.log2 (n - 1) + 1).
Proof.
  intros Hn. unfold robin_table_next_pow2.
  rewrite (u64_small (n - 1)) by lia.
  set (p := Z.log2 (n - 1)).
  assert (Hp : 0 <= p) by apply Z.log2_nonneg.
  assert (Hp62 : p < 63).
  { apply Z.log2_lt_pow2; lia. }
  assert (S0 : smeared p (n - 1) 1).
  { split.
    - intros i _ Hi. apply Z.bits_above_log2; lia.
    - intros i _ Hi. replace i with p by lia. apply Z.bit_log2. lia. }
  pose proof (smear_step p _ 1 1 ltac:(lia) S0) as S1.
  pose proof (smear_step p _ 2 2 ltac:(lia) S1) as S2.
  pose proof (smear_step p _ 4 4 ltac:(lia) S2) as S3.
  pose proof (smear_step p _ 8 8 ltac:(lia) S3) as S4.
  pose proof (smear_step p _ 16 16 ltac:(lia) S4) as S5.
  pose proof (smear_step p _ 32 32 ltac:(lia) S5) as S6.
  cbv zeta. rewrite (smeared_full p _ 64 Hp ltac:(lia) S6).
  rewrite Z.ones_equiv. unfold Z.pred.
  assert (2 ^ (p + 1) <= 2 ^ 63) by (apply Z.pow_le_mono_r; lia).
  assert (0 < 2 ^ (p + 1)) by (apply Z.pow_pos_nonneg; lia).
  replace (2 ^ (p + 1) + -1 + 1) with (2 ^ (p + 1)) by lia.
  apply u64_small. lia.
Qed.

Lemma calc_bucket_count_pow2 cnt :
  exists e, 5 <= e <= 58 /\ robin_table_calc_bucket_count cnt = 2 ^ e.
Proof.
  unfold robin_table_calc_bucket_count.
  set (bc := u64 (cnt * 100) / RT_LOAD_FACTOR_PCT_MAX).
  assert (Hbc : 0 <= bc < 2 ^ 58).
  { subst bc. unfold u64, RT_LOAD_FACTOR_PCT_MAX.
    pose proof (Z.mod_pos_bound (cnt * 100) (2 ^ 64) ltac:(lia)).
    split; [apply Z.div_pos; lia|]. apply Z.div_lt_upper_bound; lia. }
  destruct (bc <? RT_BUCKET_COUNT_MIN) eqn:E.
  - exists 5. split; [lia|reflexivity].
  - apply Z.ltb_ge in E. unfold RT_BUCKET_COUNT_MIN in E.
    rewrite next_pow2_spec by lia.
    exists (Z.log2 (bc - 1) + 1). split; [|reflexivity].
    assert (Z.log2 31 <= Z.log2 (bc - 1)) by (apply Z.log2_le_mono; lia).
    assert (Z.log2 (bc - 1) < 58) by (apply Z.log2_lt_pow2; lia).
    change (Z.log2 31) with 4 in *. lia.
Qed.

Lemma fresh_array_wf bc (hf : hash_fn) sd :
  0 <= bc -> len (repeat zero_bucket (Z.to_nat bc)) = bc /\
  arr_wf (repeat zero_bucket (Z.to_nat bc)) (fun k => u64 (hf k sd)) /\
  entries (repeat zero_bucket (Z.to_nat bc)) = [].
Proof.
  intros. split; [apply len_repeat; lia|]. split; [apply wf_zero|apply entries_repeat_zero].
Qed.

(** [robin_table_create] when both allocations succeed. *)
Lemma create_ti rapidhash cnt hf sd rt :
  robin_table_create rapidhash cnt hf sd true true = Some rt ->
  table_inv rt /\ count rt = 0 /\ bucket_count rt = robin_table_calc_bucket_count cnt /\
  init_buckets rt = bucket_count rt /\ seed rt = sd /\
  hash_func rt = (match hf with Some f => f | None => rapidhash end) /\
  forall k, stored rt k = None.
Proof.
  unfold robin_table_create. simpl. intros E. injection E as <-.
  destruct (calc_bucket_count_pow2 cnt) as (e & He & Ebc).
  set (bc := robin_table_calc_bucket_count cnt) in *.
  assert (B : 1 <= bc <= 2 ^ 63) by (rewrite Ebc; apply pow2_bounds; lia).
  destruct (fresh_array_wf bc (match hf with Some f => f | None => rapidhash end) sd
              ltac:(lia)) as (HL & W & En).
  split.
  - apply ti_fresh; auto.
    + exists e. split; [lia|auto].
    + exists e. split; [lia|]. split; [auto|lia].
    + now rewrite En.
    + lia.
  - simpl. do 5 (split; [reflexivity|]). intros k. unfold stored. simpl. now rewrite En.
Qed.

(** [robin_table_clear] on a well-formed table. *)
Lemma clear_ti rt u ok :
  table_inv rt ->
  (u = true /\ ok = false /\ robin_table_clear rt u ok = (rt, false)) \/
  (exists rt', robin_table_clear rt u ok = (rt', true) /\ (u = false \/ ok = true) /\
     table_inv rt' /\ count rt' = 0 /\
     bucket_count rt' = (if u then init_buckets rt else bucket_count rt) /\
     init_buckets rt' = init_buckets rt /\ seed rt' = seed rt /\ hash_func rt' = hash_func rt /\
     forall k, stored rt' k = None).
Proof.
  intros T. pose proof (ti_bounds rt T) as GB.
  destruct (ti_init _ T) as (ei & Hei & Ei & Hib).
  unfold robin_table_clear. destruct u; [destruct ok|].
  - right. eexists. split; [reflexivity|]. split; [auto|].
    assert (ei <= 63).
    { destruct (Z_le_gt_dec ei 63); auto.
      assert (2 ^ 64 <= 2 ^ ei) by (apply Z.pow_le_mono_r; lia). lia. }
    assert (B : 1 <= init_buckets rt) by (rewrite Ei; apply pow2_bounds; lia).
    destruct (fresh_array_wf (init_buckets rt) (hash_func rt) (seed rt) ltac:(lia))
      as (HL & W & En).
    split.
    + apply ti_fresh; auto.
      * exists ei. split; [lia|auto].
      * exists ei. split; [lia|]. split; [auto|lia].
      * now rewrite En.
      * lia.
    + simpl. do 5 (split; [reflexivity|]). intros k. unfold stored. simpl. now rewrite En.
  - left. auto.
  - right. eexists. split; [reflexivity|]. split; [auto|].
    destruct (fresh_array_wf (bucket_count rt) (hash_func rt) (seed rt) ltac:(lia))
      as (HL & W & En).
    split.
    + destruct T. constructor; simpl; auto; try (rewrite En; reflexivity); lia.
    + simpl. do 5 (split; [reflexivity|]). intros k. unfold stored. simpl. now rewrite En.
Qed.

(** Every reachable table satisfies the invariant. *)
Lemma reachable_ti rt : reachable rt -> table_inv rt.
Proof.
  induction 1 as [rh cnt hf sd rt C|rt op rt' r R IH S].
  - apply (create_ti _ _ _ _ _ C).
  - destruct op as [k v ok|k|k ok|u ok]; simpl in S.
    + destruct (robin_table_put rt k v ok) as [[rt1 r1]|] eqn:P; [|discriminate].
      injection S as <- _.
      destruct (Nat.eq_dec (length k) 0) as [E0|Hk].
      { unfold robin_table_put in P. rewrite E0 in P. discriminate. }
      destruct (put_spec rt k v ok IH ltac:(lia))
        as [(_ & _ & P')|[(_ & _ & _ & P')|(_ & rt2 & P' & T2 & _)]];
        rewrite P in P'; try discriminate.
      * injection P' as -> _. exact IH.
      * injection P' as -> _. exact T2.
    + destruct (robin_table_get rt k); [|discriminate]. injection S as <- _. exact IH.
    + destruct (robin_table_del rt k ok) as [[rt1 r1]|] eqn:P; [|discriminate].
      injection S as <- _.
      destruct (Nat.eq_dec (length k) 0) as [E0|Hk].
      { unfold robin_table_del in P. rewrite E0 in P. discriminate. }
      destruct (del_spec rt k ok IH ltac:(lia))
        as [(_ & P')|(v1 & rt2 & _ & P' & T2 & _)]; rewrite P in P'.
      * injection P' as -> _. exact IH.
      * injection P' as -> _. exact T2.
    + destruct (clear_ti rt u ok IH) as [(_ & _ & C)|(rt2 & C & _ & T2 & _)];
        rewrite C in S; injection S as <- _; auto.
Qed.

(** ** The backward shift in closed form *)

Lemma rt_update_update rt bs c bs' c' :
  rt_update (rt_update rt bs c) bs' c' = rt_update rt bs' c'.
Proof. reflexivity. Qed.

(** One move of the shift writes the moved bucket at [b] and [b + 1] and
    leaves the other positions alone. *)
Lemma shift_slots N c b x :
  2 <= N -> len c = N -> 0 <= b < N ->
  len (bucket_set (bucket_set c ((b + 1) mod N) x) b x) = N /\
  slot (bucket_set (bucket_set c ((b + 1) mod N) x) b x) b = x /\
  (forall s, 2 <= s < N ->
     slot (bucket_set (bucket_set c ((b + 1) mod N) x) b x) (b + s) = slot c (b + s)).
Proof.
  intros HN HL Hb.
  assert (Hnb : 0 <= (b + 1) mod N < N) by (apply Z.mod_pos_bound; lia).
  assert (HL1 : len (bucket_set c ((b + 1) mod N) x) = N) by (rewrite bucket_set_len; auto).
  split; [rewrite !bucket_set_len; auto|]. split.
  - apply slot_set_here. lia.
  - intros s Hs. rewrite slot_set, HL1 by lia.
    destruct (Z.eq_dec ((b + s) mod N) b) as [E|_].
    { exfalso. apply (mod_off_ne N b s); [lia|]. rewrite E. symmetry. apply Z.mod_small. lia. }
    rewrite slot_set, HL by lia.
    destruct (Z.eq_dec ((b + s) mod N) ((b + 1) mod N)) as [E|_]; [|reflexivity].
    exfalso. apply (mod_off_ne N (b + 1) (s - 1)); [lia|].
    replace (b + 1 + (s - 1)) with (b + s) by lia. exact E.
Qed.

Section ShiftClosed.
Variable rt : robin_table.
Variable N : Z.
Hypothesis G : geom rt N.

(** With [m] displaced buckets after the freed index [b], followed by an
    empty or undisplaced one, the shift moves each of them back one
    position with its [psl] decremented and zeroes the last vacated
    position, the one [m] after [b]. *)
Lemma del_shift_closed : forall m fuel c cnt b,
  len c = N -> 0 <= b < N -> Z.of_nat m + 1 < N -> (m < fuel)%nat ->
  (forall t, 1 <= t <= Z.of_nat m ->
     is_empty (slot c (b + t)) = false /\ psl (slot c (b + t)) <> 0) ->
  is_empty (slot c (b + Z.of_nat m + 1)) = true \/ psl (slot c (b + Z.of_nat m + 1)) = 0 ->
  exists bs', del_shift_loop fuel (rt_update rt c cnt) b = Some (rt_update rt bs' (u64 (cnt - 1))) /\
    len bs' = N /\
    forall t, 0 <= t < N ->
      slot bs' (b + t) =
        if t <? Z.of_nat m then psl_dec (slot c (b + t + 1))
        else if t =? Z.of_nat m then zero_bucket else slot c (b + t).
Proof.
  pose proof (geom_bounds _ _ G) as GB.
  induction m as [|m IH]; intros fuel c cnt b HL Hb Hm Hf Hocc Hstop;
    (destruct fuel as [|fuel]; [lia|]); cbn [del_shift_loop];
    change (buckets (rt_update rt c cnt)) with c; rewrite mask_update, (geom_land rt N) by auto;
    (assert (Ebn : bucket_at c ((b + 1) mod N) = slot c (b + 1))
       by (rewrite <- HL; apply bucket_at_mod; lia)); rewrite Ebn.
  - replace (b + Z.of_nat 0 + 1) with (b + 1) in Hstop by lia.
    replace (is_empty (slot c (b + 1)) || (psl (slot c (b + 1)) =? 0)) with true
      by (destruct Hstop as [-> | ->]; [reflexivity|symmetry; apply orb_true_r]).
    exists (bucket_set c b zero_bucket). split; [reflexivity|].
    split; [rewrite bucket_set_len; auto|].
    intros t Ht. simpl Z.of_nat.
    destruct (Z.eq_dec t 0) as [->|Ht0].
    + rewrite Z.add_0_r. simpl. apply slot_set_here. lia.
    + replace (t <? 0) with false by (symmetry; apply Z.ltb_ge; lia).
      replace (t =? 0) with false by (symmetry; apply Z.eqb_neq; lia).
      apply slot_set_far; [lia|]. rewrite HL, Z.mod_small; lia.
  - destruct (Hocc 1 ltac:(lia)) as [Ho Hp].
    replace (b + 1) with (b + 1) in Ho by lia.
    rewrite Ho. replace (psl (slot c (b + 1)) =? 0) with false by (symmetry; apply Z.eqb_neq; auto).
    cbn [orb]. change (count (rt_update rt c cnt)) with cnt. rewrite rt_update_update.
    assert (Hnb : 0 <= (b + 1) mod N < N) by (apply Z.mod_pos_bound; lia).
    change (mkBucket (key (slot c (b + 1))) (val (slot c (b + 1))) (u64 (psl (slot c (b + 1)) - 1))
              (klen (slot c (b + 1))) (hash (slot c (b + 1)))) with (psl_dec (slot c (b + 1))).
    rewrite bucket_at_set_same by (rewrite HL; lia).
    set (x := psl_dec (slot c (b + 1))).
    destruct (shift_slots N c b x ltac:(lia) HL Hb) as (HL' & Sb & Fr).
    set (c' := bucket_set (bucket_set c ((b + 1) mod N) x) b x) in *.
    (* positions read from the next index *)
    assert (Sh : forall t, slot c' ((b + 1) mod N + t) = slot c' (b + (1 + t))).
    { intros t. apply slot_eq. rewrite HL', Z.add_mod_idemp_l by lia. f_equal. lia. }
    destruct (IH fuel c' cnt ((b + 1) mod N) HL' Hnb ltac:(lia) ltac:(lia)) as (bs' & E' & HLb & Sl).
    + intros t Ht. rewrite Sh, Fr by lia.
      apply (Hocc (1 + t)). lia.
    + rewrite <- Z.add_assoc, Sh, Fr by lia.
      replace (b + (1 + (Z.of_nat m + 1))) with (b + Z.of_nat (S m) + 1) by lia. exact Hstop.
    + exists bs'. split; [exact E'|]. split; [exact HLb|].
      intros t Ht.
      destruct (Z.eq_dec t 0) as [->|Ht0].
      * replace (0 <? Z.of_nat (S m)) with true by (symmetry; apply Z.ltb_lt; lia).
        rewrite (slot_eq bs' (b + 0) ((b + 1) mod N + (N - 1))).
        2:{ rewrite HLb, Z.add_mod_idemp_l by lia. replace (b + 1 + (N - 1)) with (b + 0 + 1 * N) by lia.
            symmetry. apply Z_mod_plus_full. }
        rewrite Sl by lia.
        replace (N - 1 <? Z.of_nat m) with false by (symmetry; apply Z.ltb_ge; lia).
        replace (N - 1 =? Z.of_nat m) with false by (symmetry; apply Z.eqb_neq; lia).
        rewrite Sh. rewrite (slot_eq c' _ b).
        2:{ rewrite HL'. replace (b + (1 + (N - 1))) with (b + 1 * N) by lia. apply Z_mod_plus_full. }
        rewrite Sb. unfold x. now rewrite Z.add_0_r.
      * rewrite (slot_eq bs' (b + t) ((b + 1) mod N + (t - 1))).
        2:{ rewrite HLb, Z.add_mod_idemp_l by lia. f_equal. lia. }
        rewrite Sl by lia.
        destruct (t - 1 <? Z.of_nat m) eqn:E1.
        { apply Z.ltb_lt in E1. replace (t <? Z.of_nat (S m)) with true by (symmetry; apply Z.ltb_lt; lia).
          rewrite <- Z.add_assoc, Sh, Fr by lia. do 2 f_equal. lia. }
        apply Z.ltb_ge in E1.
        replace (t <? Z.of_nat (S m)) with false by (symmetry; apply Z.ltb_ge; lia).
        destruct (t - 1 =? Z.of_nat m) eqn:E2.
        { apply Z.eqb_eq in E2. replace (t =? Z.of_nat (S m)) with true by (symmetry; apply Z.eqb_eq; lia).
          reflexivity. }
        apply Z.eqb_neq in E2.
        replace (t =? Z.of_nat (S m)) with false by (symmetry; apply Z.eqb_neq; lia).
        rewrite Sh, Fr by lia. f_equal. lia.
Qed.
End ShiftClosed.

(** * Runs of public operations *)

Lemma put_some rt k v ok rt' r :
  table_inv rt -> robin_table_put rt k v ok = Some (rt', r) ->
  (0 < length k)%nat /\
  ((expand_at rt <= count rt /\ ok = false /\ rt' = rt /\ r = NULL) \/
   (r = put_answer rt k v /\ table_inv rt' /\ count rt' = put_count rt k /\
    bucket_count rt' = (if expand_at rt <=? count rt then 2 * bucket_count rt else bucket_count rt) /\
    (expand_at rt <= count rt -> ok = true) /\
    init_buckets rt' = init_buckets rt /\
    forall k', stored rt' k' =
      if list_eq_dec Byte.byte_eq_dec k' k then Some (put_answer rt k v) else stored rt k')).
Proof.
  intros T P.
  destruct (Nat.eq_dec (length k) 0) as [E0|Hk].
  { unfold robin_table_put in P. rewrite E0 in P. discriminate. }
  split; [lia|].
  destruct (put_spec rt k v ok T ltac:(lia))
    as [(_ & _ & P')|[(X & _ & Ok & P')|(Hg & rt2 & P' & T2 & B2 & C2 & I2 & _ & _ & St2)]];
    rewrite P in P'; try discriminate.
  - injection P' as -> ->. left. auto.
  - injection P' as -> ->. right. split; [reflexivity|]. split; [exact T2|].
    split; [exact C2|]. split; [exact B2|]. split; [|auto].
    intros X. apply (Hg X).
Qed.

Lemma del_some rt k ok rt' r :
  table_inv rt -> robin_table_del rt k ok = Some (rt', r) ->
  (0 < length k)%nat /\
  ((stored rt k = None /\ rt' = rt /\ r = NULL) \/
   (stored rt k = Some r /\ table_inv rt' /\ count rt' = count rt - 1 /\
    bucket_count rt' = del_bucket_count rt ok /\ init_buckets rt' = init_buckets rt /\
    forall k', stored rt' k' =
      if list_eq_dec Byte.byte_eq_dec k' k then None else stored rt k')).
Proof.
  intros T P.
  destruct (Nat.eq_dec (length k) 0) as [E0|Hk].
  { unfold robin_table_del in P. rewrite E0 in P. discriminate. }
  split; [lia|].
  destruct (del_spec rt k ok T ltac:(lia))
    as [(E & P')|(v1 & rt2 & E & P' & T2 & C2 & B2 & I2 & _ & _ & St2)]; rewrite P in P'.
  - injection P' as -> ->. left. auto.
  - injection P' as -> ->. right. auto 10.
Qed.

Lemma step_ti rt op rt' r :
  table_inv rt -> rt_step rt op = Some (rt', r) ->
  table_inv rt' /\ init_buckets rt' = init_buckets rt.
Proof.
  intros T S. destruct op as [k v ok|k|k ok|u ok]; simpl in S.
  - destruct (robin_table_put rt k v ok) as [[rt1 r1]|] eqn:P; [|discriminate].
    injection S as <- _.
    destruct (put_some rt k v ok rt1 r1 T P) as [_ [(_ & _ & -> & _)|(_ & T1 & _ & _ & _ & I1 & _)]];
      auto.
  - destruct (robin_table_get rt k); [|discriminate]. injection S as <- _. auto.
  - destruct (robin_table_del rt k ok) as [[rt1 r1]|] eqn:P; [|discriminate].
    injection S as <- _.
    destruct (del_some rt k ok rt1 r1 T P) as [_ [(_ & -> & _)|(_ & T1 & _ & _ & I1 & _)]]; auto.
  - destruct (clear_ti rt u ok T) as [(_ & _ & C)|(rt2 & C & _ & T2 & _ & _ & I2 & _)];
      rewrite C in S; injection S as <- _; auto.
Qed.

Lemma run_ti rt ops rt' :
  table_inv rt -> rt_run rt ops = Some rt' ->
  table_inv rt' /\ init_buckets rt' = init_buckets rt.
Proof.
  revert rt. induction ops as [|op ops IH]; simpl; intros rt T R.
  - injection R as <-. auto.
  - destruct (rt_step rt op) as [[rt1 r1]|] eqn:S; [|discriminate].
    destruct (step_ti rt op rt1 r1 T S) as [T1 I1].
    destruct (IH rt1 T1 R) as [T' I']. split; congruence.
Qed.

Lemma run_reachable rt ops rt' :
  reachable rt -> rt_run rt ops = Some rt' -> reachable rt'.
Proof.
  revert rt. induction ops as [|op ops IH]; simpl; intros rt R E.
  - injection E as <-. exact R.
  - destruct (rt_step rt op) as [[rt1 r1]|] eqn:S; [|discriminate].
    apply (IH rt1); auto. eapply reach_step; eauto.
Qed.

(** Operations that neither name [k] nor clear the table keep what is
    stored for [k]. *)
Lemma step_other rt op rt' r k :
  table_inv rt -> op_other k op -> rt_step rt op = Some (rt', r) -> stored rt' k = stored rt k.
Proof.
  intros T O S. destruct op as [k' v ok|k'|k' ok|u ok]; simpl in O, S.
  - destruct (robin_table_put rt k' v ok) as [[rt1 r1]|] eqn:P; [|discriminate].
    injection S as <- _.
    destruct (put_some rt k' v ok rt1 r1 T P) as [_ [(_ & _ & -> & _)|(_ & _ & _ & _ & _ & _ & St)]];
      auto.
    rewrite St. destruct (list_eq_dec Byte.byte_eq_dec k k'); congruence.
  - destruct (robin_table_get rt k'); [|discriminate]. injection S as <- _. auto.
  - destruct (robin_table_del rt k' ok) as [[rt1 r1]|] eqn:P; [|discriminate].
    injection S as <- _.
    destruct (del_some rt k' ok rt1 r1 T P) as [_ [(_ & -> & _)|(_ & _ & _ & _ & _ & St)]]; auto.
    rewrite St. destruct (list_eq_dec Byte.byte_eq_dec k k'); congruence.
  - contradiction.
Qed.

Lemma run_other rt ops rt' k :
  table_inv rt -> Forall (op_other k) ops -> rt_run rt ops = Some rt' ->
  table_inv rt' /\ stored rt' k = stored rt k.
Proof.
  revert rt. induction ops as [|op ops IH]; simpl; intros rt T F R.
  - injection R as <-. auto.
  - inversion F as [|? ? O F']; subst.
    destruct (rt_step rt op) as [[rt1 r1]|] eqn:S; [|discriminate].
    destruct (step_ti rt op rt1 r1 T S) as [T1 _].
    destruct (IH rt1 T1 F' R) as [T' St']. split; auto.
    rewrite St'. apply (step_other rt op rt1 r1 k T O S).
Qed.

Lemma ex_table0_created : robin_table_create sum_hash 0 None 0 true true = Some ex_table0.
Proof. vm_compute. reflexivity. Qed.

Lemma ex_table0_reachable : reachable ex_table0.
Proof. exact (reach_create _ _ _ _ _ ex_table0_created). Qed.

(** * The claims *)

(** ** C1 *)

(** C1 (round trip): in a reachable table, if [robin_table_put] of a key
    [k] not stored returns the value [v] it was given, then after any run
    of operations that neither put nor delete [k] nor clear the table,
    [robin_table_get] of [k] returns [v].  (When the growth of the put
    fails, [v] is the [NULL] the put returned and [k] stays absent, which
    [robin_table_get] also reports as [NULL].) *)
Theorem put_get_roundtrip rt k v ok rt1 ops rt2 :
  reachable rt -> stored rt k = None ->
  robin_table_put rt k v ok = Some (rt1, v) ->
  Forall (op_other k) ops -> rt_run rt1 ops = Some rt2 ->
  robin_table_get rt2 k = Some v.
Proof.
  intros R E P F Run. pose proof (reachable_ti rt R) as T.
  destruct (put_some rt k v ok rt1 v T P) as [Hk [(_ & _ & -> & Hv)|(_ & T1 & _ & _ & _ & _ & St1)]].
  - destruct (run_other rt ops rt2 k T F Run) as [T2 St2].
    rewrite (get_ti rt2 k T2 Hk), St2, E. now rewrite Hv.
  - destruct (run_other rt1 ops rt2 k T1 F Run) as [T2 St2].
    rewrite (get_ti rt2 k T2 Hk), St2, St1.
    destruct (list_eq_dec Byte.byte_eq_dec k k) as [_|C]; [|congruence].
    unfold put_answer. now rewrite E.
Qed.

Lemma put_get_roundtrip_witness :
  reachable ex_table0 /\ stored ex_table0 [x01] = None /\
  robin_table_put ex_table0 [x01] 7 true = Some (ex_after ex_table0 [OpPut [x01] 7 true], 7) /\
  Forall (op_other [x01]) [OpPut [x02] 8 true; OpGet [x01]; OpDel [x02] true] /\
  rt_run (ex_after ex_table0 [OpPut [x01] 7 true]) [OpPut [x02] 8 true; OpGet [x01]; OpDel [x02] true]
    = Some (ex_after ex_table0 [OpPut [x01] 7 true; OpPut [x02] 8 true; OpGet [x01]; OpDel [x02] true]) /\
  robin_table_get (ex_after ex_table0 [OpPut [x01] 7 true; OpPut [x02] 8 true; OpGet [x01]; OpDel [x02] true])
    [x01] = Some 7.
Proof.
  assert (A1 : reachable ex_table0)
    by (apply (reach_create sum_hash 0 None 0); vm_compute; reflexivity).
  assert (A2 : stored ex_table0 [x01] = None) by (vm_compute; reflexivity).
  assert (A3 : robin_table_put ex_table0 [x01] 7 true = Some (ex_after ex_table0 [OpPut [x01] 7 true], 7))
    by (vm_compute; reflexivity).
  assert (A4 : Forall (op_other [x01]) [OpPut [x02] 8 true; OpGet [x01]; OpDel [x02] true])
    by (repeat constructor; simpl; discriminate).
  assert (A5 : rt_run (ex_after ex_table0 [OpPut [x01] 7 true]) [OpPut [x02] 8 true; OpGet [x01]; OpDel [x02] true]
    = Some (ex_after ex_table0 [OpPut [x01] 7 true; OpPut [x02] 8 true; OpGet [x01]; OpDel [x02] true]))
    by (vm_compute; reflexivity).
  exact (conj A1 (conj A2 (conj A3 (conj A4 (conj A5
    (put_get_roundtrip _ _ _ _ _ _ _ A1 A2 A3 A4 A5)))))).
Defined.

(** ** C2 *)

(** C2 (no overwrite): in a reachable table where [k] is stored with [v1],
    [robin_table_put] of [k] with any [v2] leaves every stored value as it
    was, so that [robin_table_get] of [k] still returns [v1]; it returns
    [v1], also when it grows the table first, unless the growth is needed
    and its allocation fails, where it returns [NULL]. *)
Theorem put_no_overwrite rt k v1 v2 ok rt' r :
  reachable rt -> stored rt k = Some v1 ->
  robin_table_put rt k v2 ok = Some (rt', r) ->
  r = (if (expand_at rt <=? count rt) && negb ok then NULL else v1) /\
  (forall k', stored rt' k' = stored rt k') /\
  robin_table_get rt' k = Some v1.
Proof.
  intros R E P. pose proof (reachable_ti rt R) as T.
  destruct (put_some rt k v2 ok rt' r T P)
    as [Hk [(X & -> & -> & ->)|(-> & T' & _ & _ & Hg & _ & St)]].
  - replace (expand_at rt <=? count rt) with true by (symmetry; apply Z.leb_le; lia).
    split; [reflexivity|]. split; [auto|]. rewrite (get_ti rt k T Hk), E. reflexivity.
  - assert (A : put_answer rt k v2 = v1) by (unfold put_answer; now rewrite E).
    assert (St' : forall k', stored rt' k' = stored rt k').
    { intros k'. rewrite St, A. destruct (list_eq_dec Byte.byte_eq_dec k' k); congruence. }
    split.
    + rewrite A. destruct (expand_at rt <=? count rt) eqn:X; [|reflexivity].
      apply Z.leb_le in X. now rewrite (Hg X).
    + split; [exact St'|]. rewrite (get_ti rt' k T' Hk), St', E. reflexivity.
Qed.

(** The duplicate put below grows the table from 32 to 64 buckets first. *)
Lemma put_no_overwrite_witness :
  reachable (ex_after ex_table0 (ex_puts 24)) /\
  stored (ex_after ex_table0 (ex_puts 24)) (ex_key 1) = Some 101 /\
  robin_table_put (ex_after ex_table0 (ex_puts 24)) (ex_key 1) 5 true =
    Some (ex_after ex_table0 (ex_puts 24 ++ [OpPut (ex_key 1) 5 true]), 101) /\
  bucket_count (ex_after ex_table0 (ex_puts 24 ++ [OpPut (ex_key 1) 5 true])) = 64 /\
  101 = (if (expand_at (ex_after ex_table0 (ex_puts 24)) <=? count (ex_after ex_table0 (ex_puts 24)))
             && negb true then NULL else 101) /\
  (forall k', stored (ex_after ex_table0 (ex_puts 24 ++ [OpPut (ex_key 1) 5 true])) k' =
              stored (ex_after ex_table0 (ex_puts 24)) k') /\
  robin_table_get (ex_after ex_table0 (ex_puts 24 ++ [OpPut (ex_key 1) 5 true])) (ex_key 1) = Some 101.
Proof.
  assert (A1 : reachable (ex_after ex_table0 (ex_puts 24))).
  { apply (run_reachable ex_table0 (ex_puts 24));
      [apply (reach_create sum_hash 0 None 0); vm_compute; reflexivity|vm_compute; reflexivity]. }
  assert (A2 : stored (ex_after ex_table0 (ex_puts 24)) (ex_key 1) = Some 101)
    by (vm_compute; reflexivity).
  assert (A3 : robin_table_put (ex_after ex_table0 (ex_puts 24)) (ex_key 1) 5 true =
    Some (ex_after ex_table0 (ex_puts 24 ++ [OpPut (ex_key 1) 5 true]), 101))
    by (vm_compute; reflexivity).
  assert (A4 : bucket_count (ex_after ex_table0 (ex_puts 24 ++ [OpPut (ex_key 1) 5 true])) = 64)
    by (vm_compute; reflexivity).
  exact (conj A1 (conj A2 (conj A3 (conj A4 (put_no_overwrite _ _ _ _ _ _ _ A1 A2 A3))))).
Defined.

(** ** C3 *)

Lemma get_bucket_ti rt k :
  table_inv rt -> (0 < length k)%nat -> stored rt k = None ->
  robin_table_get_bucket rt k = Some None.
Proof.
  intros T Hk E.
  exact (get_bucket_absent rt _ (ti_geom rt T) eq_refl (ti_len _ T) (ti_wf _ T) (ti_room_nat rt T) k Hk E).
Qed.

(** C3 (deletion completeness): in a reachable table, when
    [robin_table_del] of [k] returns, then if [k] was stored with [v1] it
    returns [v1], the count drops by exactly one and the lookup of [k]
    reports it absent; if [k] was not stored it returns [NULL] and the
    table, its count included, is unchanged. *)
Theorem del_complete rt k ok rt' r :
  reachable rt -> robin_table_del rt k ok = Some (rt', r) ->
  match stored rt k with
  | Some v1 => r = v1 /\ count rt' = count rt - 1 /\
               robin_table_get_bucket rt' k = Some None /\ robin_table_get rt' k = Some NULL
  | None => r = NULL /\ rt' = rt
  end.
Proof.
  intros R P. pose proof (reachable_ti rt R) as T.
  destruct (del_some rt k ok rt' r T P)
    as [Hk [(E & -> & ->)|(E & T' & C' & _ & _ & St)]]; rewrite E; [auto|].
  assert (E' : stored rt' k = None)
    by (rewrite St; destruct (list_eq_dec Byte.byte_eq_dec k k); congruence).
  split; [reflexivity|]. split; [exact C'|]. split.
  - exact (get_bucket_ti rt' k T' Hk E').
  - rewrite (get_ti rt' k T' Hk), E'. reflexivity.
Qed.

Lemma del_complete_witness :
  reachable ex_collide /\
  robin_table_del ex_collide [x01] true = Some (ex_after ex_collide [OpDel [x01] true], 7) /\
  match stored ex_collide [x01] with
  | Some v1 => 7 = v1 /\ count (ex_after ex_collide [OpDel [x01] true]) = count ex_collide - 1 /\
      robin_table_get_bucket (ex_after ex_collide [OpDel [x01] true]) [x01] = Some None /\
      robin_table_get (ex_after ex_collide [OpDel [x01] true]) [x01] = Some NULL
  | None => 7 = NULL /\ ex_after ex_collide [OpDel [x01] true] = ex_collide
  end.
Proof.
  assert (A1 : reachable ex_collide).
  { apply (run_reachable ex_table0 [OpPut [x01] 7 true; OpPut [x00; x01] 8 true]);
      [apply (reach_create sum_hash 0 None 0); vm_compute; reflexivity|vm_compute; reflexivity]. }
  assert (A2 : robin_table_del ex_collide [x01] true = Some (ex_after ex_collide [OpDel [x01] true], 7))
    by (vm_compute; reflexivity).
  exact (conj A1 (conj A2 (del_complete _ _ _ _ _ A1 A2))).
Defined.

(** ** C4 *)

(** C4 (psl invariant): in every reachable table, an occupied bucket at
    index [i] records as [psl] its distance [(i - (hash & mask)) mod
    bucket_count] from the ideal index of its cached hash. *)
Theorem psl_invariant rt i :
  reachable rt -> 0 <= i < bucket_count rt ->
  is_empty (bucket_at (buckets rt) i) = false ->
  psl (bucket_at (buckets rt) i) =
    (i - Z.land (hash (bucket_at (buckets rt) i)) (mask rt)) mod bucket_count rt.
Proof.
  intros R Hi Ho. pose proof (reachable_ti rt R) as T.
  pose proof (ti_len _ T) as HL. pose proof (ti_wf _ T) as W.
  pose proof (ti_bounds rt T) as GB.
  rewrite <- (slot_in_range (buckets rt) i) in * by lia.
  destruct (occupied_entry _ Ho) as (kb & Hkb & _).
  destruct (wf_entry _ _ W i kb Hkb) as (Hh & _ & _ & Hp).
  rewrite Hp, Hh, HL, (geom_land rt (bucket_count rt) _ (ti_geom rt T)).
  symmetry. apply Zminus_mod_idemp_r.
Qed.

Lemma psl_invariant_witness :
  reachable ex_collide /\ 0 <= 2 < bucket_count ex_collide /\
  is_empty (bucket_at (buckets ex_collide) 2) = false /\
  psl (bucket_at (buckets ex_collide) 2) =
    (2 - Z.land (hash (bucket_at (buckets ex_collide) 2)) (mask ex_collide)) mod bucket_count ex_collide.
Proof.
  assert (A1 : reachable ex_collide).
  { apply (run_reachable ex_table0 [OpPut [x01] 7 true; OpPut [x00; x01] 8 true]);
      [apply (reach_create sum_hash 0 None 0); vm_compute; reflexivity|vm_compute; reflexivity]. }
  assert (A2 : 0 <= 2 < bucket_count ex_collide) by (split; [lia|vm_compute; reflexivity]).
  assert (A3 : is_empty (bucket_at (buckets ex_collide) 2) = false) by (vm_compute; reflexivity).
  exact (conj A1 (conj A2 (conj A3 (psl_invariant _ _ A1 A2 A3)))).
Defined.

(** ** C5 *)

(** C5, as the code does it: let [robin_table_del] find its key at index
    [i], followed by [m] displaced buckets (occupied, [psl <> 0]) and then
    by an empty or undisplaced bucket.  The backward shift moves each of
    the [m] buckets one position back with its [psl] decremented, zeroes
    the last vacated position, [m] after [i] (not the originally freed
    [i]), leaves every other bucket alone and decrements the count. *)
Theorem del_shift_zeroes_last rt e m i :
  1 <= e <= 63 -> bucket_count rt = 2 ^ e -> mask rt = bucket_count rt - 1 ->
  len (buckets rt) = bucket_count rt ->
  0 <= i < bucket_count rt -> Z.of_nat m + 1 < bucket_count rt ->
  (forall t, 1 <= t <= Z.of_nat m ->
     is_empty (slot (buckets rt) (i + t)) = false /\ psl (slot (buckets rt) (i + t)) <> 0) ->
  is_empty (slot (buckets rt) (i + Z.of_nat m + 1)) = true \/
    psl (slot (buckets rt) (i + Z.of_nat m + 1)) = 0 ->
  exists bs', del_shift_loop (Z.to_nat (bucket_count rt)) rt i =
      Some (rt_update rt bs' (u64 (count rt - 1))) /\
    len bs' = bucket_count rt /\
    forall t, 0 <= t < bucket_count rt ->
      slot bs' (i + t) =
        if t <? Z.of_nat m then psl_dec (slot (buckets rt) (i + t + 1))
        else if t =? Z.of_nat m then zero_bucket else slot (buckets rt) (i + t).
Proof.
  intros He HN HM HL Hi Hm Hocc Hstop.
  assert (G : geom rt (bucket_count rt)) by (split; [exact HM|exists e; auto]).
  pose proof (del_shift_closed rt _ G m (Z.to_nat (bucket_count rt)) (buckets rt) (count rt) i
                HL Hi Hm ltac:(lia) Hocc Hstop) as X.
  rewrite rt_update_id in X. exact X.
Qed.

Lemma del_shift_zeroes_last_witness :
  1 <= 5 <= 63 /\ bucket_count ex_collide = 2 ^ 5 /\ mask ex_collide = bucket_count ex_collide - 1 /\
  len (buckets ex_collide) = bucket_count ex_collide /\
  0 <= 1 < bucket_count ex_collide /\ Z.of_nat 1 + 1 < bucket_count ex_collide /\
  (forall t, 1 <= t <= Z.of_nat 1 ->
     is_empty (slot (buckets ex_collide) (1 + t)) = false /\ psl (slot (buckets ex_collide) (1 + t)) <> 0) /\
  (is_empty (slot (buckets ex_collide) (1 + Z.of_nat 1 + 1)) = true \/
    psl (slot (buckets ex_collide) (1 + Z.of_nat 1 + 1)) = 0) /\
  exists bs', del_shift_loop (Z.to_nat (bucket_count ex_collide)) ex_collide 1 =
      Some (rt_update ex_collide bs' (u64 (count ex_collide - 1))) /\
    len bs' = bucket_count ex_collide /\
    forall t, 0 <= t < bucket_count ex_collide ->
      slot bs' (1 + t) =
        if t <? Z.of_nat 1 then psl_dec (slot (buckets ex_collide) (1 + t + 1))
        else if t =? Z.of_nat 1 then zero_bucket else slot (buckets ex_collide) (1 + t).
Proof.
  assert (A1 : 1 <= 5 <= 63) by lia.
  assert (A2 : bucket_count ex_collide = 2 ^ 5) by (vm_compute; reflexivity).
  assert (A3 : mask ex_collide = bucket_count ex_collide - 1) by (vm_compute; reflexivity).
  assert (A4 : len (buckets ex_collide) = bucket_count ex_collide) by (vm_compute; reflexivity).
  assert (A5 : 0 <= 1 < bucket_count ex_collide) by (split; [lia|vm_compute; reflexivity]).
  assert (A6 : Z.of_nat 1 + 1 < bucket_count ex_collide) by (vm_compute; reflexivity).
  assert (A7 : forall t, 1 <= t <= Z.of_nat 1 ->
     is_empty (slot (buckets ex_collide) (1 + t)) = false /\ psl (slot (buckets ex_collide) (1 + t)) <> 0).
  { intros t Ht. replace t with 1 by lia. vm_compute. split; [reflexivity|discriminate]. }
  assert (A8 : is_empty (slot (buckets ex_collide) (1 + Z.of_nat 1 + 1)) = true \/
    psl (slot (buckets ex_collide) (1 + Z.of_nat 1 + 1)) = 0) by (left; vm_compute; reflexivity).
  exact (conj A1 (conj A2 (conj A3 (conj A4 (conj A5 (conj A6 (conj A7 (conj A8
    (del_shift_zeroes_last _ _ _ _ A1 A2 A3 A4 A5 A6 A7 A8))))))))).
Defined.

(** C5 as worded, against the code: deleting the key [[1]] of
    [ex_collide], found at index 1, the code moves the displaced [[0; 1]]
    back into index 1, while zeroing the originally freed index, as the
    sentence says, leaves index 1 empty and [[0; 1]] at index 2 with a
    [psl] of 0, one away from its ideal index 1. *)
Lemma del_shift_claimed_differs :
  reachable ex_collide /\
  robin_table_get_bucket ex_collide [x01] = Some (Some 1) /\
  option_map (fun t => bucket_at (buckets t) 1)
    (del_shift_loop (Z.to_nat (bucket_count ex_collide)) ex_collide 1)
    = Some (psl_dec (bucket_at (buckets ex_collide) 2)) /\
  option_map (fun t => bucket_at (buckets t) 1)
    (del_shift_claimed (Z.to_nat (bucket_count ex_collide)) ex_collide 1 1) = Some zero_bucket /\
  option_map (fun t => (key (bucket_at (buckets t) 2), psl (bucket_at (buckets t) 2)))
    (del_shift_claimed (Z.to_nat (bucket_count ex_collide)) ex_collide 1 1) = Some (Some [x00; x01], 0) /\
  del_shift_loop (Z.to_nat (bucket_count ex_collide)) ex_collide 1 <>
    del_shift_claimed (Z.to_nat (bucket_count ex_collide)) ex_collide 1 1.
Proof.
  split.
  { apply (run_reachable ex_table0 [OpPut [x01] 7 true; OpPut [x00; x01] 8 true]);
      [apply (reach_create sum_hash 0 None 0); vm_compute; reflexivity|vm_compute; reflexivity]. }
  split; [vm_compute; reflexivity|]. split; [vm_compute; reflexivity|].
  split; [vm_compute; reflexivity|]. split; [vm_compute; reflexivity|].
  vm_compute. intros E. injection E. discriminate.
Qed.

(** ** C6 *)

(** C6 (capacity floor): after any run of operations on a table built by
    [robin_table_create] for [cnt] entries, its initial bucket count is
    still the one it was created with, and its bucket count is at least
    that. *)
Theorem capacity_floor rapidhash cnt hf sd rt0 ops rt :
  robin_table_create rapidhash cnt hf sd true true = Some rt0 ->
  rt_run rt0 ops = Some rt ->
  init_buckets rt = robin_table_calc_bucket_count cnt /\
  robin_table_calc_bucket_count cnt <= bucket_count rt.
Proof.
  intros C R.
  destruct (create_ti _ _ _ _ _ C) as (T0 & _ & B0 & I0 & _).
  destruct (run_ti rt0 ops rt T0 R) as [T I].
  destruct (ti_init _ T) as (_ & _ & _ & Hle).
  split; [congruence|]. rewrite I, I0, B0 in Hle. exact Hle.
Qed.

(** The scenario of the specification: 24 entries in 32 buckets, a 25th
    grows the table to 64 buckets, deleting 20 shrinks it back to 32 and
    not below. *)
Lemma capacity_floor_witness :
  robin_table_create sum_hash 0 None 0 true true = Some ex_table0 /\
  rt_run ex_table0 (ex_puts 25 ++ ex_dels 20) = Some (ex_after ex_table0 (ex_puts 25 ++ ex_dels 20)) /\
  bucket_count (ex_after ex_table0 (ex_puts 25)) = 64 /\
  bucket_count (ex_after ex_table0 (ex_puts 25 ++ ex_dels 20)) = 32 /\
  init_buckets (ex_after ex_table0 (ex_puts 25 ++ ex_dels 20)) = robin_table_calc_bucket_count 0 /\
  robin_table_calc_bucket_count 0 <= bucket_count (ex_after ex_table0 (ex_puts 25 ++ ex_dels 20)).
Proof.
  assert (A1 : robin_table_create sum_hash 0 None 0 true true = Some ex_table0)
    by (vm_compute; reflexivity).
  assert (A2 : rt_run ex_table0 (ex_puts 25 ++ ex_dels 20) =
               Some (ex_after ex_table0 (ex_puts 25 ++ ex_dels 20))) by (vm_compute; reflexivity).
  assert (A3 : bucket_count (ex_after ex_table0 (ex_puts 25)) = 64) by (vm_compute; reflexivity).
  assert (A4 : bucket_count (ex_after ex_table0 (ex_puts 25 ++ ex_dels 20)) = 32)
    by (vm_compute; reflexivity).
  exact (conj A1 (conj A2 (conj A3 (conj A4 (capacity_floor _ _ _ _ _ _ _ A1 A2))))).
Defined.

(** ** C7 *)

(** C7 (atomic growth failure): when [robin_table_put] on a reachable
    table needs to grow it and the allocation of the larger array fails,
    it returns [NULL] and the table, every field of it, is the one it was
    given.  (At the largest size, [2 ^ 63] buckets, doubling wraps to 0 and
    [robin_table_resize] stops on its [RT_ASSERT] before allocating.) *)
Theorem put_growth_fail_atomic rt k v :
  reachable rt -> (0 < length k)%nat ->
  expand_at rt <= count rt -> bucket_count rt < 2 ^ 63 ->
  robin_table_put rt k v false = Some (rt, NULL).
Proof.
  intros R Hk X Hb. pose proof (reachable_ti rt R) as T.
  destruct (put_spec rt k v false T Hk)
    as [(_ & E & _)|[(_ & _ & _ & P)|(Hg & _)]]; [lia|exact P|].
  destruct (Hg X) as [_ F]. discriminate.
Qed.

Lemma put_growth_fail_atomic_witness :
  reachable (ex_after ex_table0 (ex_puts 24)) /\ (0 < length (ex_key 100))%nat /\
  expand_at (ex_after ex_table0 (ex_puts 24)) <= count (ex_after ex_table0 (ex_puts 24)) /\
  bucket_count (ex_after ex_table0 (ex_puts 24)) < 2 ^ 63 /\
  robin_table_put (ex_after ex_table0 (ex_puts 24)) (ex_key 100) 5 false =
    Some (ex_after ex_table0 (ex_puts 24), NULL).
Proof.
  assert (A1 : reachable (ex_after ex_table0 (ex_puts 24))).
  { apply (run_reachable ex_table0 (ex_puts 24));
      [apply (reach_create sum_hash 0 None 0); vm_compute; reflexivity|vm_compute; reflexivity]. }
  assert (A2 : (0 < length (ex_key 100))%nat) by (vm_compute; lia).
  assert (A3 : expand_at (ex_after ex_table0 (ex_puts 24)) <= count (ex_after ex_table0 (ex_puts 24)))
    by (vm_compute; discriminate).
  assert (A4 : bucket_count (ex_after ex_table0 (ex_puts 24)) < 2 ^ 63) by (vm_compute; reflexivity).
  exact (conj A1 (conj A2 (conj A3 (conj A4 (put_growth_fail_atomic _ _ 5 A1 A2 A3 A4))))).
Defined.

(** ** C8 *)

Lemma pow2_ge32 b : 32 <= 2 ^ b -> 2 ^ b = 4 * 2 ^ (b - 2).
Proof.
  intros H. destruct (Z_lt_le_dec b 2).
  - destruct (Z_lt_le_dec b 0).
    + rewrite Z.pow_neg_r in H by lia. lia.
    + assert (2 ^ b <= 2 ^ 1) by (apply Z.pow_le_mono_r; lia). simpl in *. lia.
  - replace b with (2 + (b - 2)) at 1 by lia. rewrite Z.pow_add_r by lia. reflexivity.
Qed.

(** Where [cnt * 100] does not wrap around, [robin_table_calc_bucket_count]
    is the specification's [target_capacity]: rounding [cnt * 100 / 75]
    down instead of up never changes the power of two, since [4 * cnt / 3]
    rounds to a power of two at least 32 only when it is exact. *)
Lemma calc_bucket_count_target n :
  0 <= n -> n * 100 < 2 ^ 64 -> robin_table_calc_bucket_count n = target_capacity n.
Proof.
  intros Hn Hov. unfold robin_table_calc_bucket_count, target_capacity.
  unfold RT_LOAD_FACTOR_PCT_MAX, RT_BUCKET_COUNT_MIN.
  rewrite u64_small by lia. replace (75 - 1) with 74 by reflexivity.
  pose proof (Z.div_mod (n * 100) 75 ltac:(lia)) as Df.
  pose proof (Z.mod_pos_bound (n * 100) 75 ltac:(lia)) as Mf.
  pose proof (Z.div_mod (n * 100 + 74) 75 ltac:(lia)) as Dr.
  pose proof (Z.mod_pos_bound (n * 100 + 74) 75 ltac:(lia)) as Mr.
  set (f := n * 100 / 75) in *. set (r := (n * 100 + 74) / 75) in *.
  set (s := (n * 100) mod 75) in *. set (s' := (n * 100 + 74) mod 75) in *.
  clearbody f r s s'.
  assert (Hr : r = f \/ (r = f + 1 /\ (4 * n = 3 * f + 1 \/ 4 * n = 3 * f + 2))).
  { destruct (Z.eq_dec s 0); [left|right]; lia. }
  destruct (f <? 32) eqn:E1; destruct (r <? 32) eqn:E2;
    rewrite ?Z.ltb_lt, ?Z.ltb_ge in E1, E2.
  - reflexivity.
  - replace r with 32 by lia. reflexivity.
  - lia.
  - assert (Hf63 : f <= 2 ^ 63) by lia.
    rewrite next_pow2_spec by lia.
    rewrite Z.log2_up_eqn by lia. f_equal.
    destruct Hr as [->|(-> & E4)]; [replace (Z.pred f) with (f - 1) by lia; reflexivity|].
    replace (Z.pred (f + 1)) with f by lia.
    destruct (Z.log2_succ_or (f - 1)) as [L|L].
    + exfalso. apply Z.log2_eq_succ_is_pow2 in L as [b Eb].
      replace (Z.succ (f - 1)) with f in Eb by lia.
      rewrite Eb in E1, E4. rewrite (pow2_ge32 b) in E4 by lia. lia.
    + replace (Z.succ (f - 1)) with f in L by lia. rewrite L. reflexivity.
Qed.

(** C8, where [cnt * 100] wraps around: for [2 ^ 62] expected entries the
    specification's [target_capacity] is [2 ^ 63] buckets, while
    [robin_table_calc_bucket_count] computes [2 ^ 62 * 100] modulo
    [2 ^ 64], which is 0, and answers 32: [robin_table_create] then builds
    the same 32-bucket table as for 0 expected entries. *)
Theorem calc_bucket_count_overflow :
  target_capacity (2 ^ 62) = 2 ^ 63 /\
  robin_table_calc_bucket_count (2 ^ 62) = 32 /\
  robin_table_create sum_hash (2 ^ 62) None 0 true true = Some ex_table0.
Proof.
  split; [vm_compute; reflexivity|]. split; [vm_compute; reflexivity|].
  vm_compute. reflexivity.
Qed.

(** ** C9 *)

Ltac sv_split :=
  unfold same_view; refine (conj _ (conj _ (conj _ (conj _ (conj _ _))))).

(** One operation on two tables of the same view: both stop or both
    answer the same, and the views stay the same. *)
Lemma same_view_step a b op :
  same_view a b ->
  match rt_step a op, rt_step b op with
  | Some (a', r), Some (b', r') => r = r' /\ same_view a' b'
  | None, None => True
  | _, _ => False
  end.
Proof.
  intros (TA & TB & Ec & Eb & Ei & Es).
  assert (Ex : expand_at a = expand_at b)
    by (rewrite (ti_expand _ TA), (ti_expand _ TB), Eb; reflexivity).
  assert (Sh : shrink_at a = shrink_at b)
    by (rewrite (ti_shrink _ TA), (ti_shrink _ TB), Eb; reflexivity).
  destruct op as [k v ok|k|k ok|u ok]; unfold rt_step.
  - destruct (Nat.eq_dec (length k) 0) as [H0|H0].
    { unfold robin_table_put. rewrite H0. exact I. }
    assert (Hk : (0 < length k)%nat) by lia.
    assert (Pa : put_answer a k v = put_answer b k v) by (unfold put_answer; rewrite Es; reflexivity).
    assert (Pc : put_count a k = put_count b k) by (unfold put_count; rewrite Es, Ec; reflexivity).
    destruct (put_spec a k v ok TA Hk)
      as [(X1 & B1 & P1)|[(X1 & B1 & O1 & P1)|(C1 & a' & P1 & T1 & B1 & N1 & I1 & _ & _ & S1)]];
    destruct (put_spec b k v ok TB Hk)
      as [(X2 & B2 & P2)|[(X2 & B2 & O2 & P2)|(C2 & b' & P2 & T2 & B2 & N2 & I2 & _ & _ & S2)]];
      rewrite P1, P2.
    + exact I.
    + lia.
    + destruct C2 as [B2' _]; lia.
    + lia.
    + split; [reflexivity|]. sv_split; auto.
    + destruct C2 as [_ O2]; [lia|congruence].
    + destruct C1 as [B1' _]; lia.
    + destruct C1 as [_ O1]; [lia|congruence].
    + split; [congruence|]. sv_split; auto.
      * congruence.
      * rewrite B1, B2, Ex, Ec, Eb. reflexivity.
      * congruence.
      * intros k'. rewrite S1, S2, Pa, Es. reflexivity.
  - destruct (Nat.eq_dec (length k) 0) as [H0|H0].
    { unfold robin_table_get. rewrite H0. exact I. }
    assert (Hk : (0 < length k)%nat) by lia.
    rewrite (get_ti a k TA Hk), (get_ti b k TB Hk), Es.
    split; [reflexivity|]. sv_split; auto.
  - destruct (Nat.eq_dec (length k) 0) as [H0|H0].
    { unfold robin_table_del. rewrite H0. exact I. }
    assert (Hk : (0 < length k)%nat) by lia.
    destruct (del_spec a k ok TA Hk)
      as [(S1 & P1)|(v1 & a' & S1 & P1 & T1 & N1 & B1 & I1 & _ & _ & R1)];
    destruct (del_spec b k ok TB Hk)
      as [(S2 & P2)|(v2 & b' & S2 & P2 & T2 & N2 & B2 & I2 & _ & _ & R2)];
      rewrite P1, P2; rewrite Es in S1.
    + split; [reflexivity|]. sv_split; auto.
    + congruence.
    + congruence.
    + split; [congruence|]. sv_split; auto.
      * congruence.
      * rewrite B1, B2. unfold del_bucket_count. rewrite Ei, Eb, Ec, Sh. reflexivity.
      * congruence.
      * intros k'. rewrite R1, R2, Es. reflexivity.
  - destruct (clear_ti a u ok TA)
      as [(U1 & O1 & P1)|(a' & P1 & C1 & T1 & N1 & B1 & I1 & _ & _ & S1)];
    destruct (clear_ti b u ok TB)
      as [(U2 & O2 & P2)|(b' & P2 & C2 & T2 & N2 & B2 & I2 & _ & _ & S2)];
      rewrite P1, P2.
    + split; [reflexivity|]. sv_split; auto.
    + destruct C2; congruence.
    + destruct C1; congruence.
    + split; [reflexivity|]. sv_split; auto.
      * congruence.
      * rewrite B1, B2, Ei, Eb. reflexivity.
      * congruence.
      * intros k'. rewrite S1, S2. reflexivity.
Qed.

Lemma same_view_trace ops : forall a b, same_view a b -> rt_trace a ops = rt_trace b ops.
Proof.
  induction ops as [|op ops IH]; intros a b H; simpl; [reflexivity|].
  pose proof (same_view_step a b op H) as S.
  destruct (rt_step a op) as [[a' r]|], (rt_step b op) as [[b' r']|];
    try contradiction; [|reflexivity].
  destruct S as [<- S]. pose proof S as (_ & _ & Ec & _).
  rewrite Ec, (IH a' b' S). reflexivity.
Qed.

(** C9: two tables created for the same expected entry count, whatever
    their hash strategies and seeds, answer every run of operations (puts,
    lookups, deletions and clears, with any allocation outcomes) with the
    same results and the same entry count after each step, and stop at the
    same step if one stops. *)
Theorem hash_substitutable rh1 rh2 cnt hf1 hf2 sd1 sd2 rt1 rt2 ops :
  robin_table_create rh1 cnt hf1 sd1 true true = Some rt1 ->
  robin_table_create rh2 cnt hf2 sd2 true true = Some rt2 ->
  rt_trace rt1 ops = rt_trace rt2 ops.
Proof.
  intros C1 C2. apply same_view_trace.
  destruct (create_ti _ _ _ _ _ C1) as (T1 & N1 & B1 & I1 & _ & _ & S1).
  destruct (create_ti _ _ _ _ _ C2) as (T2 & N2 & B2 & I2 & _ & _ & S2).
  sv_split; auto; [congruence|congruence|congruence|].
  intros k. rewrite S1, S2. reflexivity.
Qed.

Lemma hash_substitutable_witness :
  robin_table_create sum_hash 0 None 0 true true = Some ex_table0 /\
  robin_table_create sum_hash 0 (Some poly_hash) 5 true true = Some ex_table_poly /\
  rt_trace ex_table0 ex_mixed = rt_trace ex_table_poly ex_mixed /\
  buckets (ex_after ex_table0 ex_mixed) <> buckets (ex_after ex_table_poly ex_mixed).
Proof.
  assert (A1 : robin_table_create sum_hash 0 None 0 true true = Some ex_table0)
    by (vm_compute; reflexivity).
  assert (A2 : robin_table_create sum_hash 0 (Some poly_hash) 5 true true = Some ex_table_poly)
    by (vm_compute; reflexivity).
  assert (D : buckets (ex_after ex_table0 ex_mixed) <> buckets (ex_after ex_table_poly ex_mixed))
    by (intros E; vm_compute in E; discriminate E).
  exact (conj A1 (conj A2 (conj (hash_substitutable _ _ _ _ _ _ _ _ _ ex_mixed A1 A2) D))).
Defined.

(** ** C10 *)

(** C10: a [NULL] answer does not tell failure from success.  With 24
    entries in 32 buckets, inserting the key [[100]] with value [NULL]
    answers [NULL] when the growth allocation fails (nothing is stored)
    and also when it succeeds (the pair is stored); a lookup of [[100]]
    answers [NULL] both on the empty table, where it is absent, and after
    that successful insertion, where it is present. *)
Theorem null_ambiguous :
  robin_table_put (ex_after ex_table0 (ex_puts 24)) (ex_key 100) NULL false =
    Some (ex_after ex_table0 (ex_puts 24), NULL) /\
  stored (ex_after ex_table0 (ex_puts 24)) (ex_key 100) = None /\
  match robin_table_put (ex_after ex_table0 (ex_puts 24)) (ex_key 100) NULL true with
  | Some (t, r) =>
      r = NULL /\ stored t (ex_key 100) = Some NULL /\ robin_table_get t (ex_key 100) = Some NULL
  | None => False
  end /\
  robin_table_get ex_table0 (ex_key 100) = Some NULL /\ stored ex_table0 (ex_key 100) = None.
Proof.
  split; [vm_compute; reflexivity|]. split; [vm_compute; reflexivity|].
  split; [vm_compute; repeat split|]. split; vm_compute; reflexivity.
Qed.

(** * Further properties of the code *)

(** ** Iteration *)

Lemma skipn_nth_cons {A} (l : list A) n d :
  (n < length l)%nat -> skipn n l = nth n l d :: skipn (S n) l.
Proof.
  revert n; induction l as [|a l IH]; intros n Hn; simpl in *; [lia|].
  destruct n as [|n]; [reflexivity|]. simpl. apply IH. lia.
Qed.

Section Iter.
Variable rt : robin_table.
Local Abbreviation bs := (buckets rt).
Local Abbreviation bc := (bucket_count rt).
Hypothesis HL : length bs = Z.to_nat bc.
Hypothesis Hbc : 0 < bc < 2 ^ 64.

(** One call of [robin_table_iter_next] when the next index is [i]: it
    stops at the first occupied bucket from [i] on, or at the end. *)
Lemma next_loop_spec : forall fuel i x ka va,
  u64 (x + 1) = i -> 0 <= i <= bc -> (Z.to_nat (bc - i) < fuel)%nat ->
  (entries (skipn (Z.to_nat i) bs) = [] /\
   iter_next_loop fuel rt (mkIter ka va x) = Some (mkIter None NULL bc, false)) \/
  (exists j k, i <= j < bc /\ key (bucket_at bs j) = Some k /\
   entries (skipn (Z.to_nat i) bs) = (k, val (bucket_at bs j)) :: entries (skipn (Z.to_nat (j + 1)) bs) /\
   iter_next_loop fuel rt (mkIter ka va x) = Some (mkIter (Some k) (val (bucket_at bs j)) j, true)).
Proof.
  induction fuel as [|fuel IH]; intros i x ka va Hx Hi Hf; [lia|].
  simpl. rewrite Hx. destruct (i <? bc) eqn:Lt.
  - apply Z.ltb_lt in Lt.
    rewrite (skipn_nth_cons bs (Z.to_nat i) zero_bucket) by lia. cbn [entries].
    unfold bucket_at, entry_of.
    destruct (key (nth (Z.to_nat i) bs zero_bucket)) as [k|] eqn:K.
    + right. exists i, k.
      replace (Z.to_nat (i + 1)) with (S (Z.to_nat i)) by lia.
      split; [lia|]. split; [exact K|]. split; reflexivity.
    + rewrite app_nil_l. replace (S (Z.to_nat i)) with (Z.to_nat (i + 1)) by lia.
      destruct (IH (i + 1) i ka va) as [L|(j & k & Hj & R)];
        [apply u64_small; lia|lia|lia|left; exact L|].
      right. exists j, k. split; [lia|exact R].
  - apply Z.ltb_ge in Lt. left. replace i with bc by lia.
    rewrite skipn_all2 by lia. auto.
Qed.

(** A caller's loop from an iterator whose next index is [i] collects the
    entries of the buckets from [i] on, in array order. *)
Lemma collect_spec : forall fuel i x ka va,
  u64 (x + 1) = i -> 0 <= i <= bc -> (Z.to_nat (bc - i) < fuel)%nat ->
  iter_collect fuel rt (mkIter ka va x) =
    Some (map (fun kv => (Some (fst kv), snd kv)) (entries (skipn (Z.to_nat i) bs)),
          mkIter None NULL bc).
Proof.
  induction fuel as [|fuel IH]; intros i x ka va Hx Hi Hf; [lia|].
  simpl. unfold robin_table_iter_next.
  destruct (next_loop_spec (S (Z.to_nat bc)) i x ka va Hx Hi ltac:(lia))
    as [(E & R)|(j & k & Hj & Hk & E & R)]; rewrite R, E; [reflexivity|].
  rewrite (IH (j + 1) j) by (try apply u64_small; lia). reflexivity.
Qed.
End Iter.

Lemma nodup_map_some {A} (l : list A) : NoDup l -> NoDup (map Some l).
Proof.
  induction 1 as [|x l Hx ND IH]; simpl; constructor; auto.
  intros Hin. apply in_map_iff in Hin as (y & Ey & Hy). injection Ey as ->. auto.
Qed.

(** X1: a caller that creates an iterator on a table and calls
    [robin_table_iter_next] until it answers [false] reads each stored
    pair exactly once, [robin_table_count] pairs in all, each with the
    value [robin_table_get] answers; the iterator ends with [key] and
    [val] cleared, and a further call answers [false] again. *)
Theorem iter_visits_entries rt it :
  reachable rt -> robin_table_iter_create true = Some it ->
  exists l,
    iter_collect (S (Z.to_nat (bucket_count rt))) rt it =
      Some (l, mkIter None NULL (bucket_count rt)) /\
    Z.of_nat (length l) = robin_table_count rt /\
    NoDup (map fst l) /\
    (forall k v, In (Some k, v) l <-> stored rt k = Some v) /\
    (forall o v, In (o, v) l -> exists k, o = Some k /\ robin_table_get rt k = Some v) /\
    robin_table_iter_next rt (mkIter None NULL (bucket_count rt)) =
      Some (mkIter None NULL (bucket_count rt + 1), false).
Proof.
  intros R C. injection C as <-. pose proof (reachable_ti rt R) as T.
  pose proof (ti_bounds rt T) as B. pose proof (ti_len _ T) as HL. unfold len in HL.
  pose proof (ti_wf _ T) as W.
  set (f := fun kv : list byte * Z => (Some (fst kv), snd kv)).
  exists (map f (entries (buckets rt))). split; [|split; [|split; [|split; [|split]]]].
  - apply (collect_spec rt ltac:(lia) ltac:(lia) _ 0); [reflexivity|lia|lia].
  - unfold robin_table_count. rewrite (ti_count _ T), length_map. reflexivity.
  - rewrite map_map. simpl. rewrite <- (map_map fst Some). apply nodup_map_some.
    apply (wf_nodup _ _ W).
  - intros k v. unfold stored. split.
    + intros Hin. apply in_map_iff in Hin as ([k' v'] & E & Hin). simpl in E.
      injection E as -> ->. apply assoc_in; [apply (wf_nodup _ _ W)|exact Hin].
    + intros E. apply in_map_iff. exists (k, v). split; [reflexivity|]. now apply assoc_some.
  - intros o v Hin. apply in_map_iff in Hin as ([k v'] & E & Hin). simpl in E.
    injection E as <- <-. exists k. split; [reflexivity|].
    rewrite (get_ti rt k T (wf_keys_pos _ _ _ _ W Hin)).
    unfold stored. rewrite (assoc_in k _ (wf_nodup _ _ W) _ Hin). reflexivity.
  - unfold robin_table_iter_next. cbn [iter_next_loop it_idx].
    rewrite u64_small by lia.
    replace (bucket_count rt + 1 <? bucket_count rt) with false by (symmetry; apply Z.ltb_ge; lia).
    reflexivity.
Qed.

Lemma iter_visits_entries_witness :
  reachable (ex_after ex_table0 (ex_puts 5)) /\
  robin_table_iter_create true = Some (mkIter None NULL (u64 (-1))) /\
  exists l,
    iter_collect (S (Z.to_nat (bucket_count (ex_after ex_table0 (ex_puts 5)))))
      (ex_after ex_table0 (ex_puts 5)) (mkIter None NULL (u64 (-1))) =
      Some (l, mkIter None NULL (bucket_count (ex_after ex_table0 (ex_puts 5)))) /\
    Z.of_nat (length l) = robin_table_count (ex_after ex_table0 (ex_puts 5)) /\
    NoDup (map fst l) /\
    (forall k v, In (Some k, v) l <-> stored (ex_after ex_table0 (ex_puts 5)) k = Some v) /\
    (forall o v, In (o, v) l ->
       exists k, o = Some k /\ robin_table_get (ex_after ex_table0 (ex_puts 5)) k = Some v) /\
    robin_table_iter_next (ex_after ex_table0 (ex_puts 5))
      (mkIter None NULL (bucket_count (ex_after ex_table0 (ex_puts 5)))) =
      Some (mkIter None NULL (bucket_count (ex_after ex_table0 (ex_puts 5)) + 1), false).
Proof.
  assert (A1 : reachable (ex_after ex_table0 (ex_puts 5))).
  { apply (run_reachable ex_table0 (ex_puts 5));
      [apply (reach_create sum_hash 0 None 0); vm_compute; reflexivity|vm_compute; reflexivity]. }
  assert (A2 : robin_table_iter_create true = Some (mkIter None NULL (u64 (-1)))) by reflexivity.
  exact (conj A1 (conj A2 (iter_visits_entries _ _ A1 A2))).
Defined.

(** ** [robin_table_psl_max] *)

Lemma psl_max_loop_spec bs : forall n i mx,
  mx <= psl_max_loop n bs i mx /\
  (forall j, i <= j < i + Z.of_nat n -> is_empty (bucket_at bs j) = false ->
     psl (bucket_at bs j) <= psl_max_loop n bs i mx) /\
  (psl_max_loop n bs i mx = mx \/
   exists j, i <= j < i + Z.of_nat n /\ is_empty (bucket_at bs j) = false /\
     psl (bucket_at bs j) = psl_max_loop n bs i mx).
Proof.
  induction n as [|n IH]; intros i mx; simpl.
  - split; [lia|]. split; [intros j Hj; lia|auto].
  - set (mx' := if negb (is_empty (bucket_at bs i)) && (mx <? psl (bucket_at bs i))
                then psl (bucket_at bs i) else mx).
    destruct (IH (i + 1) mx') as (I1 & I2 & I3).
    assert (M : mx <= mx' /\ (is_empty (bucket_at bs i) = false -> psl (bucket_at bs i) <= mx') /\
                (mx' = mx \/ (is_empty (bucket_at bs i) = false /\ mx' = psl (bucket_at bs i)))).
    { unfold mx'. destruct (is_empty (bucket_at bs i)); simpl; [split; [lia|]; split; [discriminate|auto]|].
      destruct (mx <? psl (bucket_at bs i)) eqn:L; [apply Z.ltb_lt in L|apply Z.ltb_ge in L];
        split; try lia; split; auto; lia. }
    destruct M as (M1 & M2 & M3).
    split; [lia|]. split.
    + intros j Hj Ho. destruct (Z.eq_dec j i) as [->|Hne]; [specialize (M2 Ho); lia|].
      apply I2; auto; lia.
    + destruct I3 as [I3|(j & Hj & Ho & Hp)].
      * destruct M3 as [M3|(Ho & M3)]; [left; lia|].
        right. exists i. split; [lia|]. split; auto. lia.
      * right. exists j. split; [lia|auto].
Qed.

(** An occupied bucket displaced [p] positions follows [p] occupied
    buckets holding distinct keys: [p] is below the entry count. *)
Lemma psl_lt_count rt i :
  table_inv rt -> 0 <= i < bucket_count rt -> is_empty (bucket_at (buckets rt) i) = false ->
  psl (bucket_at (buckets rt) i) < count rt.
Proof.
  intros T Hi Ho. pose proof (ti_len _ T) as HL. pose proof (ti_wf _ T) as W.
  pose proof (ti_bounds rt T) as B.
  set (bs := buckets rt) in *. set (N := bucket_count rt) in *.
  assert (HN : 0 < len bs) by lia.
  rewrite <- (slot_in_range bs i) in Ho |- * by lia.
  destruct (key (slot bs i)) as [k0|] eqn:K0; [|unfold is_empty in Ho; rewrite K0 in Ho; discriminate].
  pose proof (wf_psl_range _ bs i k0 W HN K0) as Pr.
  set (p := psl (slot bs i)) in *.
  assert (Occ : forall e, 0 <= e <= p -> is_empty (slot bs (i - e)) = false)
    by (intros e He; apply (wf_rh_path _ bs i W Ho e He)).
  set (kf := fun e : nat => match key (slot bs (i - Z.of_nat e)) with Some k => k | None => [] end).
  set (L := map kf (seq 0 (S (Z.to_nat p)))).
  assert (KF : forall e, (e < S (Z.to_nat p))%nat -> key (slot bs (i - Z.of_nat e)) = Some (kf e)).
  { intros e He. specialize (Occ (Z.of_nat e) ltac:(lia)). unfold kf, is_empty in *.
    destruct (key (slot bs (i - Z.of_nat e))); [reflexivity|discriminate]. }
  assert (ND : NoDup L).
  { apply NoDup_map_NoDup_ForallPairs; [|apply seq_NoDup].
    intros a b Ha Hb E. apply in_seq in Ha, Hb.
    pose proof (KF a ltac:(lia)) as Ka. pose proof (KF b ltac:(lia)) as Kb.
    rewrite E in Ka. pose proof (wf_unique _ bs _ _ _ W HN Ka Kb) as U.
    destruct (Nat.lt_total a b) as [Lt|[Eq|Lt]]; auto; exfalso.
    - apply (mod_off_ne (len bs) (i - Z.of_nat b) (Z.of_nat b - Z.of_nat a)); [lia|].
      replace (i - Z.of_nat b + (Z.of_nat b - Z.of_nat a)) with (i - Z.of_nat a) by lia. exact U.
    - apply (mod_off_ne (len bs) (i - Z.of_nat a) (Z.of_nat a - Z.of_nat b)); [lia|].
      replace (i - Z.of_nat a + (Z.of_nat a - Z.of_nat b)) with (i - Z.of_nat b) by lia.
      symmetry. exact U. }
  assert (IN : incl L (keys bs)).
  { intros x Hx. apply in_map_iff in Hx as (e & <- & He). apply in_seq in He.
    apply in_map_iff. exists (kf e, val (slot bs (i - Z.of_nat e))). split; [reflexivity|].
    apply slot_key_in; auto. apply KF. lia. }
  pose proof (NoDup_incl_length ND IN) as Len.
  unfold L, keys in Len. rewrite length_map, length_seq, length_map in Len.
  rewrite (ti_count _ T). fold bs. lia.
Qed.

Lemma psl_max_spec rt :
  table_inv rt -> count rt <> 0 ->
  exists m, robin_table_psl_max rt = Some m /\
    (forall i, 0 <= i < bucket_count rt -> is_empty (bucket_at (buckets rt) i) = false ->
       psl (bucket_at (buckets rt) i) <= m) /\
    (exists i, 0 <= i < bucket_count rt /\ is_empty (bucket_at (buckets rt) i) = false /\
       psl (bucket_at (buckets rt) i) = m) /\
    0 <= m < count rt.
Proof.
  intros T Hc. pose proof (ti_len _ T) as HL. pose proof (ti_wf _ T) as W.
  pose proof (ti_bounds rt T) as B.
  unfold robin_table_psl_max. replace (count rt =? 0) with false by (symmetry; apply Z.eqb_neq; auto).
  destruct (psl_max_loop_spec (buckets rt) (Z.to_nat (bucket_count rt)) 0 0) as (I1 & I2 & I3).
  rewrite Z2Nat.id in I2, I3 by lia.
  set (m := psl_max_loop (Z.to_nat (bucket_count rt)) (buckets rt) 0 0) in *.
  assert (Ex : exists i, 0 <= i < bucket_count rt /\ is_empty (bucket_at (buckets rt) i) = false /\
                 psl (bucket_at (buckets rt) i) = m).
  { destruct I3 as [I3|(j & Hj & Ho & Hp)]; [|exists j; auto].
    destruct (entries (buckets rt)) as [|[k v] l] eqn:E.
    { rewrite (ti_count _ T), E in Hc. simpl in Hc. lia. }
    destruct (in_entries_slot (buckets rt) k v) as (i & Hi & Hk & _); [rewrite E; now left|].
    rewrite slot_in_range in Hk by lia.
    assert (Ho : is_empty (bucket_at (buckets rt) i) = false) by (unfold is_empty; now rewrite Hk).
    exists i. split; [lia|]. split; [exact Ho|].
    specialize (I2 i ltac:(lia) Ho).
    pose proof (wf_psl_range _ _ i k W ltac:(lia)) as P. rewrite slot_in_range in P by lia.
    specialize (P Hk). lia. }
  exists m. split; [reflexivity|]. split; [intros i Hi; apply I2; lia|]. split; [exact Ex|].
  split; [exact I1|]. destruct Ex as (i & Hi & Ho & <-). apply psl_lt_count; auto.
Qed.




(** ** [robin_table_psl_max] and the cost of a lookup *)

(** X2: on a table with entries, [robin_table_psl_max] answers the
    largest [psl] of an occupied bucket, and that is below the entry
    count; on an empty table its assertion fails. *)
Theorem psl_max_bound rt :
  reachable rt ->
  match robin_table_psl_max rt with
  | None => robin_table_count rt = 0
  | Some m =>
      (forall i, 0 <= i < bucket_count rt -> is_empty (bucket_at (buckets rt) i) = false ->
         psl (bucket_at (buckets rt) i) <= m) /\
      (exists i, 0 <= i < bucket_count rt /\ is_empty (bucket_at (buckets rt) i) = false /\
         psl (bucket_at (buckets rt) i) = m) /\
      0 <= m < robin_table_count rt
  end.
Proof.
  intros R. pose proof (reachable_ti rt R) as T. unfold robin_table_count.
  destruct (Z.eq_dec (count rt) 0) as [E|E].
  - unfold robin_table_psl_max. rewrite E. reflexivity.
  - destruct (psl_max_spec rt T E) as (m & -> & H1 & H2 & H3). auto.
Qed.

Lemma psl_max_bound_witness :
  reachable ex_crowded /\
  match robin_table_psl_max ex_crowded with
  | None => robin_table_count ex_crowded = 0
  | Some m =>
      (forall i, 0 <= i < bucket_count ex_crowded ->
         is_empty (bucket_at (buckets ex_crowded) i) = false ->
         psl (bucket_at (buckets ex_crowded) i) <= m) /\
      (exists i, 0 <= i < bucket_count ex_crowded /\
         is_empty (bucket_at (buckets ex_crowded) i) = false /\
         psl (bucket_at (buckets ex_crowded) i) = m) /\
      0 <= m < robin_table_count ex_crowded
  end.
Proof.
  assert (A1 : reachable ex_crowded).
  { apply (run_reachable ex_table0 ex_crowded_ops);
      [apply (reach_create sum_hash 0 None 0); vm_compute; reflexivity|vm_compute; reflexivity]. }
  exact (conj A1 (psl_max_bound _ A1)).
Defined.



(** ** The load factor *)

Lemma expand_threshold_small bc : 0 <= bc <= 2 ^ 57 -> expand_threshold bc = bc * 75 / 100.
Proof.
  intros H. unfold expand_threshold, RT_LOAD_FACTOR_PCT_MAX.
  rewrite u64_small; [reflexivity|]. split; [lia|].
  apply (Z.le_lt_trans _ (2 ^ 57 * 75)); [lia|reflexivity].
Qed.

Lemma shrink_threshold_small bc : 0 <= bc <= 2 ^ 58 + 1 -> shrink_threshold bc = bc * 25 / 100.
Proof.
  intros H. unfold shrink_threshold, RT_LOAD_FACTOR_PCT_MIN.
  rewrite u64_small; [reflexivity|]. split; [lia|].
  apply (Z.le_lt_trans _ ((2 ^ 58 + 1) * 25)); [lia|reflexivity].
Qed.

Lemma expand_threshold_nonneg bc : 0 <= expand_threshold bc.
Proof.
  unfold expand_threshold, u64.
  apply Z.div_pos; [apply Z.mod_pos_bound|]; lia.
Qed.

Lemma load_step rt op rt' r :
  table_inv rt -> load_ok rt -> rt_step rt op = Some (rt', r) -> load_ok rt'.
Proof.
  intros T L S. pose proof (ti_bounds rt T) as B. pose proof (ti_count_nonneg rt T) as C0.
  pose proof (ti_expand _ T) as X. unfold load_ok in *.
  destruct op as [k v ok|k|k ok|u ok]; simpl in S.
  - destruct (Nat.eq_dec (length k) 0) as [H0|H0].
    { unfold robin_table_put in S. rewrite H0 in S. discriminate. }
    destruct (put_spec rt k v ok T ltac:(lia))
      as [(_ & _ & P)|[(_ & _ & _ & P)|(_ & rt1 & P & T1 & B1 & N1 & _)]];
      rewrite P in S; [discriminate|injection S as <- _; exact L|injection S as <- _].
    intros Hb. rewrite (ti_expand _ T1), B1, N1. unfold put_count.
    assert (Pc : count rt <= match stored rt k with Some _ => count rt | None => count rt + 1 end
                 <= count rt + 1) by (destruct (stored rt k); lia).
    rewrite B1 in Hb. destruct (expand_at rt <=? count rt) eqn:E; cbv beta iota in Hb.
    + apply Z.leb_le in E. rewrite expand_threshold_small by lia.
      specialize (L ltac:(lia)). rewrite X in L, E. rewrite expand_threshold_small in L, E by lia.
      set (c := match stored rt k with Some _ => count rt | None => count rt + 1 end) in *.
      clearbody c. set (b := bucket_count rt) in *. clearbody b.
      pose proof (Z.div_mod (b * 75) 100 ltac:(lia)).
      pose proof (Z.mod_pos_bound (b * 75) 100 ltac:(lia)).
      pose proof (Z.div_mod (2 * b * 75) 100 ltac:(lia)).
      pose proof (Z.mod_pos_bound (2 * b * 75) 100 ltac:(lia)).
      lia.
    + apply Z.leb_gt in E. rewrite <- X. lia.
  - destruct (robin_table_get rt k); [|discriminate]. injection S as <- _. exact L.
  - destruct (Nat.eq_dec (length k) 0) as [H0|H0].
    { unfold robin_table_del in S. rewrite H0 in S. discriminate. }
    destruct (del_spec rt k ok T ltac:(lia))
      as [(_ & P)|(v1 & rt1 & _ & P & T1 & N1 & B1 & _)];
      rewrite P in S; injection S as <- _; [exact L|].
    intros Hb. rewrite (ti_expand _ T1), B1, N1. rewrite B1 in Hb.
    pose proof (ti_shrink _ T) as Sh. unfold del_bucket_count in *.
    destruct ((init_buckets rt <? bucket_count rt) && (count rt - 1 <=? shrink_at rt) && ok) eqn:E;
      cbv beta iota in Hb |- *.
    + apply andb_prop in E as [E _]. apply andb_prop in E as [_ E]. apply Z.leb_le in E.
      destruct (ti_pow2 _ T) as (e & He & Ee).
      assert (Ev : bucket_count rt = 2 * (bucket_count rt / 2)).
      { rewrite Ee. replace e with (1 + (e - 1)) by lia. rewrite Z.pow_add_r by lia.
        rewrite (Z.mul_comm (2 ^ 1)), Z.div_mul by lia. lia. }
      rewrite Sh, shrink_threshold_small in E by lia.
      rewrite expand_threshold_small by lia.
      set (q := bucket_count rt / 2) in *. clearbody q. set (b := bucket_count rt) in *. clearbody b.
      pose proof (Z.div_mod (b * 25) 100 ltac:(lia)).
      pose proof (Z.mod_pos_bound (b * 25) 100 ltac:(lia)).
      pose proof (Z.div_mod (q * 75) 100 ltac:(lia)).
      pose proof (Z.mod_pos_bound (q * 75) 100 ltac:(lia)).
      lia.
    + specialize (L Hb). rewrite <- X. lia.
  - destruct (clear_ti rt u ok T) as [(_ & _ & C)|(rt1 & C & _ & T1 & N1 & _)];
      rewrite C in S; injection S as <- _; [exact L|].
    intros _. rewrite N1, (ti_expand _ T1). apply expand_threshold_nonneg.
Qed.

Lemma reachable_load rt : reachable rt -> load_ok rt.
Proof.
  induction 1 as [rapidhash cnt hf sd rt C|rt op rt' r R IH S].
  - destruct (create_ti _ _ _ _ _ C) as (T & N & _). intros _.
    rewrite N, (ti_expand _ T). apply expand_threshold_nonneg.
  - exact (load_step rt op rt' r (reachable_ti rt R) IH S).
Qed.

(** X4: while the bucket count is at most [2 ^ 57], so that
    [bucket_count * 75] does not wrap around, the entry count of a table
    never exceeds [expand_at], that is 75% of the bucket count. *)
Theorem load_factor_bound rt :
  reachable rt -> bucket_count rt <= 2 ^ 57 ->
  robin_table_count rt <= expand_at rt /\ robin_table_count rt * 100 <= bucket_count rt * 75.
Proof.
  intros R Hb. pose proof (reachable_ti rt R) as T. pose proof (ti_bounds rt T) as B.
  pose proof (reachable_load rt R Hb) as L. unfold robin_table_count.
  rewrite (ti_expand _ T), expand_threshold_small in L by lia.
  rewrite (ti_expand _ T), expand_threshold_small by lia.
  split; [exact L|].
  pose proof (Z.div_mod (bucket_count rt * 75) 100 ltac:(lia)).
  pose proof (Z.mod_pos_bound (bucket_count rt * 75) 100 ltac:(lia)). lia.
Qed.

Lemma load_factor_bound_witness :
  reachable (ex_after ex_table0 (ex_puts 24)) /\
  bucket_count (ex_after ex_table0 (ex_puts 24)) <= 2 ^ 57 /\
  robin_table_count (ex_after ex_table0 (ex_puts 24)) <= expand_at (ex_after ex_table0 (ex_puts 24)) /\
  robin_table_count (ex_after ex_table0 (ex_puts 24)) * 100 <=
    bucket_count (ex_after ex_table0 (ex_puts 24)) * 75.
Proof.
  assert (A1 : reachable (ex_after ex_table0 (ex_puts 24))).
  { apply (run_reachable ex_table0 (ex_puts 24));
      [apply (reach_create sum_hash 0 None 0); vm_compute; reflexivity|vm_compute; reflexivity]. }
  assert (A2 : bucket_count (ex_after ex_table0 (ex_puts 24)) <= 2 ^ 57)
    by (apply Z.leb_le; vm_compute; reflexivity).
  exact (conj A1 (conj A2 (load_factor_bound _ A1 A2))).
Defined.

(** X5: from [2 ^ 58] buckets on, [bucket_count * 75] wraps around in
    [size_t] and the growth threshold [expand_at] falls to at most 11% of
    the bucket count. *)
Theorem expand_threshold_wraps e :
  58 <= e <= 63 -> expand_threshold (2 ^ e) * 100 <= 2 ^ e * 11.
Proof.
  intros He.
  assert (E : e = 58 \/ e = 59 \/ e = 60 \/ e = 61 \/ e = 62 \/ e = 63) by lia.
  destruct E as [->|[->|[->|[->|[->| ->]]]]]; apply Z.leb_le; vm_compute; reflexivity.
Qed.

Lemma expand_threshold_wraps_witness :
  58 <= 58 <= 63 /\ expand_threshold (2 ^ 58) * 100 <= 2 ^ 58 * 11.
Proof.
  assert (A1 : 58 <= 58 <= 63) by lia.
  exact (conj A1 (expand_threshold_wraps 58 A1)).
Defined.

(** ** Operations composed *)



(** X7: [robin_table_clear] fails, leaving the table as it was, exactly
    when a new bucket array is asked for and cannot be allocated; otherwise
    the cleared table holds no entry, has the initial bucket count or keeps
    its own, answers [NULL] to every lookup and deletion, and a deletion
    from it changes nothing. *)
Theorem clear_public rt u ok rt' b :
  reachable rt -> robin_table_clear rt u ok = (rt', b) ->
  (b = false <-> u = true /\ ok = false) /\
  (b = false -> rt' = rt) /\
  (b = true ->
     robin_table_count rt' = 0 /\
     bucket_count rt' = (if u then init_buckets rt else bucket_count rt) /\
     forall k, (0 < length k)%nat ->
       robin_table_get rt' k = Some NULL /\
       forall ok2, robin_table_del rt' k ok2 = Some (rt', NULL)).
Proof.
  intros R C. pose proof (reachable_ti rt R) as T.
  destruct (clear_ti rt u ok T) as [(-> & -> & C1)|(rt1 & C1 & Hu & T1 & N1 & B1 & _ & _ & _ & S1)];
    rewrite C1 in C; injection C as <- <-.
  - split; [tauto|]. split; [auto|discriminate].
  - split; [split; [discriminate|intros [-> ->]; destruct Hu; discriminate]|].
    split; [discriminate|]. intros _. unfold robin_table_count.
    split; [exact N1|]. split; [exact B1|]. intros k Hk. split.
    + rewrite (get_ti rt1 k T1 Hk), S1. reflexivity.
    + intros ok2. destruct (del_spec rt1 k ok2 T1 Hk) as [(_ & D)|(v1 & _ & S & _)];
        [exact D|congruence].
Qed.

Lemma clear_public_witness :
  reachable (ex_after ex_table0 (ex_puts 24)) /\
  robin_table_clear (ex_after ex_table0 (ex_puts 24)) true true =
    (ex_after ex_table0 (ex_puts 24 ++ [OpClear true true]), true) /\
  (true = false <-> true = true /\ true = false) /\
  (true = false -> ex_after ex_table0 (ex_puts 24 ++ [OpClear true true]) = ex_after ex_table0 (ex_puts 24)) /\
  (true = true ->
     robin_table_count (ex_after ex_table0 (ex_puts 24 ++ [OpClear true true])) = 0 /\
     bucket_count (ex_after ex_table0 (ex_puts 24 ++ [OpClear true true])) =
       init_buckets (ex_after ex_table0 (ex_puts 24)) /\
     forall k, (0 < length k)%nat ->
       robin_table_get (ex_after ex_table0 (ex_puts 24 ++ [OpClear true true])) k = Some NULL /\
       forall ok2, robin_table_del (ex_after ex_table0 (ex_puts 24 ++ [OpClear true true])) k ok2 =
         Some (ex_after ex_table0 (ex_puts 24 ++ [OpClear true true]), NULL)).
Proof.
  assert (A1 : reachable (ex_after ex_table0 (ex_puts 24))).
  { apply (run_reachable ex_table0 (ex_puts 24));
      [apply (reach_create sum_hash 0 None 0); vm_compute; reflexivity|vm_compute; reflexivity]. }
  assert (A2 : robin_table_clear (ex_after ex_table0 (ex_puts 24)) true true =
    (ex_after ex_table0 (ex_puts 24 ++ [OpClear true true]), true)) by (vm_compute; reflexivity).
  exact (conj A1 (conj A2 (clear_public _ _ _ _ _ A1 A2))).
Defined.

(** X8: deleting a stored key returns its value and removes exactly that
    key, one entry less; the bucket array is halved exactly when the
    bucket count is above the initial one, the remaining entries are at
    most [shrink_at] and the new array can be allocated; a failed shrink
    keeps the bucket count and the deletion still takes place. *)
Theorem del_stored rt k v ok :
  reachable rt -> stored rt k = Some v ->
  exists rt', robin_table_del rt k ok = Some (rt', v) /\
    robin_table_count rt' = robin_table_count rt - 1 /\
    stored rt' k = None /\
    (forall k', k' <> k -> stored rt' k' = stored rt k') /\
    bucket_count rt' =
      (if (init_buckets rt <? bucket_count rt) && (robin_table_count rt - 1 <=? shrink_at rt) && ok
       then bucket_count rt / 2 else bucket_count rt).
Proof.
  intros R Hs. pose proof (reachable_ti rt R) as T.
  assert (Hk : (0 < length k)%nat)
    by exact (wf_keys_pos _ _ _ _ (ti_wf _ T) (assoc_some _ _ _ Hs)).
  destruct (del_spec rt k ok T Hk) as [(S & _)|(v1 & rt' & S & D & _ & N & B & _ & _ & _ & S2)];
    [congruence|].
  rewrite Hs in S. injection S as <-.
  exists rt'. unfold robin_table_count. split; [exact D|]. split; [exact N|].
  split; [rewrite S2; destruct (list_eq_dec Byte.byte_eq_dec k k); congruence|].
  split; [|exact B].
  intros k' Hne. rewrite S2. destruct (list_eq_dec Byte.byte_eq_dec k' k); congruence.
Qed.

Lemma del_stored_witness :
  reachable (ex_after ex_table0 (ex_puts 24)) /\
  stored (ex_after ex_table0 (ex_puts 24)) (ex_key 5) = Some 105 /\
  exists rt', robin_table_del (ex_after ex_table0 (ex_puts 24)) (ex_key 5) false = Some (rt', 105) /\
    robin_table_count rt' = robin_table_count (ex_after ex_table0 (ex_puts 24)) - 1 /\
    stored rt' (ex_key 5) = None /\
    (forall k', k' <> ex_key 5 -> stored rt' k' = stored (ex_after ex_table0 (ex_puts 24)) k') /\
    bucket_count rt' =
      (if (init_buckets (ex_after ex_table0 (ex_puts 24)) <? bucket_count (ex_after ex_table0 (ex_puts 24)))
          && (robin_table_count (ex_after ex_table0 (ex_puts 24)) - 1 <=?
              shrink_at (ex_after ex_table0 (ex_puts 24))) && false
       then bucket_count (ex_after ex_table0 (ex_puts 24)) / 2
       else bucket_count (ex_after ex_table0 (ex_puts 24))).
Proof.
  assert (A1 : reachable (ex_after ex_table0 (ex_puts 24))).
  { apply (run_reachable ex_table0 (ex_puts 24));
      [apply (reach_create sum_hash 0 None 0); vm_compute; reflexivity|vm_compute; reflexivity]. }
  assert (A2 : stored (ex_after ex_table0 (ex_puts 24)) (ex_key 5) = Some 105)
    by (vm_compute; reflexivity).
  exact (conj A1 (conj A2 (del_stored _ _ _ false A1 A2))).
Defined.



(** ** The hash strategies' helpers *)

Lemma add_carry x y : 0 <= x < 2 ^ 64 -> 0 <= y < 2 ^ 64 ->
  (2 ^ 64 <= x + y /\ u64 (x + y) = x + y - 2 ^ 64 /\ (u64 (x + y) <? x) = true) \/
  (x + y < 2 ^ 64 /\ u64 (x + y) = x + y /\ (u64 (x + y) <? x) = false).
Proof.
  intros Hx Hy. destruct (Z_lt_le_dec (x + y) (2 ^ 64)).
  - right. rewrite u64_small by lia. split; [lia|split; [reflexivity|apply Z.ltb_ge; lia]].
  - left. assert (E : u64 (x + y) = x + y - 2 ^ 64).
    { unfold u64. transitivity ((x + y - 2 ^ 64 + 1 * 2 ^ 64) mod 2 ^ 64); [f_equal; ring|].
      rewrite Z.mod_add by lia. apply Z.mod_small; lia. }
    rewrite E. split; [lia|split; [reflexivity|apply Z.ltb_lt; lia]].
Qed.

Lemma u64_shl32 m : 0 <= m -> u64 (m * 2 ^ 32) = (m mod 2 ^ 32) * 2 ^ 32.
Proof.
  intros Hm. unfold u64.
  pose proof (Z.div_mod m (2 ^ 32) ltac:(lia)) as D.
  pose proof (Z.mod_pos_bound m (2 ^ 32) ltac:(lia)) as Bm.
  set (q := m / 2 ^ 32) in *. set (r := m mod 2 ^ 32) in *. clearbody q r.
  rewrite D. replace ((2 ^ 32 * q + r) * 2 ^ 32) with (r * 2 ^ 32 + q * 2 ^ 64) by ring.
  rewrite Z.mod_add by lia. apply Z.mod_small. lia.
Qed.

Lemma split32 x : 0 <= x < 2 ^ 64 ->
  x = 2 ^ 32 * (x / 2 ^ 32) + x mod 2 ^ 32 /\ 0 <= x / 2 ^ 32 < 2 ^ 32 /\ 0 <= x mod 2 ^ 32 < 2 ^ 32.
Proof.
  intros Hx. pose proof (Z.div_mod x (2 ^ 32) ltac:(lia)).
  pose proof (Z.mod_pos_bound x (2 ^ 32) ltac:(lia)).
  split; [assumption|split; [|assumption]].
  split; [apply Z.div_pos; lia|apply Z.div_lt_upper_bound; lia].
Qed.

Lemma prod32 x y : 0 <= x < 2 ^ 32 -> 0 <= y < 2 ^ 32 -> 0 <= x * y <= (2 ^ 32 - 1) * (2 ^ 32 - 1).
Proof. intros. split; [lia|apply Z.mul_le_mono_nonneg; lia]. Qed.

(** X10: for 64-bit inputs the portable branch of [rapid_mul128], four
    32-bit products with two carries, gives the same low and high halves
    as the [__uint128_t] branch, and these are the low and high 64 bits of
    the exact product [A * B]. *)
Theorem rapid_mul128_agree A B :
  0 <= A < 2 ^ 64 -> 0 <= B < 2 ^ 64 ->
  rapid_mul128_portable A B = rapid_mul128_int128 A B /\
  rapid_mul128_int128 A B = (A * B mod 2 ^ 64, A * B / 2 ^ 64).
Proof.
  intros HA HB.
  assert (Hr : rapid_mul128_int128 A B = (A * B mod 2 ^ 64, A * B / 2 ^ 64)).
  { unfold rapid_mul128_int128, u64. rewrite Z.shiftr_div_pow2 by lia. f_equal.
    apply Z.mod_small. split; [apply Z.div_pos; nia|apply Z.div_lt_upper_bound; nia]. }
  split; [rewrite Hr|exact Hr].
  assert (HAB : 0 <= A * B < 2 ^ 64 * 2 ^ 64) by nia.
  unfold rapid_mul128_portable. rewrite !Z.shiftr_div_pow2 by lia.
  destruct (split32 A HA) as (EA & Bah & Bal).
  destruct (split32 B HB) as (EB & Bbh & Bbl).
  set (ah := A / 2 ^ 32) in *. set (al := A mod 2 ^ 32) in *.
  set (bh := B / 2 ^ 32) in *. set (bl := B mod 2 ^ 32) in *.
  clearbody ah al bh bl.
  pose proof (prod32 ah bh Bah Bbh) as PH. pose proof (prod32 ah bl Bah Bbl) as P0.
  pose proof (prod32 bh al Bbh Bal) as P1. pose proof (prod32 al bl Bal Bbl) as PL.
  assert (EAB : A * B = 2 ^ 64 * (ah * bh) + 2 ^ 32 * (ah * bl + bh * al) + al * bl)
    by (rewrite EA, EB; ring).
  set (RH := ah * bh) in *. set (M0 := ah * bl) in *. set (M1 := bh * al) in *.
  set (RL := al * bl) in *. clearbody RH M0 M1 RL.
  rewrite !(u64_small RH), !(u64_small M0), !(u64_small M1), !(u64_small RL) by lia.
  rewrite !Z.shiftl_mul_pow2, !u64_shl32 by lia.
  destruct (split32 M0 ltac:(lia)) as (E0 & B0h & B0l).
  destruct (split32 M1 ltac:(lia)) as (E1 & B1h & B1l).
  set (m0h := M0 / 2 ^ 32) in *. set (m0l := M0 mod 2 ^ 32) in *.
  set (m1h := M1 / 2 ^ 32) in *. set (m1l := M1 mod 2 ^ 32) in *.
  clearbody m0h m0l m1h m1l.
  rewrite (u64_small (RH + m0h)), (u64_small (RH + m0h + m1h)) by lia.
  destruct (add_carry RL (m0l * 2 ^ 32) ltac:(lia) ltac:(lia)) as [(C1 & T1 & L1)|(C1 & T1 & L1)];
    rewrite L1, T1;
    [destruct (add_carry (RL + m0l * 2 ^ 32 - 2 ^ 64) (m1l * 2 ^ 32) ltac:(lia) ltac:(lia))
       as [(C2 & T2 & L2)|(C2 & T2 & L2)]
    |destruct (add_carry (RL + m0l * 2 ^ 32) (m1l * 2 ^ 32) ltac:(lia) ltac:(lia))
       as [(C2 & T2 & L2)|(C2 & T2 & L2)]];
    rewrite L2, T2;
    repeat match goal with
    | |- context [u64 ?x] =>
        lazymatch x with context [u64 _] => fail | _ => rewrite (u64_small x) by lia end
    end;
    f_equal;
    [apply (Z.mod_unique _ _ (RH + m0h + m1h + 2))|apply (Z.div_unique _ _ _ (RL + m0l * 2 ^ 32 - 2 ^ 64 + m1l * 2 ^ 32 - 2 ^ 64))
    |apply (Z.mod_unique _ _ (RH + m0h + m1h + 1))|apply (Z.div_unique _ _ _ (RL + m0l * 2 ^ 32 - 2 ^ 64 + m1l * 2 ^ 32))
    |apply (Z.mod_unique _ _ (RH + m0h + m1h + 1))|apply (Z.div_unique _ _ _ (RL + m0l * 2 ^ 32 + m1l * 2 ^ 32 - 2 ^ 64))
    |apply (Z.mod_unique _ _ (RH + m0h + m1h))|apply (Z.div_unique _ _ _ (RL + m0l * 2 ^ 32 + m1l * 2 ^ 32))];
    lia.
Qed.

Lemma rapid_mul128_agree_witness :
  0 <= 2 ^ 64 - 1 < 2 ^ 64 /\ 0 <= 2 ^ 64 - 3 < 2 ^ 64 /\
  rapid_mul128_portable (2 ^ 64 - 1) (2 ^ 64 - 3) = rapid_mul128_int128 (2 ^ 64 - 1) (2 ^ 64 - 3) /\
  rapid_mul128_int128 (2 ^ 64 - 1) (2 ^ 64 - 3) =
    ((2 ^ 64 - 1) * (2 ^ 64 - 3) mod 2 ^ 64, (2 ^ 64 - 1) * (2 ^ 64 - 3) / 2 ^ 64).
Proof.
  assert (A1 : 0 <= 2 ^ 64 - 1 < 2 ^ 64) by lia.
  assert (A2 : 0 <= 2 ^ 64 - 3 < 2 ^ 64) by lia.
  exact (conj A1 (conj A2 (rapid_mul128_agree _ _ A1 A2))).
Defined.

Lemma u64_bits x i : 0 <= i ->
  Z.testbit (u64 x) i = if i <? 64 then Z.testbit x i else false.
Proof.
  intros Hi. unfold u64. destruct (Z.ltb_spec i 64).
  - apply Z.mod_pow2_bits_low; lia.
  - apply Z.mod_pow2_bits_high; lia.
Qed.

Lemma bits64_high v j : 0 <= v < 2 ^ 64 -> 64 <= j -> Z.testbit v j = false.
Proof.
  intros Hv Hj. rewrite <- (Z.mod_small v (2 ^ 64)) by lia.
  apply Z.mod_pow2_bits_high; lia.
Qed.

Lemma rotl_bits v a i : 0 <= v < 2 ^ 64 -> 0 < a < 64 -> 0 <= i ->
  Z.testbit (XXH_rotl64 v a) i = if i <? 64 then Z.testbit v ((i - a) mod 64) else false.
Proof.
  intros Hv Ha Hi. unfold XXH_rotl64. rewrite (Z.mod_small a 64) by lia.
  rewrite Z.lor_spec, u64_bits, Z.shiftl_spec, Z.shiftr_spec by lia.
  destruct (Z.ltb_spec i 64).
  - destruct (Z_lt_le_dec i a).
    + rewrite (Z.testbit_neg_r v (i - a)), Bool.orb_false_l by lia.
      f_equal. replace (i - a) with (i + (64 - a) + (-1) * 64) by ring.
      rewrite Z.mod_add, Z.mod_small; lia.
    + rewrite (bits64_high v (i + (64 - a))), Bool.orb_false_r by lia.
      rewrite (Z.mod_small (i - a) 64) by lia. reflexivity.
  - apply bits64_high; lia.
Qed.

Lemma rotl_range v a : 0 <= v < 2 ^ 64 -> 0 < a < 64 -> 0 <= XXH_rotl64 v a < 2 ^ 64.
Proof.
  intros Hv Ha.
  assert (E : XXH_rotl64 v a = u64 (XXH_rotl64 v a)).
  { apply Z.bits_inj'. intros i Hi. rewrite u64_bits, rotl_bits by lia.
    destruct (i <? 64); reflexivity. }
  rewrite E. unfold u64. apply Z.mod_pos_bound. lia.
Qed.

(** X11: for a 64-bit value and [0 < amt < 64], [XXH_rotl64] moves bit
    [i - amt] (modulo 64) to bit [i], stays within 64 bits, and rotating
    the result by [64 - amt] gives the value back. *)
Theorem rotl_roundtrip v a :
  0 <= v < 2 ^ 64 -> 0 < a < 64 ->
  (forall i, 0 <= i < 64 -> Z.testbit (XXH_rotl64 v a) i = Z.testbit v ((i - a) mod 64)) /\
  0 <= XXH_rotl64 v a < 2 ^ 64 /\
  XXH_rotl64 (XXH_rotl64 v a) (64 - a) = v.
Proof.
  intros Hv Ha. pose proof (rotl_range v a Hv Ha) as R.
  split; [intros i Hi; rewrite rotl_bits by lia; destruct (Z.ltb_spec i 64); [reflexivity|lia]|].
  split; [exact R|].
  apply Z.bits_inj'. intros i Hi. rewrite rotl_bits by lia.
  destruct (Z.ltb_spec i 64).
  - pose proof (Z.mod_pos_bound (i - (64 - a)) 64 ltac:(lia)).
    rewrite rotl_bits by lia. replace ((i - (64 - a)) mod 64 <? 64) with true
      by (symmetry; apply Z.ltb_lt; lia).
    f_equal. rewrite Zminus_mod_idemp_l.
    transitivity ((i + (-1) * 64) mod 64); [f_equal; ring|].
    rewrite Z.mod_add, Z.mod_small; lia.
  - symmetry. apply bits64_high; lia.
Qed.

Lemma rotl_roundtrip_witness :
  0 <= 81985529216486895 < 2 ^ 64 /\ 0 < 31 < 64 /\
  (forall i, 0 <= i < 64 ->
     Z.testbit (XXH_rotl64 81985529216486895 31) i = Z.testbit 81985529216486895 ((i - 31) mod 64)) /\
  0 <= XXH_rotl64 81985529216486895 31 < 2 ^ 64 /\
  XXH_rotl64 (XXH_rotl64 81985529216486895 31) (64 - 31) = 81985529216486895.
Proof.
  assert (A1 : 0 <= 81985529216486895 < 2 ^ 64) by lia.
  assert (A2 : 0 < 31 < 64) by lia.
  exact (conj A1 (conj A2 (rotl_roundtrip _ _ A1 A2))).
Defined.
